(** * A shallow embedding of the cache emulator

    The emulator (src/emulator/address.py, block.py, ram.py, cache.py, cpu.py
    and the reporting step of src/cache-sim.py) is embedded as Rocq functions
    over an explicit world: a heap of [Block] objects (Python objects are
    shared by reference between the cache and the RAM), the cache, the RAM,
    and the two oracles the code consults ([datetime.now()] and
    [random.choice]).  Exceptions are values: every operation returns its
    outcome together with the world as it stands when the call ends or
    raises. *)

From Stdlib Require Import ZArith NArith Ascii String List Lia QArith.
From stdpp Require Import base option list gmap.

Local Open Scope nat_scope.

(** ** Python values *)

(** The exceptions the emulator's code can raise. *)
Inductive exn :=
  | ValueError | IndexError | KeyError | AttributeError
  | TypeError | UnboundLocalError | ZeroDivisionError.

Inductive result (A : Type) :=
  | Ok (a : A)
  | Raise (e : exn).
Arguments Ok {A} a.
Arguments Raise {A} e.

Definition is_Ok {A} (r : result A) : bool :=
  match r with Ok _ => true | Raise _ => false end.

(** A Python [str]. *)
Abbreviation str := (list ascii).

(** A word of a block: [numpy.float64].  The emulator only moves words
    around, so the payload of a number is an integer here; [NaN] is
    [np.nan], the content of a word that was never written. *)
Inductive pyfloat :=
  | NaN
  | Float (z : Z).

(** An entry of the two time columns of a cache row: [np.nan] at
    construction, [None] in the row [get_block] makes up on a miss, a
    [datetime] after an install. *)
Inductive stamp :=
  | StampNaN
  | StampNone
  | Datetime (t : Z).

#[global] Instance exn_eq_dec : EqDecision exn.
Proof. solve_decision. Defined.
#[global] Instance ascii_eq_dec' : EqDecision ascii := Ascii.ascii_dec.
#[global] Instance pyfloat_eq_dec : EqDecision pyfloat.
Proof. solve_decision. Defined.
#[global] Instance stamp_eq_dec : EqDecision stamp.
Proof. solve_decision. Defined.

(** [s[start:stop]] with Python's rules: a negative bound counts from the
    end, every bound is clamped to the string, and a start at or after the
    stop gives the empty string. *)
Definition clamp (len : nat) (i : Z) : nat :=
  if (i <? 0)%Z then Z.to_nat (Z.of_nat len + i) else Nat.min (Z.to_nat i) len.

Definition slice {A} (s : list A) (start stop : option Z) : list A :=
  let lo := match start with Some i => clamp (length s) i | None => 0 end in
  let hi := match stop with Some i => clamp (length s) i | None => length s end in
  take (hi - lo) (drop lo s).

(** [bin(n)[2:]] for a non-negative [n]. *)
Fixpoint bin_pos (p : positive) (acc : str) : str :=
  match p with
  | xH => "1"%char :: acc
  | xO p' => bin_pos p' ("0"%char :: acc)
  | xI p' => bin_pos p' ("1"%char :: acc)
  end.

Definition bin (n : N) : str :=
  match n with
  | N0 => ["0"%char]
  | Npos p => bin_pos p []
  end.

(** [int(s, 2)] on a string of binary digits; [ValueError] on the empty
    string and on any other character. *)
Fixpoint int2_digits (acc : N) (s : str) : result N :=
  match s with
  | [] => Ok acc
  | c :: s' =>
      if decide (c = "0"%char) then int2_digits (2 * acc)%N s'
      else if decide (c = "1"%char) then int2_digits (2 * acc + 1)%N s'
      else Raise ValueError
  end.

Definition int2 (s : str) : result N :=
  match s with
  | [] => Raise ValueError
  | _ => int2_digits 0%N s
  end.

(** [int(math.log(n, 2))]: a math domain error ([ValueError]) at 0 and the
    exponent on a power of two, which is where the emulator's geometry
    lives; elsewhere the floor of the logarithm. *)
Definition log2_int (n : N) : result Z :=
  if (n =? 0)%N then Raise ValueError else Ok (Z.of_N (N.log2 n)).

(** ** address.py *)

Module Address.

Record t := {
  address : str;
  _offset_len : Z;
  _index_len : Z;
  _tag_len : Z
}.

Definition _get_index_len (sets entries : N) : result Z :=
  if (sets =? 1)%N then log2_int entries
  else if (sets =? entries)%N then Ok 0%Z
  else log2_int sets.

Definition _get_binary (address : N) : str :=
  let binary := bin address in
  let prefix := replicate (32 - length binary) "0"%char in
  prefix ++ binary.

Definition __init__ (address block_size entries sets : N) : result t :=
  let a := _get_binary address in
  match log2_int block_size with
  | Raise e => Raise e
  | Ok offset_len =>
      match _get_index_len sets entries with
      | Raise e => Raise e
      | Ok index_len =>
          Ok {| address := a;
                _offset_len := offset_len;
                _index_len := index_len;
                _tag_len := 32 - offset_len - index_len |}
      end
  end.

Definition get_tag (self : t) : str :=
  slice (address self) None (Some (_tag_len self)).

Definition get_index (self : t) : str :=
  slice (address self) (Some (_tag_len self))
        (Some (_tag_len self + _index_len self)%Z).

Definition get_offset (self : t) : str :=
  slice (address self) (Some (- _offset_len self)%Z) None.

End Address.

(** ** Exceptions and state

    A method is a function from the state it can touch to its outcome and
    the state it leaves behind; a raise keeps the mutations made so far. *)

Definition M (S A : Type) : Type := S -> result A * S.

Definition ret {S A} (a : A) : M S A := fun s => (Ok a, s).
Definition raise {S A} (e : exn) : M S A := fun s => (Raise e, s).
Definition lift {S A} (r : result A) : M S A := fun s => (r, s).
Definition gets {S A} (f : S -> A) : M S A := fun s => (Ok (f s), s).
Definition modify {S} (f : S -> S) : M S unit := fun s => (Ok tt, f s).

Definition bind {S A B} (m : M S A) (k : A -> M S B) : M S B :=
  fun s =>
    match m s with
    | (Ok a, s') => k a s'
    | (Raise e, s') => (Raise e, s')
    end.

Notation "'let*' x := c1 'in' c2" := (bind c1 (fun x => c2))
  (at level 10, x pattern, c1 at level 100, c2 at level 200).

(** A reference to a [Block] object. *)
Definition loc := nat.

(** ** block.py *)

Module Block.

Record t := {
  data : list pyfloat;
  tag : option str
}.

Definition __init__ (size : nat) : t :=
  {| data := replicate size NaN; tag := None |}.

(** [self.tag = tag] comes first, so the tag is set even when
    [self.data[loc] = val] raises. *)
Definition set_val (val : pyfloat) (loc : nat) (tag : str) : M t unit :=
  let* _ := modify (fun self => {| data := data self; tag := Some tag |}) in
  let* data := gets data in
  if decide (loc < length data)
  then modify (fun self => {| data := <[loc := val]> data; tag := Some tag |})
  else raise IndexError.

End Block.

(** ** ram.py *)

Module RAM.

(** A row [[valid, block]] of the array. *)
Record row := {
  valid : bool;
  block : option loc
}.

Record t := {
  blocks : list row
}.

(** [[[False, Block(block_size)]] * num_blocks]: every row starts with a
    reference to the one block [b] that the constructor allocates. *)
Definition __init__ (num_blocks : nat) (b : loc) : t :=
  {| blocks := replicate num_blocks {| valid := false; block := Some b |} |}.

Definition get_block (tag index : str) : M t (option loc) :=
  let* index := lift (int2 (tag ++ index)) in
  let* blocks := gets blocks in
  match blocks !! N.to_nat index with
  | None => raise IndexError
  | Some r => if valid r then ret (block r) else ret None
  end.

Definition set_block (tag index : str) (data : option loc) : M t unit :=
  let* index := lift (int2 (tag ++ index)) in
  let* blocks := gets blocks in
  if decide (N.to_nat index < length blocks)
  then modify (fun self =>
         {| blocks := <[N.to_nat index := {| valid := true; block := data |}]> blocks |})
  else raise IndexError.

End RAM.

(** ** cache.py *)

(** [np.argmin] over a column of an object array: the scan keeps the first
    entry that no later entry is strictly below, comparing with Python's
    [<]; a [datetime] against [np.nan] or [None] is a [TypeError], and an
    empty column a [ValueError]. *)
Definition stamp_lt (a b : stamp) : result bool :=
  match a, b with
  | Datetime x, Datetime y => Ok (x <? y)%Z
  | StampNaN, StampNaN => Ok false
  | _, _ => Raise TypeError
  end.

Fixpoint argmin_from (mp : stamp) (min_ind i : nat) (l : list stamp) : result nat :=
  match l with
  | [] => Ok min_ind
  | v :: l' =>
      match stamp_lt v mp with
      | Raise e => Raise e
      | Ok true => argmin_from v i (S i) l'
      | Ok false => argmin_from mp min_ind (S i) l'
      end
  end.

Definition argmin (l : list stamp) : result nat :=
  match l with
  | [] => Raise ValueError
  | v :: l' => argmin_from v 0 1 l'
  end.

(** The keys of the [sets] dictionary are filled in order by the loop of
    [_get_sets]. *)
Fixpoint _get_sets_loop (keys : list nat) (ix blocks_per_set : nat)
    (sets : gmap nat nat) : gmap nat nat :=
  match keys with
  | [] => sets
  | i :: keys' =>
      _get_sets_loop keys' (ix + blocks_per_set) blocks_per_set (<[i := ix]> sets)
  end.

Module Cache.

(** A row [[valid bit, tag, Block, time in, access time]] of the array. *)
Record row := {
  valid : bool;
  tag : option str;
  block : option loc;
  time_in : stamp;
  access : stamp
}.

Record t := {
  block_size : nat;
  replacement : str;
  sets : gmap nat nat;
  blocks_per_set : nat;
  blocks : list row;
  read_hits : nat;
  read_misses : nat;
  write_hits : nat;
  write_misses : nat
}.

(** What a method of the cache can reach: the [Block] objects (by
    reference), the cache itself, the RAM it is handed, the clock behind
    [datetime.now()] and the generator behind [random.choice].  [wall n]
    is the clock's reading at its [n]-th call, [rand n] the generator's
    [n]-th draw. *)
Record world := {
  heap : loc -> Block.t;
  next : loc;
  self : t;
  ram : RAM.t;
  wall : nat -> Z;
  ticks : nat;
  rand : nat -> nat;
  draws : nat
}.

Definition with_heap (h : loc -> Block.t) (n : loc) (w : world) : world :=
  {| heap := h; next := n; self := self w; ram := ram w;
     wall := wall w; ticks := ticks w; rand := rand w; draws := draws w |}.

Definition with_self (c : t) (w : world) : world :=
  {| heap := heap w; next := next w; self := c; ram := ram w;
     wall := wall w; ticks := ticks w; rand := rand w; draws := draws w |}.

Definition with_ram (r : RAM.t) (w : world) : world :=
  {| heap := heap w; next := next w; self := self w; ram := r;
     wall := wall w; ticks := ticks w; rand := rand w; draws := draws w |}.

Definition with_blocks (b : list row) (c : t) : t :=
  {| block_size := block_size c; replacement := replacement c; sets := sets c;
     blocks_per_set := blocks_per_set c; blocks := b;
     read_hits := read_hits c; read_misses := read_misses c;
     write_hits := write_hits c; write_misses := write_misses c |}.

Definition with_counters (rh rm wh wm : nat) (c : t) : t :=
  {| block_size := block_size c; replacement := replacement c; sets := sets c;
     blocks_per_set := blocks_per_set c; blocks := blocks c;
     read_hits := rh; read_misses := rm; write_hits := wh; write_misses := wm |}.

(** [datetime.now()] *)
Definition now : M world stamp :=
  fun w =>
    (Ok (Datetime (wall w (ticks w))),
     {| heap := heap w; next := next w; self := self w; ram := ram w;
        wall := wall w; ticks := S (ticks w); rand := rand w; draws := draws w |}).

(** [random.choice(range(start, stop))] *)
Definition choice (start stop : nat) : M world nat :=
  fun w =>
    if decide (start < stop)
    then (Ok (start + rand w (draws w) mod (stop - start)),
          {| heap := heap w; next := next w; self := self w; ram := ram w;
             wall := wall w; ticks := ticks w; rand := rand w; draws := S (draws w) |})
    else (Raise IndexError, w).

(** A method of the RAM, run on the RAM of the world. *)
Definition on_ram {A} (m : M RAM.t A) : M world A :=
  fun w => let '(r, ram') := m (ram w) in (r, with_ram ram' w).

(** A method of a block, run on the object a reference points to;
    calling it on [None] is an [AttributeError]. *)
Definition on_block {A} (b : option loc) (m : M Block.t A) : M world A :=
  fun w =>
    match b with
    | None => (Raise AttributeError, w)
    | Some l =>
        let '(r, blk) := m (heap w l) in
        (r, with_heap (fun l' => if decide (l' = l) then blk else heap w l') (next w) w)
    end.

(** [Block(size)]: a new object. *)
Definition new_block (size : nat) : M world (option loc) :=
  fun w =>
    let l := next w in
    (Ok (Some l),
     with_heap (fun l' => if decide (l' = l) then Block.__init__ size else heap w l')
               (S l) w).

(** [block.data[offset]]: reading an attribute of [None] is an
    [AttributeError]. *)
Definition data_getitem (b : option loc) (offset : nat) : M world pyfloat :=
  match b with
  | None => raise AttributeError
  | Some l =>
      let* d := gets (fun w => Block.data (heap w l)) in
      match d !! offset with
      | Some v => ret v
      | None => raise IndexError
      end
  end.

(** [self.blocks[ix] = r]: one row for an integer, and every row for
    [None], which numpy reads as a new axis. *)
Definition blocks_setitem (ix : option nat) (r : row) : M world unit :=
  let* c := gets self in
  match ix with
  | None => modify (with_self (with_blocks (map (fun _ => r) (blocks c)) c))
  | Some i =>
      if decide (i < length (blocks c))
      then modify (with_self (with_blocks (<[i := r]> (blocks c)) c))
      else raise IndexError
  end.

(** [index = 0 if not index else int(index, 2)] *)
Definition index_of (address : Address.t) : result nat :=
  match Address.get_index address with
  | [] => Ok 0
  | index =>
      match int2 index with
      | Ok n => Ok (N.to_nat n)
      | Raise e => Raise e
      end
  end.

(** The [sets] dictionary and [blocks_per_set]; the floor division
    raises at zero sets. *)
Definition _get_sets (num_sets num_blocks : nat) : result (nat * gmap nat nat) :=
  if decide (num_sets = 0) then Raise ZeroDivisionError
  else
    let blocks_per_set := num_blocks / num_sets in
    Ok (blocks_per_set, _get_sets_loop (seq 0 num_sets) 0 blocks_per_set ∅).

(** The constructor; [b] is the one [Block(block_size)] that every row
    of the new array refers to. *)
Definition __init__ (block_size num_sets num_blocks : nat) (replacement : str)
    (b : loc) : result t :=
  match _get_sets num_sets num_blocks with
  | Raise e => Raise e
  | Ok (blocks_per_set, sets) =>
      Ok {| block_size := block_size;
            replacement := replacement;
            sets := sets;
            blocks_per_set := blocks_per_set;
            blocks := replicate num_blocks
                        {| valid := false; tag := None; block := Some b;
                           time_in := StampNaN; access := StampNaN |};
            read_hits := 0; read_misses := 0;
            write_hits := 0; write_misses := 0 |}
  end.

(** The three replacement strategies the command line lets through. *)
Definition RANDOM : str := list_ascii_of_string "random".
Definition LRU : str := list_ascii_of_string "LRU".
Definition FIFO : str := list_ascii_of_string "FIFO".

(** The row [get_block] returns when no way of the set matches. *)
Definition no_row : row :=
  {| valid := false; tag := None; block := None;
     time_in := StampNone; access := StampNone |}.

Definition count_read_hit : M world unit :=
  modify (fun w => let c := self w in
    with_self (with_counters (read_hits c + 1) (read_misses c)
                             (write_hits c) (write_misses c) c) w).
Definition count_read_miss : M world unit :=
  modify (fun w => let c := self w in
    with_self (with_counters (read_hits c) (read_misses c + 1)
                             (write_hits c) (write_misses c) c) w).
Definition count_write_hit : M world unit :=
  modify (fun w => let c := self w in
    with_self (with_counters (read_hits c) (read_misses c)
                             (write_hits c + 1) (write_misses c) c) w).
Definition count_write_miss : M world unit :=
  modify (fun w => let c := self w in
    with_self (with_counters (read_hits c) (read_misses c)
                             (write_hits c) (write_misses c + 1) c) w).

Definition get_block (address : Address.t) : M world (option nat * row) :=
  let* index := lift (index_of address) in
  let* c := gets self in
  (* direct mapped *)
  if decide (size (sets c) = 1) then
    match blocks c !! index with
    | Some r => ret (Some index, r)
    | None => raise IndexError
    end
  (* associative *)
  else
    match sets c !! index with
    | None => raise KeyError
    | Some start =>
        let stop := start + blocks_per_set c in
        let set := slice (blocks c) (Some (Z.of_nat start)) (Some (Z.of_nat stop)) in
        match list_find
                (fun r => valid r = true /\ tag r = Some (Address.get_tag address))
                set with
        | Some (ix, r) => ret (Some (ix + start), r)
        | None => ret (None, no_row)
        end
    end.

Definition replace (tag : str) (index : nat) (data : option loc) : M world unit :=
  let* c := gets self in
  match sets c !! index with
  | None => raise KeyError
  | Some start =>
      let stop := start + blocks_per_set c in
      let* ix :=
        if decide (replacement c = RANDOM) then
          let* i := choice start stop in ret (Some i)
        else
          let set := slice (blocks c) (Some (Z.of_nat start)) (Some (Z.of_nat stop)) in
          if decide (replacement c = LRU) then
            let* i := lift (argmin (access <$> set)) in ret (Some i)
          else if decide (replacement c = FIFO) then
            let* i := lift (argmin (time_in <$> set)) in ret (Some i)
          else ret None in
      let* time := now in
      match ix with
      | None => raise UnboundLocalError
      | Some i =>
          blocks_setitem (Some i)
            {| valid := true; tag := Some tag; block := data;
               time_in := time; access := time |}
      end
  end.

Definition set_block (address : Address.t) (data : option loc) : M world unit :=
  let* time := now in
  let tag := Address.get_tag address in
  let* index := lift (index_of address) in
  let* c := gets self in
  (* direct mapped *)
  if decide (size (sets c) = 1) then
    match blocks c !! index with
    | None => raise IndexError
    | Some r =>
        let time_in := if valid r then time_in r else time in
        blocks_setitem (Some index)
          {| valid := true; tag := Some tag; block := data;
             time_in := time_in; access := time |}
    end
  (* associative *)
  else
    match sets c !! index with
    | None => raise KeyError
    | Some start =>
        let stop := start + blocks_per_set c in
        let set := slice (blocks c) (Some (Z.of_nat start)) (Some (Z.of_nat stop)) in
        match list_find (fun r => valid r = false) set with
        | Some (i, _) =>
            blocks_setitem (Some (start + i))
              {| valid := true; tag := Some tag; block := data;
                 time_in := time; access := time |}
        | None => replace tag index data
        end
    end.

Definition get_val (address : Address.t) : M world (option pyfloat) :=
  let* offset := lift (int2 (Address.get_offset address)) in
  let offset := N.to_nat offset in
  let* found := get_block address in
  let '(ix, r) := found in
  (* hit *)
  if valid r && bool_decide (Some (Address.get_tag address) = tag r) then
    let* _ := count_read_hit in
    let* time := now in
    let* _ := blocks_setitem ix
                {| valid := true; tag := tag r; block := block r;
                   time_in := time_in r; access := time |} in
    let* v := data_getitem (block r) offset in
    ret (Some v)
  (* miss *)
  else
    let* _ := count_read_miss in
    let* new_block :=
      on_ram (RAM.get_block (Address.get_tag address) (Address.get_index address)) in
    match block r with
    | Some _ =>
        let* _ := set_block address new_block in
        let* v := data_getitem new_block offset in
        ret (Some v)
    | None => ret None
    end.

Definition set_val (address : Address.t) (val : pyfloat) : M world unit :=
  let* offset := lift (int2 (Address.get_offset address)) in
  let offset := N.to_nat offset in
  let* found := get_block address in
  let '(ix, r) := found in
  (* hit *)
  if valid r && bool_decide (Some (Address.get_tag address) = tag r) then
    let* _ := count_write_hit in
    let* _ := on_block (block r) (Block.set_val val offset (Address.get_tag address)) in
    let* time := now in
    let* _ := blocks_setitem ix
                {| valid := true; tag := tag r; block := block r;
                   time_in := time_in r; access := time |} in
    on_ram (RAM.set_block (Address.get_tag address) (Address.get_index address) (block r))
  (* miss *)
  else
    let* _ := count_write_miss in
    let* block :=
      on_ram (RAM.get_block (Address.get_tag address) (Address.get_index address)) in
    let* in_ram :=
      match block with
      | Some l => gets (fun w => bool_decide (Block.tag (heap w l) = Some (Address.get_tag address)))
      | None => ret false
      end in
    let* block :=
      if in_ram then
        let* _ := on_block block (Block.set_val val offset (Address.get_tag address)) in
        ret block
      else
        let* c := gets self in
        let* block := new_block (block_size c) in
        let* _ := on_block block (Block.set_val val offset (Address.get_tag address)) in
        let* _ := on_ram (RAM.set_block (Address.get_tag address)
                                        (Address.get_index address) block) in
        ret block in
    set_block address block.

End Cache.

(** ** cpu.py *)

Module CPU.

(** The processor owns the cache and the RAM; [mem] holds both together
    with the objects and oracles their methods reach. *)
Record t := {
  mem : Cache.world;
  instructions : nat
}.

Definition cache (self : t) : Cache.t := Cache.self (mem self).
Definition ram (self : t) : RAM.t := Cache.ram (mem self).

(** The cache is built first and allocates its block, then the RAM
    allocates its own.  [wall] and [rand] are the clock and the random
    generator of the run. *)
Definition __init__ (block_size num_sets num_blocks_cache num_blocks_ram : nat)
    (replacement : str) (wall : nat -> Z) (rand : nat -> nat) : result t :=
  match Cache.__init__ block_size num_sets num_blocks_cache replacement 0 with
  | Raise e => Raise e
  | Ok c =>
      Ok {| mem := {| Cache.heap := fun _ => Block.__init__ block_size;
                      Cache.next := 2;
                      Cache.self := c;
                      Cache.ram := RAM.__init__ num_blocks_ram 1;
                      Cache.wall := wall; Cache.ticks := 0;
                      Cache.rand := rand; Cache.draws := 0 |};
            instructions := 0 |}
  end.

(** [Address(address, self.cache.block_size, len(self.cache.blocks),
    len(self.cache.sets))] *)
Definition decode (address : N) : M t Address.t :=
  fun self =>
    let c := cache self in
    (Address.__init__ address (N.of_nat (Cache.block_size c))
                      (N.of_nat (length (Cache.blocks c)))
                      (N.of_nat (size (Cache.sets c))),
     self).

Definition count_instruction : M t unit :=
  modify (fun self => {| mem := mem self; instructions := instructions self + 1 |}).

Definition on_mem {A} (m : M Cache.world A) : M t A :=
  fun self =>
    let '(r, w) := m (mem self) in
    (r, {| mem := w; instructions := instructions self |}).

Definition load (address : N) : M t (option pyfloat) :=
  let* address := decode address in
  let* _ := count_instruction in
  on_mem (Cache.get_val address).

Definition store (address : N) (value : pyfloat) : M t unit :=
  let* address := decode address in
  let* _ := count_instruction in
  on_mem (Cache.set_val address value).

End CPU.

(** ** cache-sim.py: sizing the RAM and reporting *)

Module cache_sim.

(** bytes per word *)
Definition SIZE : nat := 8.

(** [inputs["Ram Size"]] of [get_inputs]; [mxm] says whether the
    algorithm's name contains "mxm". *)
Definition ram_size (mxm : bool) (dimension : nat) : nat :=
  let size := SIZE * dimension * 3 in
  if mxm then size * dimension else size.

(** [-(inputs["Ram Size"] // -args.blocksize)] of [main], for a
    positive block size. *)
Definition blocks_in_ram (ram_size blocksize : nat) : result nat :=
  if decide (blocksize = 0) then Raise ZeroDivisionError
  else Ok ((ram_size + blocksize - 1) / blocksize).

(** What the report prints, line by line. *)
Inductive line :=
  | Banner
  | Count (label : string) (n : nat)
  | Rate (label : string) (percent : Q).

Definition print (l : line) : M (list line) unit :=
  modify (fun out => out ++ [l]).

(** [misses / total * 100]; the division raises at zero.  The rounding
    of the quotient to two decimals is left out. *)
Definition miss_rate (misses total : nat) : result Q :=
  if decide (total = 0) then Raise ZeroDivisionError
  else Ok (inject_Z (Z.of_nat misses) / inject_Z (Z.of_nat total) * inject_Z 100)%Q.

(** The results half of [print_results]. *)
Definition print_results (cpu : CPU.t) : M (list line) unit :=
  let c := CPU.cache cpu in
  let* _ := print Banner in
  let* _ := print (Count "Instruction Count" (CPU.instructions cpu)) in
  let* _ := print (Count "Read Hits" (Cache.read_hits c)) in
  let* _ := print (Count "Read Misses" (Cache.read_misses c)) in
  let total_reads := Cache.read_hits c + Cache.read_misses c in
  let* rate := lift (miss_rate (Cache.read_misses c) total_reads) in
  let* _ := print (Rate "Read Miss Rate" rate) in
  let* _ := print (Count "Write Hits" (Cache.write_hits c)) in
  let* _ := print (Count "Write Misses" (Cache.write_misses c)) in
  let total_writes := Cache.write_hits c + Cache.write_misses c in
  let* rate := lift (miss_rate (Cache.write_misses c) total_writes) in
  print (Rate "Write Miss Rate" rate).

(** [list(range(start, stop, step))]; a step of zero is a [ValueError]. *)
Definition range (start stop step : nat) : result (list nat) :=
  if decide (step = 0) then Raise ValueError
  else Ok ((fun k => start + k * step) <$> seq 0 ((stop - start + (step - 1)) / step)).

(** [l[-1]] *)
Definition last_item {A} (l : list A) : result A :=
  match last l with
  | Some x => Ok x
  | None => Raise IndexError
  end.

(** [x = []] followed by [for i in range(n): x.append(row(i))], for the
    indices [i] still to come. *)
Fixpoint append_rows (row : nat -> result (list nat)) (indices : list nat)
    (x : list (list nat)) : result (list (list nat)) :=
  match indices with
  | [] => Ok x
  | i :: indices' =>
      match row i with
      | Raise e => Raise e
      | Ok r => append_rows row indices' (x ++ [r])
      end
  end.

(** What [create_addresses] returns: three lists of addresses for the
    vectors of daxpy, three lists of rows for the matrices of mxm. *)
Inductive addresses :=
  | Vectors (a b c : list nat)
  | Matrices (a b c : list (list nat)).

(** A row of [b] or [c] starts one word after the last address of the
    matrix before it, [prev[-1][-1] + SIZE]. *)
Definition row_after (prev : list (list nat)) (n i : nat) : result (list nat) :=
  match last_item prev with
  | Raise e => Raise e
  | Ok r =>
      match last_item r with
      | Raise e => Raise e
      | Ok e =>
          range (e + SIZE + i * n * SIZE) (e + SIZE + i * n * SIZE + n * SIZE) SIZE
      end
  end.

Definition create_addresses (n : nat) (matrix : bool) : result addresses :=
  if matrix then
    match append_rows (fun i => range (i * n * SIZE) (i * n * SIZE + n * SIZE) SIZE)
                      (seq 0 n) [] with
    | Raise e => Raise e
    | Ok a =>
        match append_rows (row_after a n) (seq 0 n) [] with
        | Raise e => Raise e
        | Ok b =>
            match append_rows (row_after b n) (seq 0 n) [] with
            | Raise e => Raise e
            | Ok c => Ok (Matrices a b c)
            end
        end
    end
  else
    match range 0 (n * SIZE) SIZE with
    | Raise e => Raise e
    | Ok a =>
        match range (n * SIZE) (2 * n * SIZE) SIZE with
        | Raise e => Raise e
        | Ok b =>
            match range (2 * n * SIZE) (3 * n * SIZE) SIZE with
            | Raise e => Raise e
            | Ok c => Ok (Vectors a b c)
            end
        end
    end.

(** The processor [main] constructs:
    [CPU(args.blocksize, args.nway, args.cachesize, blocks_in_ram,
    args.replacement)], the cache size going where the constructor takes a
    number of blocks and the associativity where it takes a number of
    sets. *)
Definition main_cpu (blocksize nway cachesize dimension : nat) (mxm : bool)
    (replacement : str) (wall : nat -> Z) (rand : nat -> nat) : result CPU.t :=
  match blocks_in_ram (ram_size mxm dimension) blocksize with
  | Raise e => Raise e
  | Ok n => CPU.__init__ blocksize nway cachesize n replacement wall rand
  end.

End cache_sim.

(** ** Vocabulary of the properties *)

(** A string of binary digits. *)
Definition binary (s : str) : Prop :=
  Forall (fun c => c = "0"%char \/ c = "1"%char) s.

Definition power_of_two (n : N) : Prop := exists k : N, n = (2 ^ k)%N.

(** The geometry the address decoder is specified for: block size, number
    of cache blocks and number of sets are powers of two, a block has at
    least two bytes, and the sets divide the blocks. *)
Definition valid_configuration (block_size entries sets : N) : Prop :=
  power_of_two block_size /\ power_of_two entries /\ power_of_two sets /\
  (2 <= block_size)%N /\ (sets | entries)%N.

(** The offset and the index together fit in the 32 bits of an address. *)
Definition fits_32_bits (block_size entries sets : N) : Prop :=
  exists o i, log2_int block_size = Ok o /\
              Address._get_index_len sets entries = Ok i /\
              (o + i <= 32)%Z.

(** A memory access of a workload driver, and what comes back. *)
Inductive access :=
  | Load (address : N)
  | Store (address : N) (value : pyfloat).

Inductive outcome :=
  | Loaded (v : option pyfloat)
  | Stored
  | Raised (e : exn).

Definition perform (op : access) (cpu : CPU.t) : outcome * CPU.t :=
  match op with
  | Load a =>
      match CPU.load a cpu with
      | (Ok v, cpu') => (Loaded v, cpu')
      | (Raise e, cpu') => (Raised e, cpu')
      end
  | Store a v =>
      match CPU.store a v cpu with
      | (Ok _, cpu') => (Stored, cpu')
      | (Raise e, cpu') => (Raised e, cpu')
      end
  end.

(** The accesses of a driver in order.  The replay goes on after an
    exception, as under a driver that catches it; a driver that does not
    catch stops there, and what it has seen is a prefix of this trace. *)
Fixpoint replay (ops : list access) (cpu : CPU.t) : list outcome * CPU.t :=
  match ops with
  | [] => ([], cpu)
  | op :: ops' =>
      let '(o, cpu') := perform op cpu in
      let '(os, cpu'') := replay ops' cpu' in
      (o :: os, cpu'')
  end.

(** A clock that advances at every reading, a clock that stands still,
    and a generator that always draws 0. *)
Definition ticking : nat -> Z := Z.of_nat.
Definition frozen : nat -> Z := fun _ => 0%Z.
Definition draw_zero : nat -> nat := fun _ => 0.

(** The word at [offset] of the block a reference points to. *)
Definition word_at (w : Cache.world) (b : option loc) (offset : nat) : option pyfloat :=
  match b with
  | Some l => Block.data (Cache.heap w l) !! offset
  | None => None
  end.

(** The row of the RAM that is the home of an address. *)
Definition ram_row (w : Cache.world) (address : Address.t) : option RAM.row :=
  match int2 (Address.get_tag address ++ Address.get_index address) with
  | Ok n => RAM.blocks (Cache.ram w) !! N.to_nat n
  | Raise _ => None
  end.

(** A freshly constructed cache in front of the RAM of [w]: the
    constructor allocates the block its rows start with. *)
Definition with_fresh_cache (block_size num_sets num_blocks : nat) (replacement : str)
    (w : Cache.world) : result Cache.world :=
  match Cache.__init__ block_size num_sets num_blocks replacement (Cache.next w) with
  | Raise e => Raise e
  | Ok c =>
      Ok (Cache.with_self c
            (Cache.with_heap
               (fun l => if decide (l = Cache.next w) then Block.__init__ block_size
                         else Cache.heap w l)
               (S (Cache.next w)) w))
  end.

(** The scenario of a misdirected eviction under a policy: two sets of two
    ways; two stores fill set 1 (rows 2 and 3); a third store to set 1
    overwrites row 0, a way of set 0, and leaves rows 2 and 3 as they
    were. *)
Definition misdirected_eviction (policy : str) : Prop :=
  exists cpu0 cpu1 cpu2 addr r2 r3 r0,
    CPU.__init__ 2 2 4 16 policy ticking draw_zero = Ok cpu0 /\
    replay [Store 2 (Float 7); Store 6 (Float 8)] cpu0 = ([Stored; Stored], cpu1) /\
    Cache.sets (CPU.cache cpu1) !! 1 = Some 2 /\
    Cache.blocks_per_set (CPU.cache cpu1) = 2 /\
    Cache.blocks (CPU.cache cpu1) !! 2 = Some r2 /\
    Cache.blocks (CPU.cache cpu1) !! 3 = Some r3 /\
    Cache.valid r2 = true /\ Cache.valid r3 = true /\
    Cache.time_in r2 = Datetime 0 /\ Cache.access r2 = Datetime 0 /\
    Cache.time_in r3 = Datetime 1 /\ Cache.access r3 = Datetime 1 /\
    fst (CPU.decode 10 cpu1) = Ok addr /\
    Cache.index_of addr = Ok 1 /\
    CPU.store 10 (Float 9) cpu1 = (Ok tt, cpu2) /\
    Cache.blocks (CPU.cache cpu2) !! 2 = Some r2 /\
    Cache.blocks (CPU.cache cpu2) !! 3 = Some r3 /\
    Cache.blocks (CPU.cache cpu2) !! 0 = Some r0 /\
    Cache.valid r0 = true /\ Cache.tag r0 = Some (Address.get_tag addr).

(** A method leaves an observation [f] of the state as it found it,
    whether it returns or raises. *)
Definition preserves {S A X} (f : S -> X) (m : M S A) : Prop :=
  forall s, f (snd (m s)) = f s.

(** The four counters of the cache. *)
Definition counters (w : Cache.world) : nat * nat * nat * nat :=
  let c := Cache.self w in
  (Cache.read_hits c, Cache.read_misses c, Cache.write_hits c, Cache.write_misses c).

(** What is fixed when a cache is constructed. *)
Definition shape (w : Cache.world) : nat * str * gmap nat nat * nat * nat :=
  let c := Cache.self w in
  (Cache.block_size c, Cache.replacement c, Cache.sets c, Cache.blocks_per_set c,
   length (Cache.blocks c)).

(** The cache has [num_sets] sets over [num_blocks] rows, as its
    constructor lays them out. *)
Record geometry (num_sets num_blocks : nat) (c : Cache.t) : Prop := {
  geometry_num_sets : 0 < num_sets;
  geometry_size : size (Cache.sets c) = num_sets;
  geometry_sets : forall i,
    Cache.sets c !! i =
    if decide (i < num_sets) then Some (i * Cache.blocks_per_set c) else None;
  geometry_blocks_per_set : Cache.blocks_per_set c = num_blocks / num_sets;
  geometry_blocks : length (Cache.blocks c) = num_blocks
}.

(** Whether the lookup of an address finds it in the cache as it stands:
    the test [valid and address.get_tag() == tag] of [get_val] and
    [set_val] on the row [get_block] returns. *)
Definition lookup_hits (address : N) (cpu : CPU.t) : bool :=
  match CPU.decode address cpu with
  | (Ok a, _) =>
      match Cache.get_block a (CPU.mem cpu) with
      | (Ok (_, r), _) =>
          Cache.valid r && bool_decide (Some (Address.get_tag a) = Cache.tag r)
      | _ => false
      end
  | _ => false
  end.

Definition is_load (op : access) : bool :=
  match op with Load _ => true | Store _ _ => false end.

Definition address_of (op : access) : N :=
  match op with Load a => a | Store a _ => a end.

(** Each access of a replay with the result of the lookup just before
    it. *)
Fixpoint lookups (ops : list access) (cpu : CPU.t) : list (access * bool) :=
  match ops with
  | [] => []
  | op :: ops' =>
      (op, lookup_hits (address_of op) cpu) :: lookups ops' (snd (perform op cpu))
  end.

(** How many accesses of a kind (loads or stores) had a lookup of a given
    result (hit or miss). *)
Definition tally (load hit : bool) (l : list (access * bool)) : nat :=
  length (filter (fun x => is_load x.1 = load /\ x.2 = hit) l).

(** An address as the decoder makes them: 32 binary digits or more, and
    no negative offset or index length. *)
Record decoded (addr : Address.t) : Prop := {
  decoded_binary : binary (Address.address addr);
  decoded_length : 32 <= length (Address.address addr);
  decoded_offset_len : (0 <= Address._offset_len addr)%Z;
  decoded_index_len : (0 <= Address._index_len addr)%Z
}.

(** One more hit or miss of a load or of a store on the four counters. *)
Definition bump (load hit : bool) (c : nat * nat * nat * nat) : nat * nat * nat * nat :=
  let '(rh, rm, wh, wm) := c in
  match load, hit with
  | true, true => (rh + 1, rm, wh, wm)
  | true, false => (rh, rm + 1, wh, wm)
  | false, true => (rh, rm, wh + 1, wm)
  | false, false => (rh, rm, wh, wm + 1)
  end.

(** A valid row carries the two datetimes of its install and last
    access. *)
Definition stamped (r : Cache.row) : Prop :=
  Cache.valid r = true ->
  exists t1 t2, Cache.time_in r = Datetime t1 /\ Cache.access r = Datetime t2.

(** The replacement strategy is one of the three the command line lets
    through. *)
Definition known_policy (c : Cache.t) : Prop :=
  Cache.replacement c = Cache.RANDOM \/ Cache.replacement c = Cache.LRU \/
  Cache.replacement c = Cache.FIFO.

(** The ways of a set: [self.blocks[start:end]]. *)
Definition ways (c : Cache.t) (index : nat) : list Cache.row :=
  take (Cache.blocks_per_set c) (drop (index * Cache.blocks_per_set c) (Cache.blocks c)).

(** The row an install writes. *)
Definition installed (tag : str) (data : option loc) (time_in access : stamp) : Cache.row :=
  {| Cache.valid := true; Cache.tag := Some tag; Cache.block := data;
     Cache.time_in := time_in; Cache.access := access |}.

(** [j] is the first position of the smallest entry of [ts]. *)
Definition first_min (ts : list Z) (j : nat) : Prop :=
  exists m, ts !! j = Some m /\
            (forall k t, ts !! k = Some t -> (m <= t)%Z) /\
            (forall k t, ts !! k = Some t -> k < j -> (m < t)%Z).

(** A triple for methods: from a state in [P] the method ends in [Q] when
    it returns and in [E] when it raises. *)
Definition hoare {S A} (P : S -> Prop) (m : M S A) (Q : A -> S -> Prop)
    (E : S -> Prop) : Prop :=
  forall s, P s ->
    match m s with
    | (Ok a, s') => Q a s'
    | (Raise _, s') => E s'
    end.

(** Every valid row of the cache is stamped. *)
Definition all_stamped (w : Cache.world) : Prop :=
  Forall stamped (Cache.blocks (Cache.self w)).

(** What holds of the cache in every state of a run: the geometry of its
    constructor, one of the three policies, and datetimes on every valid
    row. *)
Record sound (ns nb : nat) (w : Cache.world) : Prop := {
  sound_geometry : geometry ns nb (Cache.self w);
  sound_policy : known_policy (Cache.self w);
  sound_stamped : all_stamped w
}.

(** The state of a cache whose geometry the decoder takes for fully
    associative, [n] sets over [n] rows: no row after the first is
    valid. *)
Definition one_row (n : nat) (w : Cache.world) : Prop :=
  geometry n n (Cache.self w) /\
  Forall (fun r => Cache.valid r = false) (drop 1 (Cache.blocks (Cache.self w))).

(** The number a string of binary digits writes, most significant digit
    first. *)
Definition bits (s : str) : N :=
  fold_left (fun acc c => (2 * acc + if decide (c = "1"%char) then 1 else 0)%N) s 0%N.

(** The addresses of the three operands of a workload, in the order of
    the memory. *)
Definition flat (ads : cache_sim.addresses) : list nat :=
  match ads with
  | cache_sim.Vectors a b c => a ++ b ++ c
  | cache_sim.Matrices a b c => concat a ++ concat b ++ concat c
  end.

(** Whether each operand has [n] entries: [n] addresses for a vector, [n]
    rows of [n] addresses for a matrix. *)
Definition operands_of_dimension (n : nat) (ads : cache_sim.addresses) : Prop :=
  match ads with
  | cache_sim.Vectors a b c => length a = n /\ length b = n /\ length c = n
  | cache_sim.Matrices a b c =>
      Forall (fun m => length m = n /\ Forall (fun r => length r = n) m) [a; b; c]
  end.

(** The number of rows of the RAM. *)
Definition capacity (w : Cache.world) : nat := length (RAM.blocks (Cache.ram w)).

(** A cache whose sets have no way: more sets than rows, in the
    associative layout. *)
Definition without_ways (w : Cache.world) : Prop :=
  Cache.blocks_per_set (Cache.self w) = 0 /\ size (Cache.sets (Cache.self w)) <> 1.

(** Every block object has as many words as a block of the cache. *)
Definition sized (w : Cache.world) : Prop :=
  forall l, length (Block.data (Cache.heap w l)) = Cache.block_size (Cache.self w).

(** Every valid row of the cache refers to a block. *)
Definition backed (w : Cache.world) : Prop :=
  Forall (fun r => Cache.valid r = true -> is_Some (Cache.block r))
         (Cache.blocks (Cache.self w)).

(** What the accesses of a run keep: a sound cache of the block size
    [bs], blocks of that size, a block behind every valid row, and a RAM
    of [cap] rows. *)
Record steady (ns nb bs cap : nat) (w : Cache.world) : Prop := {
  steady_sound : sound ns nb w;
  steady_block_size : Cache.block_size (Cache.self w) = bs;
  steady_sized : sized w;
  steady_backed : backed w;
  steady_capacity : capacity w = cap
}.

(** An address that the cache and the RAM can hold: its offset is a word
    of a block, its row a row of the RAM, and its index a row of the
    direct-mapped cache or a set of the associative one. *)
Record reachable (ns nb bs cap : nat) (addr : Address.t) : Prop := {
  reachable_offset :
    exists off, int2 (Address.get_offset addr) = Ok off /\ N.to_nat off < bs;
  reachable_row :
    exists n, int2 (Address.get_tag addr ++ Address.get_index addr) = Ok n /\
              N.to_nat n < cap;
  reachable_index :
    exists index, Cache.index_of addr = Ok index /\
                  (ns = 1 -> index < nb) /\ (ns <> 1 -> index < ns)
}.

(** What the invariants of a run read of the state: everything but the
    counters, the clock and the random generator. *)
Definition core (w : Cache.world) :
    (loc -> Block.t) * RAM.t * (nat * str * gmap nat nat * nat * nat) * list Cache.row :=
  (Cache.heap w, Cache.ram w, shape w, Cache.blocks (Cache.self w)).

(** An access that came back: a load with what it read, a store done. *)
Definition returned (op : access) (out : outcome) : Prop :=
  match op with
  | Load _ => exists v, out = Loaded v
  | Store _ _ => out = Stored
  end.

(** An address below 2^32 whose row, the address over the largest power
    of two in the block size, is one of the [rows] rows of a RAM. *)
Definition in_ram_of (bs rows : nat) (a : N) : Prop :=
  (a < 2 ^ 32)%N /\ (a / 2 ^ N.log2 (N.of_nat bs) < N.of_nat rows)%N.
(** * Theorems *)

(** ** Slices and binary strings *)

Section Slices.
Context {A : Type}.
Implicit Types s : list A.

Lemma slice_prefix s n :
  (0 <= n)%Z -> slice s None (Some n) = take (Z.to_nat n) s.
Proof.
  intros Hn. unfold slice, clamp.
  destruct (Z.ltb_spec n 0); [lia|].
  rewrite Nat.sub_0_r, drop_0.
  destruct (Nat.min_spec (Z.to_nat n) (length s)) as [[? ->]|[? ->]]; [done|].
  by rewrite !take_ge by lia.
Qed.

Lemma slice_middle s a b :
  (0 <= a)%Z -> (0 <= b)%Z ->
  slice s (Some a) (Some (a + b)%Z) = take (Z.to_nat b) (drop (Z.to_nat a) s).
Proof.
  intros Ha Hb. unfold slice, clamp.
  destruct (Z.ltb_spec a 0); [lia|].
  destruct (Z.ltb_spec (a + b) 0); [lia|].
  destruct (decide (Z.to_nat a <= length s)) as [Hle|Hgt].
  - rewrite (Nat.min_l (Z.to_nat a)) by lia.
    destruct (decide (Z.to_nat (a + b) <= length s)).
    + rewrite Nat.min_l by lia. f_equal. lia.
    + rewrite Nat.min_r by lia.
      rewrite !take_ge; [done| |]; rewrite length_drop; lia.
  - rewrite !drop_ge by lia. by rewrite !take_nil.
Qed.

Lemma slice_suffix s n :
  (0 < n)%Z -> (n <= Z.of_nat (length s))%Z ->
  slice s (Some (- n)%Z) None = drop (length s - Z.to_nat n) s.
Proof.
  intros Hn Hle. unfold slice, clamp.
  destruct (Z.ltb_spec (- n) 0); [|lia].
  replace (Z.to_nat (Z.of_nat (length s) + - n)) with (length s - Z.to_nat n) by lia.
  apply take_ge. rewrite length_drop. lia.
Qed.

Lemma slice_length_le s a n :
  (0 <= n)%Z -> length (slice s (Some a) (Some (a + n)%Z)) <= Z.to_nat n.
Proof.
  intros Hn. unfold slice, clamp. rewrite length_take, length_drop.
  destruct (Z.ltb_spec a 0), (Z.ltb_spec (a + n) 0); lia.
Qed.

Lemma slice_Forall (P : A -> Prop) s a b :
  Forall P s -> Forall P (slice s a b).
Proof. intros H. unfold slice. by apply Forall_take, Forall_drop. Qed.

Lemma slice_nat s (a b : nat) :
  slice s (Some (Z.of_nat a)) (Some (Z.of_nat (a + b))) = take b (drop a s).
Proof.
  rewrite Nat2Z.inj_add, slice_middle by lia. by rewrite !Nat2Z.id.
Qed.

End Slices.

Lemma bin_pos_length p acc : length (bin_pos p acc) = Pos.size_nat p + length acc.
Proof.
  revert acc. induction p as [p IH|p IH|]; intros acc; simpl; [| |done];
    rewrite IH; simpl; lia.
Qed.

Lemma bin_pos_binary p acc : binary acc -> binary (bin_pos p acc).
Proof.
  revert acc. induction p as [p IH|p IH|]; intros acc Hacc; simpl.
  - apply IH. constructor; auto.
  - apply IH. constructor; auto.
  - constructor; auto.
Qed.

Lemma size_nat_bound p n : (Npos p < 2 ^ N.of_nat n)%N -> Pos.size_nat p <= n.
Proof.
  revert n. induction p as [p IH|p IH|]; intros [|n] H; simpl in *.
  - rewrite N.pow_0_r in H. lia.
  - apply le_n_S, IH. rewrite Nat2N.inj_succ, N.pow_succ_r' in H. lia.
  - rewrite N.pow_0_r in H. lia.
  - apply le_n_S, IH. rewrite Nat2N.inj_succ, N.pow_succ_r' in H. lia.
  - rewrite N.pow_0_r in H. lia.
  - lia.
Qed.

Lemma int2_digits_zeros k acc s :
  int2_digits acc (replicate k "0"%char ++ s) = int2_digits (2 ^ N.of_nat k * acc)%N s.
Proof.
  revert acc. induction k as [|k IH]; intros acc.
  - simpl. f_equal. rewrite N.pow_0_r. lia.
  - cbn [replicate app int2_digits]. rewrite decide_True by done. rewrite IH.
    f_equal. rewrite Nat2N.inj_succ, N.pow_succ_r'. lia.
Qed.

Lemma int2_digits_bin_pos p acc rest :
  int2_digits acc (bin_pos p rest) =
  int2_digits (2 ^ N.of_nat (Pos.size_nat p) * acc + Npos p)%N rest.
Proof.
  revert acc rest. induction p as [p IH|p IH|]; intros acc rest.
  - cbn [bin_pos Pos.size_nat]. rewrite IH. cbn [int2_digits].
    rewrite decide_False by done. rewrite decide_True by done.
    f_equal. rewrite Nat2N.inj_succ, N.pow_succ_r'. lia.
  - cbn [bin_pos Pos.size_nat]. rewrite IH. cbn [int2_digits].
    rewrite decide_True by done.
    f_equal. rewrite Nat2N.inj_succ, N.pow_succ_r'. lia.
  - cbn [bin_pos Pos.size_nat int2_digits]. rewrite decide_False by done.
    rewrite decide_True by done. f_equal; simpl N.of_nat; lia.
Qed.

Lemma int2_nonempty s : s <> [] -> int2 s = int2_digits 0%N s.
Proof. by destruct s. Qed.

Lemma get_binary_length a :
  (a < 2 ^ 32)%N -> length (Address._get_binary a) = 32.
Proof.
  intros Ha. unfold Address._get_binary. rewrite length_app, length_replicate.
  assert (length (bin a) <= 32); [|lia].
  destruct a as [|p]; simpl; [lia|].
  rewrite bin_pos_length. simpl. rewrite Nat.add_0_r. by apply size_nat_bound.
Qed.

Lemma get_binary_length_ge a : 32 <= length (Address._get_binary a).
Proof. unfold Address._get_binary. rewrite length_app, length_replicate. lia. Qed.

Lemma get_binary_binary a : binary (Address._get_binary a).
Proof.
  unfold Address._get_binary. apply Forall_app. split.
  - apply Forall_replicate. by left.
  - destruct a; simpl; [repeat constructor; by left|]. apply bin_pos_binary. constructor.
Qed.

Lemma get_binary_value a : int2 (Address._get_binary a) = Ok a.
Proof.
  rewrite int2_nonempty.
  - unfold Address._get_binary. rewrite int2_digits_zeros.
    destruct a as [|p]; simpl bin.
    + by cbn.
    + rewrite int2_digits_bin_pos. simpl. f_equal. lia.
  - intros E. pose proof (get_binary_length_ge a) as H. rewrite E in H. simpl in H. lia.
Qed.

(** ** The address decoder *)

Lemma log2_int_pos n : (n <> 0)%N -> log2_int n = Ok (Z.of_N (N.log2 n)).
Proof. intros H. unfold log2_int. by destruct (N.eqb_spec n 0). Qed.

Lemma power_of_two_pos n : power_of_two n -> (n <> 0)%N.
Proof. intros [k ->]. apply N.pow_nonzero. lia. Qed.

Lemma get_index_len_ok sets entries :
  (sets <> 0)%N -> (entries <> 0)%N ->
  exists i, Address._get_index_len sets entries = Ok i /\ (0 <= i)%Z.
Proof.
  intros Hs He. unfold Address._get_index_len.
  destruct (sets =? 1)%N; [|destruct (sets =? entries)%N].
  - rewrite log2_int_pos by done. eexists; split; [done|lia].
  - eexists; split; [done|lia].
  - rewrite log2_int_pos by done. eexists; split; [done|lia].
Qed.

(** C4 as stated fails: with 2^20 blocks of 2^20 bytes in a direct-mapped
    cache every condition of the claim holds, the offset and the index take
    40 bits, the tag length is -8, and the three slices of address 0 make a
    string of 44 characters. *)
Lemma address_partition_fails_beyond_32_bits :
  valid_configuration (2 ^ 20) (2 ^ 20) 1 /\ (0 < 2 ^ 32)%N /\
  exists addr,
    Address.__init__ 0 (2 ^ 20) (2 ^ 20) 1 = Ok addr /\
    Address.get_tag addr ++ Address.get_index addr ++ Address.get_offset addr
      <> Address.address addr.
Proof.
  split; [|split; [done|]].
  - repeat split; try (by exists 20%N); try done.
    + by exists 0%N.
    + apply N.divide_1_l.
  - eexists. split; [vm_compute; reflexivity|].
    intros H. apply (f_equal length) in H. vm_compute in H. discriminate.
Qed.

(** C4, amended: in every valid configuration whose offset and index fit in
    32 bits, and for every address below 2^32, the decoder succeeds, the
    three widths add up to 32, the address string is the 32-bit binary
    representation of the address, and tag, index and offset concatenate
    back to it. *)
Theorem address_partition (a block_size entries sets : N) :
  valid_configuration block_size entries sets ->
  fits_32_bits block_size entries sets ->
  (a < 2 ^ 32)%N ->
  exists addr,
    Address.__init__ a block_size entries sets = Ok addr /\
    (Address._offset_len addr + Address._index_len addr + Address._tag_len addr = 32)%Z /\
    length (Address.address addr) = 32 /\
    int2 (Address.address addr) = Ok a /\
    Address.get_tag addr ++ Address.get_index addr ++ Address.get_offset addr
      = Address.address addr.
Proof.
  intros (Hb & He & Hs & Hb2 & _) (o & i & Ho & Hi & Hfit) Ha.
  assert (0 <= i)%Z as Hi0.
  { destruct (get_index_len_ok sets entries) as (i' & Hi' & ?);
      [by apply power_of_two_pos..|]. congruence. }
  assert (1 <= o)%Z as Ho1.
  { rewrite log2_int_pos in Ho by lia. injection Ho as <-.
    pose proof (N.log2_le_mono 2 block_size Hb2) as H. change (N.log2 2) with 1%N in H. lia. }
  unfold Address.__init__. rewrite Ho, Hi. eexists. split; [done|].
  pose proof (get_binary_length a Ha) as Hlen.
  split; [simpl; lia|]. split; [done|]. split; [apply get_binary_value|].
  unfold Address.get_tag, Address.get_index, Address.get_offset. simpl.
  set (s := Address._get_binary a) in *.
  rewrite slice_prefix, slice_middle, slice_suffix by lia.
  rewrite Hlen.
  replace (32 - Z.to_nat o) with (Z.to_nat (32 - o - i) + Z.to_nat i) by lia.
  rewrite <- drop_drop, take_drop. apply take_drop.
Qed.

(** The amended C4 at a two-way cache of 32 blocks of 64 bytes and
    address 1000. *)
Lemma address_partition_witness :
  exists addr,
    Address.__init__ 1000 64 32 16 = Ok addr /\
    (Address._offset_len addr + Address._index_len addr + Address._tag_len addr = 32)%Z /\
    length (Address.address addr) = 32 /\
    int2 (Address.address addr) = Ok 1000%N /\
    Address.get_tag addr ++ Address.get_index addr ++ Address.get_offset addr
      = Address.address addr.
Proof.
  apply (address_partition 1000 64 32 16).
  - repeat split.
    + by exists 6%N.
    + by exists 5%N.
    + by exists 4%N.
    + lia.
    + by exists 2%N.
  - exists 6%Z, 4%Z. repeat split; [vm_compute; reflexivity..|lia].
  - reflexivity.
Defined.

(** ** The backing store *)

(** C7 as stated fails: [main] sizes the RAM to the workload, not to the
    decoded address space.  For the vector workload of dimension 1 with
    blocks of 2 bytes the RAM has 12 rows, and the tag and index of
    address 24 name row 12. *)
Lemma ram_set_block_beyond_capacity :
  cache_sim.blocks_in_ram (cache_sim.ram_size false 1) 2 = Ok 12 /\
  exists addr,
    Address.__init__ 24 2 4 1 = Ok addr /\
    int2 (Address.get_tag addr ++ Address.get_index addr) = Ok 12%N /\
    forall b,
      fst (RAM.set_block (Address.get_tag addr) (Address.get_index addr) b
                         (RAM.__init__ 12 1)) = Raise IndexError.
Proof.
  split; [reflexivity|]. eexists. split; [vm_compute; reflexivity|].
  split; [vm_compute; reflexivity|]. intros b. vm_compute. reflexivity.
Qed.

(** C7, amended: for every tag and index whose number [tag‖index] is below
    the number of rows the RAM was constructed with, [set_block] returns,
    marks that row valid and stores the block in it, and leaves every
    other row alone. *)
Theorem ram_set_block_in_range (ram : RAM.t) (tag index : str) (data : option loc) (n : N) :
  int2 (tag ++ index) = Ok n ->
  N.to_nat n < length (RAM.blocks ram) ->
  exists ram',
    RAM.set_block tag index data ram = (Ok tt, ram') /\
    RAM.blocks ram' !! N.to_nat n = Some {| RAM.valid := true; RAM.block := data |} /\
    length (RAM.blocks ram') = length (RAM.blocks ram) /\
    forall j, j <> N.to_nat n -> RAM.blocks ram' !! j = RAM.blocks ram !! j.
Proof.
  intros Hn Hlt. unfold RAM.set_block, bind, lift, gets, modify. rewrite Hn.
  rewrite decide_True by done. eexists. split; [reflexivity|]. simpl.
  split; [by apply list_lookup_insert_eq|].
  split; [apply length_insert|].
  intros j Hj. by apply list_lookup_insert_ne.
Qed.

(** The amended C7 at row 5 of a RAM of 8 rows. *)
Lemma ram_set_block_in_range_witness :
  exists ram',
    RAM.set_block (list_ascii_of_string "1") (list_ascii_of_string "01") (Some 7)
                  (RAM.__init__ 8 1) = (Ok tt, ram') /\
    RAM.blocks ram' !! 5 = Some {| RAM.valid := true; RAM.block := Some 7 |} /\
    length (RAM.blocks ram') = 8 /\
    forall j, j <> 5 -> RAM.blocks ram' !! j = RAM.blocks (RAM.__init__ 8 1) !! j.
Proof.
  apply (ram_set_block_in_range (RAM.__init__ 8 1) (list_ascii_of_string "1")
           (list_ascii_of_string "01") (Some 7) 5%N).
  - reflexivity.
  - simpl. lia.
Defined.

(** ** The defects, at concrete inputs *)

(** C1 at a failing input.  Two sets of two ways, LRU.  Three stores to
    set 0 leave the block of address 0 evicted from the cache and valid in
    the RAM with 7.0 at offset 0.  The load of address 0 misses, installs
    nothing and returns [None]. *)
Lemma read_miss_in_associative_cache_installs_nothing :
  exists cpu0 cpu1 cpu2 addr b,
    CPU.__init__ 2 2 4 16 Cache.LRU ticking draw_zero = Ok cpu0 /\
    replay [Store 0 (Float 7); Store 4 (Float 8); Store 8 (Float 9)] cpu0
      = ([Stored; Stored; Stored], cpu1) /\
    fst (CPU.decode 0 cpu1) = Ok addr /\
    fst (Cache.get_block addr (CPU.mem cpu1)) = Ok (None, Cache.no_row) /\
    ram_row (CPU.mem cpu1) addr = Some {| RAM.valid := true; RAM.block := b |} /\
    word_at (CPU.mem cpu1) b 0 = Some (Float 7) /\
    CPU.load 0 cpu1 = (Ok None, cpu2) /\
    Cache.blocks (CPU.cache cpu2) = Cache.blocks (CPU.cache cpu1).
Proof.
  do 5 eexists. split; [reflexivity|]. split; [vm_compute; reflexivity|].
  split; [vm_compute; reflexivity|]. split; [vm_compute; reflexivity|].
  split; [vm_compute; reflexivity|]. split; [vm_compute; reflexivity|].
  split; [vm_compute; reflexivity|]. vm_compute; reflexivity.
Qed.

(** C2 at a failing input.  After a store of 7.0 to address 0 the RAM row
    of the address is valid and holds 7.0, and the read of address 0
    through a freshly constructed two-way associative cache in front of
    that RAM returns [None]. *)
Lemma cold_reread_in_associative_cache_returns_none :
  exists cpu0 cpu1 addr b w,
    CPU.__init__ 2 2 4 16 Cache.LRU ticking draw_zero = Ok cpu0 /\
    CPU.store 0 (Float 7) cpu0 = (Ok tt, cpu1) /\
    fst (CPU.decode 0 cpu1) = Ok addr /\
    ram_row (CPU.mem cpu1) addr = Some {| RAM.valid := true; RAM.block := b |} /\
    word_at (CPU.mem cpu1) b 0 = Some (Float 7) /\
    with_fresh_cache 2 2 4 Cache.LRU (CPU.mem cpu1) = Ok w /\
    fst (Cache.get_val addr w) = Ok None.
Proof.
  do 5 eexists. split; [reflexivity|]. split; [vm_compute; reflexivity|].
  split; [vm_compute; reflexivity|]. split; [vm_compute; reflexivity|].
  split; [vm_compute; reflexivity|]. split; [vm_compute; reflexivity|].
  vm_compute; reflexivity.
Qed.

(** C3 at a failing input.  In a direct-mapped cache that has seen no
    access, with nothing valid in the cache or in the RAM, the load of
    address 0 raises [AttributeError]; it leaves row 0 of the cache valid
    with no block. *)
Lemma unwritten_read_in_direct_mapped_cache_raises :
  exists cpu0 cpu1,
    CPU.__init__ 2 1 4 16 Cache.LRU ticking draw_zero = Ok cpu0 /\
    Forall (fun r => Cache.valid r = false) (Cache.blocks (CPU.cache cpu0)) /\
    Forall (fun r => RAM.valid r = false) (RAM.blocks (CPU.ram cpu0)) /\
    CPU.load 0 cpu0 = (Raise AttributeError, cpu1) /\
    (exists r, Cache.blocks (CPU.cache cpu1) !! 0 = Some r /\
               Cache.valid r = true /\ Cache.block r = None).
Proof.
  do 2 eexists. split; [reflexivity|].
  split; [vm_compute; repeat constructor|].
  split; [vm_compute; repeat constructor|].
  split; [vm_compute; reflexivity|].
  eexists. split; [vm_compute; reflexivity|]. split; reflexivity.
Qed.

(** C5 at a failing input.  Under LRU and under FIFO, an install into the
    full set 1 does not evict the way of set 1 with the smallest
    timestamp: the index [np.argmin] returns is relative to the set and is
    used as a row of the whole array, so row 0 of set 0 is overwritten. *)
Lemma eviction_from_second_set_overwrites_first_set :
  misdirected_eviction Cache.LRU /\ misdirected_eviction Cache.FIFO.
Proof.
  split; unfold misdirected_eviction; do 7 eexists;
    (split; [reflexivity|]); repeat (split; [vm_compute; reflexivity|]);
    vm_compute; reflexivity.
Qed.

(** C8 at a failing input.  A run without accesses (a workload of
    dimension 0) ends with both read counters at zero, and the report
    raises [ZeroDivisionError] at the read miss rate, after the four lines
    before it. *)
Lemma report_without_reads_divides_by_zero :
  exists cpu out,
    CPU.__init__ 64 2 32 0 Cache.LRU ticking draw_zero = Ok cpu /\
    Cache.read_hits (CPU.cache cpu) + Cache.read_misses (CPU.cache cpu) = 0 /\
    cache_sim.print_results cpu [] = (Raise ZeroDivisionError, out) /\
    length out = 4.
Proof.
  do 2 eexists. split; [reflexivity|]. split; [reflexivity|].
  split; [vm_compute; reflexivity|]. reflexivity.
Qed.

(** C9 as stated fails in the direct-mapped case.  A store to address 0 at
    time 0 fills row 0; a store to address 8, same index and another tag,
    replaces it at time 1: the last-access time of the row is 1 and its
    insertion time is still 0. *)
Lemma direct_mapped_replacement_keeps_insertion_time :
  exists cpu0 cpu1 cpu2 old new,
    CPU.__init__ 2 1 4 16 Cache.LRU ticking draw_zero = Ok cpu0 /\
    CPU.store 0 (Float 1) cpu0 = (Ok tt, cpu1) /\
    Cache.blocks (CPU.cache cpu1) !! 0 = Some old /\
    Cache.valid old = true /\
    Cache.wall (CPU.mem cpu1) (Cache.ticks (CPU.mem cpu1)) = 1%Z /\
    CPU.store 8 (Float 2) cpu1 = (Ok tt, cpu2) /\
    Cache.blocks (CPU.cache cpu2) !! 0 = Some new /\
    Cache.tag new <> Cache.tag old /\
    Cache.block new <> Cache.block old /\
    Cache.access new = Datetime 1 /\
    Cache.time_in new = Datetime 0 /\
    Cache.time_in new <> Datetime 1.
Proof.
  do 5 eexists. split; [reflexivity|].
  repeat (split; [vm_compute; first [reflexivity | discriminate]|]).
  vm_compute; discriminate.
Qed.

(** C10 at a failing input.  Two sets and two blocks, the geometry the
    decoder takes for fully associative.  After two stores row 0 holds the
    tag of address 2; the load of address 0, another tag, whose block is
    valid in the RAM, returns [None] and replaces nothing. *)
Lemma read_of_other_tag_in_fully_associative_cache_replaces_nothing :
  exists cpu0 cpu1 cpu2 addr r b,
    CPU.__init__ 2 2 2 16 Cache.FIFO ticking draw_zero = Ok cpu0 /\
    replay [Store 0 (Float 1); Store 2 (Float 2)] cpu0 = ([Stored; Stored], cpu1) /\
    fst (CPU.decode 0 cpu1) = Ok addr /\
    Address._index_len addr = 0%Z /\
    Cache.blocks (CPU.cache cpu1) !! 0 = Some r /\
    Cache.valid r = true /\
    Cache.tag r <> Some (Address.get_tag addr) /\
    ram_row (CPU.mem cpu1) addr = Some {| RAM.valid := true; RAM.block := b |} /\
    CPU.load 0 cpu1 = (Ok None, cpu2) /\
    Cache.blocks (CPU.cache cpu2) = Cache.blocks (CPU.cache cpu1).
Proof.
  do 6 eexists. split; [reflexivity|].
  repeat (split; [vm_compute; first [reflexivity | discriminate]|]).
  vm_compute; reflexivity.
Qed.

(** ** Reasoning about methods *)

Lemma bind_Ok {S A B} (m : M S A) (k : A -> M S B) s a s' :
  m s = (Ok a, s') -> bind m k s = k a s'.
Proof. intros H. unfold bind. by rewrite H. Qed.

Lemma bind_Raise {S A B} (m : M S A) (k : A -> M S B) s e s' :
  m s = (Raise e, s') -> bind m k s = (Raise e, s').
Proof. intros H. unfold bind. by rewrite H. Qed.

Lemma preserves_ret {S A X} (f : S -> X) (a : A) : preserves f (ret a).
Proof. done. Qed.

Lemma preserves_raise {S A X} (f : S -> X) e : preserves f (@raise S A e).
Proof. done. Qed.

Lemma preserves_lift {S A X} (f : S -> X) (r : result A) : preserves f (lift r).
Proof. done. Qed.

Lemma preserves_gets {S A X} (f : S -> X) (g : S -> A) : preserves f (gets g).
Proof. done. Qed.

Lemma preserves_bind {S A B X} (f : S -> X) (m : M S A) (k : A -> M S B) :
  preserves f m -> (forall a, preserves f (k a)) -> preserves f (bind m k).
Proof.
  intros Hm Hk s. unfold bind. specialize (Hm s).
  destruct (m s) as [[a|e] s']; simpl in *; [|done].
  by rewrite Hk.
Qed.

Create HintDb preserves.

#[local] Hint Resolve preserves_ret preserves_raise preserves_lift preserves_gets : preserves.

(** Splits a method along its binds and branches; the leaves are closed
    with the lemmas of the hint database. *)
Ltac preserve :=
  repeat match goal with
    | |- preserves _ (bind _ _) => apply preserves_bind; [|intros ?]
    | |- preserves _ (match ?x with _ => _ end) => destruct x
    | |- preserves _ _ => progress eauto 3 with preserves
    end.

(** The methods that do not touch the cache object itself. *)

Lemma self_now : preserves Cache.self Cache.now.
Proof. done. Qed.

Lemma self_choice a b : preserves Cache.self (Cache.choice a b).
Proof. intros w. unfold Cache.choice. by destruct (decide _). Qed.

Lemma self_on_ram {A} (m : M RAM.t A) : preserves Cache.self (Cache.on_ram m).
Proof. intros w. unfold Cache.on_ram. by destruct (m _). Qed.

Lemma self_on_block {A} b (m : M Block.t A) : preserves Cache.self (Cache.on_block b m).
Proof. intros w. unfold Cache.on_block. destruct b; [|done]. by destruct (m _). Qed.

Lemma self_new_block n : preserves Cache.self (Cache.new_block n).
Proof. done. Qed.

Lemma data_getitem_pure b n : preserves id (Cache.data_getitem b n).
Proof. unfold Cache.data_getitem. preserve. Qed.

Lemma self_data_getitem b n : preserves Cache.self (Cache.data_getitem b n).
Proof. intros w. apply (f_equal Cache.self (data_getitem_pure b n w)). Qed.

Lemma preserves_counters_of_self {A} (m : M Cache.world A) :
  preserves Cache.self m -> preserves counters m.
Proof. intros H w. unfold counters. by rewrite H. Qed.

Lemma preserves_shape_of_self {A} (m : M Cache.world A) :
  preserves Cache.self m -> preserves shape m.
Proof. intros H w. unfold shape. by rewrite H. Qed.

Lemma preserves_counters_setitem ix r : preserves counters (Cache.blocks_setitem ix r).
Proof.
  intros w. unfold Cache.blocks_setitem, bind, gets, modify, raise.
  destruct ix; [destruct (decide _)|]; done.
Qed.

Lemma preserves_shape_setitem ix r : preserves shape (Cache.blocks_setitem ix r).
Proof.
  intros w. unfold Cache.blocks_setitem, bind, gets, modify, raise, shape.
  destruct ix; [destruct (decide _)|]; simpl; try done.
  - by rewrite length_insert.
  - by rewrite length_map.
Qed.

Lemma preserves_shape_count_read_hit : preserves shape Cache.count_read_hit.
Proof. done. Qed.
Lemma preserves_shape_count_read_miss : preserves shape Cache.count_read_miss.
Proof. done. Qed.
Lemma preserves_shape_count_write_hit : preserves shape Cache.count_write_hit.
Proof. done. Qed.
Lemma preserves_shape_count_write_miss : preserves shape Cache.count_write_miss.
Proof. done. Qed.

#[local] Hint Resolve self_now self_choice self_on_ram self_on_block self_new_block
  self_data_getitem preserves_counters_of_self preserves_shape_of_self
  preserves_counters_setitem preserves_shape_setitem
  preserves_shape_count_read_hit preserves_shape_count_read_miss
  preserves_shape_count_write_hit preserves_shape_count_write_miss : preserves.

Lemma get_block_pure address : preserves id (Cache.get_block address).
Proof. unfold Cache.get_block. preserve. Qed.

Lemma self_get_block address : preserves Cache.self (Cache.get_block address).
Proof. intros w. apply (f_equal Cache.self (get_block_pure address w)). Qed.

#[local] Hint Resolve self_get_block : preserves.

Lemma preserves_counters_replace tag index data :
  preserves counters (Cache.replace tag index data).
Proof. unfold Cache.replace. preserve. Qed.

Lemma preserves_shape_replace tag index data :
  preserves shape (Cache.replace tag index data).
Proof. unfold Cache.replace. preserve. Qed.

#[local] Hint Resolve preserves_counters_replace preserves_shape_replace : preserves.

Lemma preserves_counters_set_block address data :
  preserves counters (Cache.set_block address data).
Proof. unfold Cache.set_block. preserve. Qed.

Lemma preserves_shape_set_block address data :
  preserves shape (Cache.set_block address data).
Proof. unfold Cache.set_block. preserve. Qed.

#[local] Hint Resolve preserves_counters_set_block preserves_shape_set_block : preserves.

Lemma preserves_shape_get_val address : preserves shape (Cache.get_val address).
Proof. unfold Cache.get_val. preserve. Qed.

Lemma preserves_shape_set_val address val : preserves shape (Cache.set_val address val).
Proof. unfold Cache.set_val. preserve. Qed.

(** ** The geometry of the cache *)

Lemma get_sets_loop_lookup n a ix bps (m : gmap nat nat) i :
  _get_sets_loop (seq a n) ix bps m !! i =
  if decide (a <= i < a + n) then Some (ix + (i - a) * bps) else m !! i.
Proof.
  revert a ix m. induction n as [|n IH]; intros a ix m; simpl.
  - rewrite decide_False by lia. done.
  - rewrite IH. destruct (decide (i = a)) as [->|Hne].
    + rewrite decide_False by lia. rewrite decide_True by lia.
      rewrite lookup_insert_eq. f_equal. lia.
    + rewrite lookup_insert_ne by done.
      destruct (decide (S a <= i < S a + n)).
      * rewrite decide_True by lia. f_equal.
        replace (i - a) with (S (i - S a)) by lia. simpl. lia.
      * rewrite decide_False by lia. done.
Qed.

Lemma get_sets_loop_size n a ix bps (m : gmap nat nat) :
  (forall i, a <= i -> m !! i = None) ->
  size (_get_sets_loop (seq a n) ix bps m) = n + size m.
Proof.
  revert a ix m. induction n as [|n IH]; intros a ix m Hm; simpl; [done|].
  rewrite IH.
  - rewrite map_size_insert_None by (apply Hm; lia). lia.
  - intros i Hi. rewrite lookup_insert_ne by lia. apply Hm. lia.
Qed.

Lemma init_geometry block_size num_sets num_blocks replacement b c :
  Cache.__init__ block_size num_sets num_blocks replacement b = Ok c ->
  geometry num_sets num_blocks c /\ Cache.block_size c = block_size /\
  Cache.replacement c = replacement.
Proof.
  unfold Cache.__init__, Cache._get_sets.
  destruct (decide (num_sets = 0)) as [|Hns]; [done|].
  intros [= <-]. split; [|done]. split; simpl.
  - lia.
  - rewrite get_sets_loop_size by (intros; apply lookup_empty).
    rewrite map_size_empty. lia.
  - intros i. rewrite get_sets_loop_lookup, lookup_empty.
    destruct (decide (i < num_sets)).
    + rewrite decide_True by lia. f_equal. lia.
    + rewrite decide_False by lia. done.
  - done.
  - apply length_replicate.
Qed.

Lemma geometry_shape ns nb w w' :
  shape w' = shape w -> geometry ns nb (Cache.self w) -> geometry ns nb (Cache.self w').
Proof.
  unfold shape. intros [= Hbs Hrep Hsets Hbps Hlen] [H1 H2 H3 H4 H5].
  split; rewrite ?Hsets, ?Hbps, ?Hlen; done.
Qed.

(** ** Decoded addresses *)

Lemma int2_digits_binary s acc :
  binary s ->
  exists n, int2_digits acc s = Ok n /\
            (n < (acc + 1) * 2 ^ N.of_nat (length s))%N.
Proof.
  intros Hs. revert acc. induction Hs as [|c s [-> | ->] _ IH]; intros acc.
  - exists acc. split; [done|]. simpl. lia.
  - cbn [int2_digits length]. rewrite decide_True by done.
    destruct (IH (2 * acc)%N) as (n & -> & Hn). exists n. split; [done|].
    rewrite Nat2N.inj_succ, N.pow_succ_r'. nia.
  - cbn [int2_digits length]. rewrite decide_False by done. rewrite decide_True by done.
    destruct (IH (2 * acc + 1)%N) as (n & -> & Hn). exists n. split; [done|].
    rewrite Nat2N.inj_succ, N.pow_succ_r'. nia.
Qed.

Lemma init_decoded a block_size entries sets addr :
  Address.__init__ a block_size entries sets = Ok addr -> decoded addr.
Proof.
  unfold Address.__init__, Address._get_index_len, log2_int.
  destruct (block_size =? 0)%N; [done|].
  destruct (sets =? 1)%N; [destruct (entries =? 0)%N; [done|]|
    destruct (sets =? entries)%N; [|destruct (sets =? 0)%N; [done|]]];
    intros [= <-]; split; simpl;
    auto using get_binary_binary, get_binary_length_ge; lia.
Qed.

Lemma offset_of_decoded addr :
  decoded addr -> exists n, int2 (Address.get_offset addr) = Ok n.
Proof.
  intros [Hbin Hlen Ho _]. unfold Address.get_offset.
  set (s := Address.address addr) in *. set (o := Address._offset_len addr) in *.
  assert (0 < length (slice s (Some (- o)%Z) None)) as Hpos.
  { unfold slice, clamp. rewrite length_take, length_drop.
    destruct (Z.ltb_spec (- o) 0); lia. }
  rewrite int2_nonempty by (intros E; rewrite E in Hpos; simpl in Hpos; lia).
  destruct (int2_digits_binary (slice s (Some (- o)%Z) None) 0) as (n & Hn & _).
  { by apply slice_Forall. }
  eauto.
Qed.

Lemma index_of_decoded addr :
  decoded addr ->
  exists index, Cache.index_of addr = Ok index /\
                (N.of_nat index < 2 ^ Z.to_N (Address._index_len addr))%N.
Proof.
  intros [Hbin Hlen _ Hi]. unfold Cache.index_of, Address.get_index.
  set (s := Address.address addr) in *. set (i := Address._index_len addr) in *.
  set (t := Address._tag_len addr).
  pose proof (slice_length_le s t i Hi) as Hle.
  assert (binary (slice s (Some t) (Some (t + i)%Z))) as Hb by by apply slice_Forall.
  destruct (slice s (Some t) (Some (t + i)%Z)) as [|c idx] eqn:E.
  - exists 0. split; [done|]. simpl. apply N.neq_0_lt_0, N.pow_nonzero. lia.
  - rewrite int2_nonempty by done.
    destruct (int2_digits_binary (c :: idx) 0 Hb) as (n & -> & Hn).
    exists (N.to_nat n). split; [done|]. rewrite N2Nat.id.
    eapply N.lt_le_trans; [apply Hn|]. rewrite N.mul_1_l.
    apply N.pow_le_mono_r; lia.
Qed.

(** ** Hit and miss accounting *)

Lemma cpu_decode_ok ns nb cpu a :
  geometry ns nb (CPU.cache cpu) ->
  0 < Cache.block_size (CPU.cache cpu) -> 0 < nb ->
  exists addr index,
    CPU.decode a cpu = (Ok addr, cpu) /\ decoded addr /\
    Cache.index_of addr = Ok index /\
    (ns = 1 -> index < nb) /\ (ns <> 1 -> index < ns).
Proof.
  intros [Hns Hsize _ _ Hlen] Hbs Hnb. unfold CPU.decode.
  rewrite Hsize, Hlen.
  destruct (Address.__init__ a (N.of_nat (Cache.block_size (CPU.cache cpu)))
              (N.of_nat nb) (N.of_nat ns)) as [addr|e] eqn:E.
  - pose proof (init_decoded _ _ _ _ _ E) as Hd.
    destruct (index_of_decoded addr Hd) as (index & Hix & Hlt).
    exists addr, index. split; [done|]. split; [done|]. split; [done|].
    revert E Hlt. unfold Address.__init__, Address._get_index_len, log2_int.
    destruct (N.of_nat (Cache.block_size (CPU.cache cpu)) =? 0)%N; [done|].
    destruct (N.eqb_spec (N.of_nat ns) 1) as [H1|H1].
    + destruct (N.eqb_spec (N.of_nat nb) 0); [done|]. intros [= <-]. simpl.
      rewrite N2Z.id. intros Hlt.
      pose proof (N.log2_spec (N.of_nat nb)) as Hlog. split; lia.
    + destruct (N.eqb_spec (N.of_nat ns) (N.of_nat nb)) as [H2|H2].
      * intros [= <-]. simpl. intros Hlt. split; lia.
      * destruct (N.eqb_spec (N.of_nat ns) 0); [done|]. intros [= <-]. simpl.
        rewrite N2Z.id. intros Hlt.
        pose proof (N.log2_spec (N.of_nat ns)) as Hlog. split; lia.
  - exfalso. revert E. unfold Address.__init__, Address._get_index_len, log2_int.
    destruct (N.eqb_spec (N.of_nat (Cache.block_size (CPU.cache cpu))) 0); [lia|].
    destruct (N.of_nat ns =? 1)%N.
    + destruct (N.eqb_spec (N.of_nat nb) 0); [lia|done].
    + destruct (N.of_nat ns =? N.of_nat nb)%N; [done|].
      destruct (N.eqb_spec (N.of_nat ns) 0); [lia|done].
Qed.

Lemma get_block_ok ns nb w addr index :
  geometry ns nb (Cache.self w) ->
  Cache.index_of addr = Ok index ->
  (ns = 1 -> index < nb) -> (ns <> 1 -> index < ns) ->
  exists ix r, Cache.get_block addr w = (Ok (ix, r), w).
Proof.
  intros [Hns Hsize Hsets _ Hlen] Hix H1 H2.
  unfold Cache.get_block, bind, lift, gets, ret. rewrite Hix, Hsize.
  destruct (decide (ns = 1)) as [E|E].
  - destruct (lookup_lt_is_Some_2 (Cache.blocks (Cache.self w)) index) as [r ->];
      [rewrite Hlen; auto|]. eauto.
  - rewrite Hsets, decide_True by auto.
    destruct (list_find _ _) as [[ix r]|]; eauto.
Qed.

Lemma get_val_counts addr w off ix r :
  int2 (Address.get_offset addr) = Ok off ->
  Cache.get_block addr w = (Ok (ix, r), w) ->
  counters (snd (Cache.get_val addr w)) =
  bump true (Cache.valid r && bool_decide (Some (Address.get_tag addr) = Cache.tag r))
       (counters w).
Proof.
  intros Hoff Hblock. unfold Cache.get_val.
  rewrite (bind_Ok _ _ w off w) by (unfold lift; by rewrite Hoff).
  rewrite (bind_Ok _ _ _ _ _ Hblock).
  destruct (Cache.valid r && _).
  - erewrite bind_Ok by reflexivity.
    match goal with |- counters (snd (?m ?s)) = _ =>
      assert (preserves counters m) as -> by preserve end.
    done.
  - erewrite bind_Ok by reflexivity.
    match goal with |- counters (snd (?m ?s)) = _ =>
      assert (preserves counters m) as -> by preserve end.
    done.
Qed.

Lemma set_val_counts addr val w off ix r :
  int2 (Address.get_offset addr) = Ok off ->
  Cache.get_block addr w = (Ok (ix, r), w) ->
  counters (snd (Cache.set_val addr val w)) =
  bump false (Cache.valid r && bool_decide (Some (Address.get_tag addr) = Cache.tag r))
       (counters w).
Proof.
  intros Hoff Hblock. unfold Cache.set_val.
  rewrite (bind_Ok _ _ w off w) by (unfold lift; by rewrite Hoff).
  rewrite (bind_Ok _ _ _ _ _ Hblock).
  destruct (Cache.valid r && _).
  - erewrite bind_Ok by reflexivity.
    match goal with |- counters (snd (?m ?s)) = _ =>
      assert (preserves counters m) as -> by preserve end.
    done.
  - erewrite bind_Ok by reflexivity.
    match goal with |- counters (snd (?m ?s)) = _ =>
      assert (preserves counters m) as -> by preserve end.
    done.
Qed.

Lemma perform_snd_load a cpu : snd (perform (Load a) cpu) = snd (CPU.load a cpu).
Proof. unfold perform. by destruct (CPU.load a cpu) as [[?|?] ?]. Qed.

Lemma perform_snd_store a v cpu : snd (perform (Store a v) cpu) = snd (CPU.store a v cpu).
Proof. unfold perform. by destruct (CPU.store a v cpu) as [[?|?] ?]. Qed.

Lemma load_mem a cpu addr :
  CPU.decode a cpu = (Ok addr, cpu) ->
  CPU.mem (snd (CPU.load a cpu)) = snd (Cache.get_val addr (CPU.mem cpu)).
Proof.
  intros Hd. unfold CPU.load. rewrite (bind_Ok _ _ _ _ _ Hd).
  erewrite bind_Ok by reflexivity. unfold CPU.on_mem. simpl.
  by destruct (Cache.get_val addr (CPU.mem cpu)).
Qed.

Lemma store_mem a v cpu addr :
  CPU.decode a cpu = (Ok addr, cpu) ->
  CPU.mem (snd (CPU.store a v cpu)) = snd (Cache.set_val addr v (CPU.mem cpu)).
Proof.
  intros Hd. unfold CPU.store. rewrite (bind_Ok _ _ _ _ _ Hd).
  erewrite bind_Ok by reflexivity. unfold CPU.on_mem. simpl.
  by destruct (Cache.set_val addr v (CPU.mem cpu)).
Qed.

Lemma perform_counts ns nb cpu op :
  geometry ns nb (CPU.cache cpu) ->
  0 < Cache.block_size (CPU.cache cpu) -> 0 < nb ->
  counters (CPU.mem (snd (perform op cpu))) =
    bump (is_load op) (lookup_hits (address_of op) cpu) (counters (CPU.mem cpu)) /\
  shape (CPU.mem (snd (perform op cpu))) = shape (CPU.mem cpu).
Proof.
  intros Hgeo Hbs Hnb.
  destruct (cpu_decode_ok ns nb cpu (address_of op) Hgeo Hbs Hnb)
    as (addr & index & Hdec & Hd & Hix & H1 & H2).
  destruct (offset_of_decoded addr Hd) as (off & Hoff).
  destruct (get_block_ok ns nb (CPU.mem cpu) addr index Hgeo Hix H1 H2) as (ix & r & Hblock).
  unfold lookup_hits. rewrite Hdec, Hblock.
  destruct op as [a|a v]; cbn [address_of is_load] in Hdec |- *.
  - rewrite perform_snd_load, (load_mem _ _ _ Hdec). split.
    + by eapply get_val_counts.
    + apply preserves_shape_get_val.
  - rewrite perform_snd_store, (store_mem _ _ _ _ Hdec). split.
    + by eapply set_val_counts.
    + apply preserves_shape_set_val.
Qed.

Lemma perform_geometry ns nb cpu op :
  geometry ns nb (CPU.cache cpu) ->
  0 < Cache.block_size (CPU.cache cpu) -> 0 < nb ->
  geometry ns nb (CPU.cache (snd (perform op cpu))) /\
  0 < Cache.block_size (CPU.cache (snd (perform op cpu))).
Proof.
  intros Hgeo Hbs Hnb.
  destruct (perform_counts ns nb cpu op Hgeo Hbs Hnb) as [_ Hshape]. split.
  - by apply (geometry_shape ns nb (CPU.mem cpu)).
  - unfold shape in Hshape. injection Hshape as Hb _ _ _ _.
    unfold CPU.cache. by rewrite Hb.
Qed.

Lemma replay_cons op ops cpu :
  snd (replay (op :: ops) cpu) = snd (replay ops (snd (perform op cpu))).
Proof.
  simpl. destruct (perform op cpu) as [o cpu']. simpl.
  by destruct (replay ops cpu').
Qed.

Lemma tally_cons load hit op h l :
  tally load hit ((op, h) :: l) =
  (if decide (is_load op = load /\ h = hit) then 1 else 0) + tally load hit l.
Proof.
  unfold tally. rewrite filter_cons. simpl. by destruct (decide _).
Qed.

Lemma tally_nil load hit : tally load hit [] = 0.
Proof. done. Qed.

Lemma replay_counts ns nb ops cpu :
  geometry ns nb (CPU.cache cpu) ->
  0 < Cache.block_size (CPU.cache cpu) -> 0 < nb ->
  counters (CPU.mem (snd (replay ops cpu))) =
  (Cache.read_hits (CPU.cache cpu) + tally true true (lookups ops cpu),
   Cache.read_misses (CPU.cache cpu) + tally true false (lookups ops cpu),
   Cache.write_hits (CPU.cache cpu) + tally false true (lookups ops cpu),
   Cache.write_misses (CPU.cache cpu) + tally false false (lookups ops cpu)).
Proof.
  revert cpu. induction ops as [|op ops IH]; intros cpu Hgeo Hbs Hnb.
  - cbn [replay lookups snd]. rewrite !tally_nil, !Nat.add_0_r. done.
  - destruct (perform_counts ns nb cpu op Hgeo Hbs Hnb) as [Hc _].
    destruct (perform_geometry ns nb cpu op Hgeo Hbs Hnb) as [Hgeo' Hbs'].
    rewrite replay_cons, (IH _ Hgeo' Hbs' Hnb). cbn [lookups].
    rewrite !tally_cons. unfold counters, CPU.cache in Hc |- *.
    destruct (is_load op), (lookup_hits (address_of op) cpu);
      cbn [bump] in Hc; injection Hc as -> -> -> ->;
      repeat match goal with |- context [decide ?P] => destruct (decide P) end;
      try (exfalso; intuition congruence);
      rewrite !pair_equal_spec; lia.
Qed.

Lemma tally_total load l :
  tally load true l + tally load false l
  = length (filter (fun x : access * bool => is_load x.1 = load) l).
Proof.
  induction l as [|[op h] l IH]; [done|].
  rewrite !tally_cons, filter_cons. simpl.
  destruct h, (decide (is_load op = load));
    repeat match goal with |- context [decide ?P] => destruct (decide P) end;
    simpl; intuition (try discriminate; lia).
Qed.

Lemma lookups_loads load ops cpu :
  length (filter (fun x : access * bool => is_load x.1 = load) (lookups ops cpu))
  = length (filter (fun op => is_load op = load) ops).
Proof.
  revert cpu. induction ops as [|op ops IH]; intros cpu; [done|].
  cbn [lookups]. rewrite !filter_cons. simpl.
  destruct (decide (is_load op = load)); simpl; by rewrite IH.
Qed.

(** C6: every load counts one read hit or one read miss and leaves the
    write counters alone, every store counts one write hit or one write
    miss and leaves the read counters alone; hence over any replay no
    counter decreases, the read hits grow by the number of loads whose
    lookup hit, and read hits plus read misses grow by the number of
    loads; likewise for the stores. *)
Theorem hit_miss_accounting (ns nb : nat) (cpu : CPU.t) :
  geometry ns nb (CPU.cache cpu) ->
  0 < Cache.block_size (CPU.cache cpu) ->
  0 < nb ->
  let c := CPU.cache cpu in
  (forall a,
     let c' := CPU.cache (snd (CPU.load a cpu)) in
     (Cache.read_hits c' = Cache.read_hits c + 1 /\
      Cache.read_misses c' = Cache.read_misses c \/
      Cache.read_hits c' = Cache.read_hits c /\
      Cache.read_misses c' = Cache.read_misses c + 1) /\
     Cache.write_hits c' = Cache.write_hits c /\
     Cache.write_misses c' = Cache.write_misses c) /\
  (forall a v,
     let c' := CPU.cache (snd (CPU.store a v cpu)) in
     (Cache.write_hits c' = Cache.write_hits c + 1 /\
      Cache.write_misses c' = Cache.write_misses c \/
      Cache.write_hits c' = Cache.write_hits c /\
      Cache.write_misses c' = Cache.write_misses c + 1) /\
     Cache.read_hits c' = Cache.read_hits c /\
     Cache.read_misses c' = Cache.read_misses c) /\
  (forall ops,
     let c' := CPU.cache (snd (replay ops cpu)) in
     let l := lookups ops cpu in
     let reads := length (filter (fun op => is_load op = true) ops) in
     let writes := length (filter (fun op => is_load op = false) ops) in
     Cache.read_hits c' = Cache.read_hits c + tally true true l /\
     Cache.read_misses c' = Cache.read_misses c + tally true false l /\
     Cache.write_hits c' = Cache.write_hits c + tally false true l /\
     Cache.write_misses c' = Cache.write_misses c + tally false false l /\
     Cache.read_hits c' + Cache.read_misses c'
       = Cache.read_hits c + Cache.read_misses c + reads /\
     Cache.write_hits c' + Cache.write_misses c'
       = Cache.write_hits c + Cache.write_misses c + writes /\
     Cache.read_hits c <= Cache.read_hits c' /\
     Cache.read_misses c <= Cache.read_misses c' /\
     Cache.write_hits c <= Cache.write_hits c' /\
     Cache.write_misses c <= Cache.write_misses c').
Proof.
  intros Hgeo Hbs Hnb c. split; [|split].
  - intros a c'.
    destruct (perform_counts ns nb cpu (Load a) Hgeo Hbs Hnb) as [Hc _].
    rewrite perform_snd_load in Hc. unfold counters in Hc. fold (CPU.cache cpu) in Hc.
    fold (CPU.cache (snd (CPU.load a cpu))) in Hc. fold c c' in Hc.
    cbn [is_load address_of] in Hc.
    destruct (lookup_hits a cpu); cbn [bump] in Hc; injection Hc as -> -> -> ->; auto.
  - intros a v c'.
    destruct (perform_counts ns nb cpu (Store a v) Hgeo Hbs Hnb) as [Hc _].
    rewrite perform_snd_store in Hc. unfold counters in Hc. fold (CPU.cache cpu) in Hc.
    fold (CPU.cache (snd (CPU.store a v cpu))) in Hc. fold c c' in Hc.
    cbn [is_load address_of] in Hc.
    destruct (lookup_hits a cpu); cbn [bump] in Hc; injection Hc as -> -> -> ->; auto.
  - intros ops c' l reads writes.
    pose proof (replay_counts ns nb ops cpu Hgeo Hbs Hnb) as Hc.
    unfold counters in Hc. fold (CPU.cache (snd (replay ops cpu))) in Hc.
    fold c c' l in Hc. injection Hc as H1 H2 H3 H4.
    pose proof (tally_total true l) as Hr. pose proof (tally_total false l) as Hw.
    unfold l in Hr, Hw. rewrite lookups_loads in Hr, Hw. fold l reads writes in Hr, Hw.
    lia.
Qed.

(** C6 at a two-way cache of four blocks of two bytes. *)
Lemma hit_miss_accounting_witness :
  exists cpu,
    CPU.__init__ 2 2 4 16 Cache.LRU ticking draw_zero = Ok cpu /\
    geometry 2 4 (CPU.cache cpu) /\
    (forall a,
       let c' := CPU.cache (snd (CPU.load a cpu)) in
       (Cache.read_hits c' = 0 + 1 /\ Cache.read_misses c' = 0 \/
        Cache.read_hits c' = 0 /\ Cache.read_misses c' = 0 + 1) /\
       Cache.write_hits c' = 0 /\ Cache.write_misses c' = 0) /\
    (forall ops,
       let c' := CPU.cache (snd (replay ops cpu)) in
       Cache.read_hits c' = 0 + tally true true (lookups ops cpu) /\
       Cache.read_hits c' + Cache.read_misses c'
         = 0 + 0 + length (filter (fun op => is_load op = true) ops)).
Proof.
  eexists. split; [reflexivity|].
  match goal with |- geometry 2 4 (CPU.cache ?cpu) /\ _ =>
    assert (geometry 2 4 (CPU.cache cpu)) as Hgeo
      by (eapply proj1, (init_geometry 2 2 4 Cache.LRU 0); reflexivity);
    split; [exact Hgeo|];
    destruct (hit_miss_accounting 2 4 cpu Hgeo) as (Hload & _ & Hrun);
      [simpl; lia | lia |]
  end.
  split.
  - exact Hload.
  - intros ops. destruct (Hrun ops) as (H1 & _ & _ & _ & H5 & _). split; [exact H1|exact H5].
Defined.

(** ** Installing over a valid row *)

Lemma stamp_lt_datetime a b : stamp_lt (Datetime a) (Datetime b) = Ok (a <? b)%Z.
Proof. done. Qed.

(** [np.argmin] on a column of datetimes: the first position of the
    smallest one. *)
Lemma argmin_from_spec ts m mi i :
  mi < i ->
  exists j m',
    argmin_from (Datetime m) mi i (Datetime <$> ts) = Ok j /\
    (j = mi /\ m' = m \/ i <= j /\ ts !! (j - i) = Some m' /\ (m' < m)%Z) /\
    (m' <= m)%Z /\
    (forall k t, ts !! k = Some t -> (m' <= t)%Z) /\
    (forall k t, ts !! k = Some t -> i + k < j -> (m' < t)%Z).
Proof.
  revert m mi i. induction ts as [|t ts IH]; intros m mi i Hlt.
  - exists mi, m. split; [done|]. split; [by left|]. split; [lia|].
    split; intros k t Hk; by rewrite lookup_nil in Hk.
  - cbn [fmap list_fmap argmin_from]. rewrite stamp_lt_datetime.
    destruct (Z.ltb_spec t m) as [Htm|Htm].
    + destruct (IH t i (S i)) as (j & m' & -> & Hj & Hle & Hall & Hfirst); [lia|].
      exists j, m'. split; [done|]. split.
      { right. destruct Hj as [[-> ->]|(Hij & Hl & Hm')].
        - rewrite Nat.sub_diag. split; [lia|]. split; [done|lia].
        - split; [lia|]. replace (j - i) with (S (j - S i)) by lia. split; [done|lia]. }
      split; [lia|]. split.
      * intros [|k] t' Hk; simpl in Hk; [injection Hk as <-; lia|eauto].
      * intros [|k] t' Hk Hlt'; simpl in Hk.
        -- injection Hk as <-. destruct Hj as [[-> ->]|(Hij & _ & Hm')]; lia.
        -- apply (Hfirst k t' Hk). lia.
    + destruct (IH m mi (S i)) as (j & m' & -> & Hj & Hle & Hall & Hfirst); [lia|].
      exists j, m'. split; [done|]. split.
      { destruct Hj as [[-> ->]|(Hij & Hl & Hm')]; [by left|right].
        split; [lia|]. replace (j - i) with (S (j - S i)) by lia. done. }
      split; [lia|]. split.
      * intros [|k] t' Hk; simpl in Hk; [injection Hk as <-; lia|eauto].
      * intros [|k] t' Hk Hlt'; simpl in Hk.
        -- injection Hk as <-. destruct Hj as [[-> ->]|(Hij & _ & Hm')]; lia.
        -- apply (Hfirst k t' Hk). lia.
Qed.

Lemma argmin_spec ts :
  ts <> [] ->
  exists j, argmin (Datetime <$> ts) = Ok j /\ first_min ts j.
Proof.
  destruct ts as [|t ts]; [done|]. intros _. cbn [fmap list_fmap argmin].
  destruct (argmin_from_spec ts t 0 1) as (j & m & Hj & Hcase & Hle & Hall & Hfirst); [lia|].
  exists j. split; [done|]. exists m. split.
  { destruct Hcase as [[-> ->]|(Hij & Hl & _)]; [done|].
    replace j with (S (j - 1)) by lia. done. }
  split.
  - intros [|k] t' Hk; simpl in Hk; [injection Hk as <-; lia|eauto].
  - intros [|k] t' Hk Hlt; simpl in Hk.
    + injection Hk as <-. destruct Hcase as [[-> ->]|(_ & _ & Hm)]; lia.
    + apply (Hfirst k t' Hk). lia.
Qed.

Lemma column_datetimes {A} (f : A -> stamp) (l : list A) :
  Forall (fun r => exists t, f r = Datetime t) l ->
  exists ts, f <$> l = Datetime <$> ts /\ length ts = length l.
Proof.
  induction 1 as [|r l [t Ht] _ (ts & IH & Hlen)].
  - by exists [].
  - exists (t :: ts). cbn [fmap list_fmap length]. rewrite Ht.
    split; [f_equal; exact IH|]. by rewrite Hlen.
Qed.

Lemma first_min_lt ts j : first_min ts j -> j < length ts.
Proof. intros (m & Hm & _). by eapply lookup_lt_Some. Qed.

Lemma blocks_setitem_ok w i r :
  i < length (Cache.blocks (Cache.self w)) ->
  Cache.blocks_setitem (Some i) r w =
  (Ok tt, Cache.with_self (Cache.with_blocks (<[i := r]> (Cache.blocks (Cache.self w)))
                                             (Cache.self w)) w).
Proof.
  intros Hi. unfold Cache.blocks_setitem, bind, gets. by rewrite decide_True.
Qed.

Lemma set_block_direct w addr data index old :
  size (Cache.sets (Cache.self w)) = 1 ->
  Cache.index_of addr = Ok index ->
  Cache.blocks (Cache.self w) !! index = Some old ->
  exists w',
    Cache.set_block addr data w = (Ok tt, w') /\
    Cache.blocks (Cache.self w') =
      <[index := installed (Address.get_tag addr) data
                   (if Cache.valid old then Cache.time_in old
                    else Datetime (Cache.wall w (Cache.ticks w)))
                   (Datetime (Cache.wall w (Cache.ticks w)))]>
        (Cache.blocks (Cache.self w)) /\
    Cache.ticks w' = S (Cache.ticks w).
Proof.
  intros Hsize Hix Hold. unfold Cache.set_block.
  erewrite bind_Ok by reflexivity.
  erewrite bind_Ok by (unfold lift; rewrite Hix; reflexivity).
  erewrite bind_Ok by reflexivity. cbn [Cache.self].
  rewrite decide_True by done. rewrite Hold.
  rewrite blocks_setitem_ok by (cbn [Cache.self]; by eapply lookup_lt_Some).
  eexists. split; [reflexivity|]. split; reflexivity.
Qed.

(** What [replace] does on a set whose rows all carry datetimes: it
    returns, and overwrites one row with the new tag and block and the
    clock's reading in both time columns.  Under [random] the row is a way
    of the set; under [LRU] and [FIFO] it is row [j] of the whole array,
    where [j] is the position within the set of the first smallest
    timestamp. *)
Lemma replace_spec w tag index data start :
  Cache.sets (Cache.self w) !! index = Some start ->
  known_policy (Cache.self w) ->
  0 < Cache.blocks_per_set (Cache.self w) ->
  start + Cache.blocks_per_set (Cache.self w) <= length (Cache.blocks (Cache.self w)) ->
  Forall (fun r => exists t1 t2, Cache.time_in r = Datetime t1 /\ Cache.access r = Datetime t2)
         (take (Cache.blocks_per_set (Cache.self w)) (drop start (Cache.blocks (Cache.self w)))) ->
  exists ix w',
    Cache.replace tag index data w = (Ok tt, w') /\
    ix < length (Cache.blocks (Cache.self w)) /\
    Cache.blocks (Cache.self w') =
      <[ix := installed tag data (Datetime (Cache.wall w (Cache.ticks w)))
                        (Datetime (Cache.wall w (Cache.ticks w)))]>
        (Cache.blocks (Cache.self w)) /\
    Cache.ticks w' = S (Cache.ticks w) /\
    (Cache.replacement (Cache.self w) = Cache.RANDOM ->
     start <= ix < start + Cache.blocks_per_set (Cache.self w)) /\
    (Cache.replacement (Cache.self w) = Cache.LRU ->
     exists ts, Cache.access <$> take (Cache.blocks_per_set (Cache.self w))
                                      (drop start (Cache.blocks (Cache.self w)))
                = Datetime <$> ts /\ first_min ts ix) /\
    (Cache.replacement (Cache.self w) = Cache.FIFO ->
     exists ts, Cache.time_in <$> take (Cache.blocks_per_set (Cache.self w))
                                       (drop start (Cache.blocks (Cache.self w)))
                = Datetime <$> ts /\ first_min ts ix).
Proof.
  intros Hstart Hpol Hbps Hfit Hstamps.
  set (c := Cache.self w) in *. set (bps := Cache.blocks_per_set c) in *.
  set (set_ := take bps (drop start (Cache.blocks c))) in *.
  assert (length set_ = bps) as Hlen.
  { unfold set_. rewrite length_take, length_drop. lia. }
  unfold Cache.replace. erewrite bind_Ok by reflexivity. fold c. rewrite Hstart.
  fold bps. rewrite slice_nat. fold set_.
  destruct Hpol as [Hp|[Hp|Hp]]; rewrite Hp.
  - rewrite decide_True by done.
    erewrite bind_Ok; cycle 1.
    { erewrite bind_Ok; [reflexivity|]. unfold Cache.choice.
      rewrite decide_True by lia. reflexivity. }
    erewrite bind_Ok by reflexivity.
    assert (start + Cache.rand w (Cache.draws w) mod (start + bps - start) < start + bps) as Hix.
    { replace (start + bps - start) with bps by lia.
      pose proof (Nat.mod_upper_bound (Cache.rand w (Cache.draws w)) bps). lia. }
    rewrite blocks_setitem_ok by (cbn [Cache.self]; fold c; lia).
    exists (start + Cache.rand w (Cache.draws w) mod (start + bps - start)).
    eexists. split; [reflexivity|]. cbn [Cache.self Cache.with_self Cache.blocks
      Cache.with_blocks Cache.ticks Cache.wall]. fold c.
    split; [lia|]. split; [reflexivity|]. split; [reflexivity|].
    split; [intros _; lia|]. split; intros E; exfalso; revert E; by vm_compute.
  - destruct (column_datetimes Cache.access set_) as (ts & Hts & Htslen).
    { eapply Forall_impl; [exact Hstamps|]. intros r (t1 & t2 & _ & H2). eauto. }
    destruct (argmin_spec ts) as (j & Hj & Hmin).
    { intros ->. simpl in Htslen. lia. }
    rewrite decide_False by by vm_compute. rewrite decide_True by done.
    erewrite bind_Ok; cycle 1.
    { erewrite bind_Ok; [reflexivity|]. unfold lift. rewrite Hts, Hj. reflexivity. }
    erewrite bind_Ok by reflexivity.
    pose proof (first_min_lt ts j Hmin) as Hjlt.
    rewrite blocks_setitem_ok by (cbn [Cache.self]; fold c; lia).
    exists j. eexists. split; [reflexivity|]. cbn [Cache.self Cache.with_self Cache.blocks
      Cache.with_blocks Cache.ticks Cache.wall]. fold c.
    split; [lia|]. split; [reflexivity|]. split; [reflexivity|].
    split; [intros E; exfalso; revert E; by vm_compute|].
    split; [intros _; eauto|intros E; exfalso; revert E; by vm_compute].
  - destruct (column_datetimes Cache.time_in set_) as (ts & Hts & Htslen).
    { eapply Forall_impl; [exact Hstamps|]. intros r (t1 & t2 & H1 & _). eauto. }
    destruct (argmin_spec ts) as (j & Hj & Hmin).
    { intros ->. simpl in Htslen. lia. }
    rewrite decide_False by by vm_compute. rewrite decide_False by by vm_compute.
    rewrite decide_True by done.
    erewrite bind_Ok; cycle 1.
    { erewrite bind_Ok; [reflexivity|]. unfold lift. rewrite Hts, Hj. reflexivity. }
    erewrite bind_Ok by reflexivity.
    pose proof (first_min_lt ts j Hmin) as Hjlt.
    rewrite blocks_setitem_ok by (cbn [Cache.self]; fold c; lia).
    exists j. eexists. split; [reflexivity|]. cbn [Cache.self Cache.with_self Cache.blocks
      Cache.with_blocks Cache.ticks Cache.wall]. fold c.
    split; [lia|]. split; [reflexivity|]. split; [reflexivity|].
    split; [intros E; exfalso; revert E; by vm_compute|].
    split; [intros E; exfalso; revert E; by vm_compute|intros _; eauto].
Qed.

(** ** Valid rows carry datetimes, in every state a run can reach *)

Lemma hoare_bind {S A B} (P : S -> Prop) (m : M S A) (Q : A -> S -> Prop)
    (k : A -> M S B) (R : B -> S -> Prop) (E : S -> Prop) :
  hoare P m Q E -> (forall a, hoare (Q a) (k a) R E) -> hoare P (bind m k) R E.
Proof.
  intros Hm Hk s Hs. unfold bind. specialize (Hm s Hs).
  destruct (m s) as [[a|e] s']; [|done]. by apply Hk.
Qed.

Lemma hoare_weaken {S A} (P P' : S -> Prop) (m : M S A) (Q Q' : A -> S -> Prop)
    (E : S -> Prop) :
  hoare P' m Q' E -> (forall s, P s -> P' s) -> (forall a s, Q' a s -> Q a s) ->
  hoare P m Q E.
Proof.
  intros Hm HP HQ s Hs. specialize (Hm s (HP s Hs)).
  destruct (m s) as [[a|e] s']; auto.
Qed.

Lemma hoare_ret {S A} (P : S -> Prop) (a : A) (Q : A -> S -> Prop) E :
  (forall s, P s -> Q a s) -> hoare P (ret a) Q E.
Proof. intros H s Hs. by apply H. Qed.

Lemma hoare_raise {S A} (P : S -> Prop) e (Q : A -> S -> Prop) (E : S -> Prop) :
  (forall s, P s -> E s) -> hoare P (raise e) Q E.
Proof. intros H s Hs. by apply H. Qed.

Lemma hoare_lift {S A} (P : S -> Prop) (r : result A) (Q : A -> S -> Prop) (E : S -> Prop) :
  (forall s, P s -> E s) -> (forall a s, r = Ok a -> P s -> Q a s) -> hoare P (lift r) Q E.
Proof. intros HE HQ s Hs. unfold lift. destruct r; auto. Qed.

Lemma hoare_gets {S A} (P : S -> Prop) (f : S -> A) (Q : A -> S -> Prop) E :
  (forall s, P s -> Q (f s) s) -> hoare P (gets f) Q E.
Proof. intros H s Hs. by apply H. Qed.

Lemma hoare_pure {S A} (P : S -> Prop) (phi : Prop) (m : M S A) Q E :
  (phi -> hoare P m Q E) -> hoare (fun s => P s /\ phi) m Q E.
Proof. intros H s [Hs Hphi]. by apply H. Qed.

(** A method that leaves the rows of the cache alone keeps any property
    of them. *)
Lemma hoare_rows {A} (I : list Cache.row -> Prop) (m : M Cache.world A) :
  preserves (fun w => Cache.blocks (Cache.self w)) m ->
  hoare (fun w => I (Cache.blocks (Cache.self w))) m
        (fun _ w => I (Cache.blocks (Cache.self w)))
        (fun w => I (Cache.blocks (Cache.self w))).
Proof.
  intros Hp s Hs. specialize (Hp s). destruct (m s) as [[a|e] s']; simpl in Hp; by rewrite Hp.
Qed.

Lemma rows_of_self {A} (m : M Cache.world A) :
  preserves Cache.self m -> preserves (fun w => Cache.blocks (Cache.self w)) m.
Proof. intros H w. by rewrite H. Qed.

Lemma stamped_no_row : stamped Cache.no_row.
Proof. intros H. discriminate H. Qed.

Lemma stamped_installed tag data t1 t2 :
  stamped (installed tag data (Datetime t1) (Datetime t2)).
Proof. intros _. eauto. Qed.

Lemma all_stamped_setitem ix r :
  stamped r ->
  hoare all_stamped (Cache.blocks_setitem ix r) (fun _ => all_stamped) all_stamped.
Proof.
  intros Hr w Hw. unfold Cache.blocks_setitem, bind, gets, modify, raise.
  destruct ix as [i|]; [destruct (decide _)|]; unfold all_stamped in *; simpl; [|done|].
  - apply Forall_insert; done.
  - apply Forall_fmap. eapply Forall_impl; [exact Hw|]. done.
Qed.

Lemma all_stamped_get_block addr :
  hoare all_stamped (Cache.get_block addr)
        (fun found w => all_stamped w /\ stamped found.2) all_stamped.
Proof.
  intros w Hw. unfold Cache.get_block, bind, lift, gets, ret, raise.
  destruct (Cache.index_of addr) as [index|e]; [|done].
  destruct (decide _).
  - destruct (Cache.blocks (Cache.self w) !! index) as [r|] eqn:Hr; [|done].
    split; [done|]. simpl. by eapply (Forall_lookup_1 _ _ _ _ Hw).
  - destruct (Cache.sets (Cache.self w) !! index) as [start|]; [|done].
    destruct (list_find _ _) as [[i r]|] eqn:Hfind; (split; [done|]); simpl.
    + apply list_find_Some in Hfind as (Hi & _ & _).
      unfold slice in Hi. apply lookup_take_Some in Hi as [Hi _].
      rewrite lookup_drop in Hi. by eapply (Forall_lookup_1 _ _ _ _ Hw).
    + apply stamped_no_row.
Qed.

Lemma all_stamped_now :
  hoare all_stamped Cache.now
        (fun time w => all_stamped w /\ exists t, time = Datetime t) all_stamped.
Proof. intros w Hw. simpl. eauto. Qed.

Lemma all_stamped_replace tag index data :
  hoare all_stamped (Cache.replace tag index data) (fun _ => all_stamped) all_stamped.
Proof.
  unfold Cache.replace.
  eapply (hoare_bind _ _ (fun _ => all_stamped)); [by apply hoare_gets|]. intros c.
  destruct (Cache.sets c !! index) as [start|]; [|by apply hoare_raise].
  eapply (hoare_bind _ _ (fun _ => all_stamped)).
  { repeat match goal with
      | |- hoare _ (if ?d then _ else _) _ _ => destruct d
      | |- hoare _ (bind _ _) _ _ =>
          eapply (hoare_bind _ _ (fun _ => all_stamped)); [|intros ?]
      | |- hoare _ (ret _) _ _ => by apply hoare_ret
      | |- hoare _ (lift _) _ _ => by apply hoare_lift
      | |- hoare _ (Cache.choice _ _) _ _ =>
          apply (hoare_rows (Forall stamped)), rows_of_self, self_choice
      end. }
  intros ix. eapply hoare_bind; [apply all_stamped_now|]. intros time.
  destruct ix as [i|].
  - intros w [Hw [t ->]].
    exact (all_stamped_setitem _ _ (stamped_installed _ _ _ _) w Hw).
  - apply hoare_raise. by intros w [Hw _].
Qed.

Lemma all_stamped_set_block addr data :
  hoare all_stamped (Cache.set_block addr data) (fun _ => all_stamped) all_stamped.
Proof.
  unfold Cache.set_block.
  eapply hoare_bind; [apply all_stamped_now|]. intros time.
  eapply (hoare_bind _ _ (fun _ w => all_stamped w /\ exists t, time = Datetime t)).
  { apply hoare_lift; [by intros s [Hs _]|by intros]. }
  intros index.
  eapply (hoare_bind _ _ (fun c w => c = Cache.self w /\ all_stamped w
                                     /\ exists t, time = Datetime t)).
  { apply hoare_gets. by intros s [Hs Ht]. }
  intros c. destruct (decide _).
  - destruct (Cache.blocks c !! index) as [r|] eqn:Hr.
    + intros w (-> & Hw & t & ->).
      pose proof (Forall_lookup_1 _ _ _ _ Hw Hr) as Hsr.
      refine (all_stamped_setitem (Some index) _ _ w Hw).
      intros _. destruct (Cache.valid r) eqn:Hv; simpl.
      * destruct (Hsr Hv) as (t1 & t2 & -> & _). eauto.
      * eauto.
    + apply hoare_raise. by intros w (_ & Hw & _).
  - destruct (Cache.sets c !! index) as [start|].
    + destruct (list_find _ _) as [[i r]|].
      * intros w (-> & Hw & t & ->).
        exact (all_stamped_setitem _ _ (stamped_installed _ _ _ _) w Hw).
      * apply (hoare_weaken _ all_stamped _ _ (fun _ => all_stamped));
          [apply all_stamped_replace|by intros w (_ & Hw & _)|done].
    + apply hoare_raise. by intros w (_ & Hw & _).
Qed.

(** The steps that keep the rows, as triples on [all_stamped]. *)
Ltac keeps_rows :=
  apply (hoare_rows (Forall stamped));
  first [ by intros ? | apply rows_of_self; eauto 3 with preserves ].

Lemma all_stamped_get_val addr :
  hoare all_stamped (Cache.get_val addr) (fun _ => all_stamped) all_stamped.
Proof.
  unfold Cache.get_val.
  eapply (hoare_bind _ _ (fun _ => all_stamped)); [by apply hoare_lift|]. intros offset.
  eapply hoare_bind; [apply all_stamped_get_block|]. intros [ix r]. cbn [snd].
  destruct (Cache.valid r && _) eqn:Hhit.
  - apply andb_prop in Hhit as [Hv _].
    apply hoare_pure. intros Hr. destruct (Hr Hv) as (t1 & t2 & Ht1 & _).
    eapply (hoare_bind _ _ (fun _ => all_stamped)); [keeps_rows|]. intros _.
    eapply hoare_bind; [apply all_stamped_now|]. intros time.
    eapply (hoare_bind _ _ (fun _ => all_stamped)).
    { intros w [Hw [t ->]]. refine (all_stamped_setitem ix _ _ w Hw).
      intros _. simpl. rewrite Ht1. eauto. }
    intros _. eapply (hoare_bind _ _ (fun _ => all_stamped)); [keeps_rows|].
    intros v. by apply hoare_ret.
  - apply (hoare_weaken _ all_stamped _ _ (fun _ => all_stamped)); [|by intros w [Hw _]|done].
    eapply (hoare_bind _ _ (fun _ => all_stamped)); [keeps_rows|]. intros _.
    eapply (hoare_bind _ _ (fun _ => all_stamped)); [keeps_rows|]. intros new_block.
    destruct (Cache.block r); [|by apply hoare_ret].
    eapply (hoare_bind _ _ (fun _ => all_stamped)); [apply all_stamped_set_block|].
    intros _. eapply (hoare_bind _ _ (fun _ => all_stamped)); [keeps_rows|].
    intros v. by apply hoare_ret.
Qed.

Lemma all_stamped_set_val addr val :
  hoare all_stamped (Cache.set_val addr val) (fun _ => all_stamped) all_stamped.
Proof.
  unfold Cache.set_val.
  eapply (hoare_bind _ _ (fun _ => all_stamped)); [by apply hoare_lift|]. intros offset.
  eapply hoare_bind; [apply all_stamped_get_block|]. intros [ix r]. cbn [snd].
  destruct (Cache.valid r && _) eqn:Hhit.
  - apply andb_prop in Hhit as [Hv _].
    apply hoare_pure. intros Hr. destruct (Hr Hv) as (t1 & t2 & Ht1 & _).
    eapply (hoare_bind _ _ (fun _ => all_stamped)); [keeps_rows|]. intros _.
    eapply (hoare_bind _ _ (fun _ => all_stamped)); [keeps_rows|]. intros _.
    eapply hoare_bind; [apply all_stamped_now|]. intros time.
    eapply (hoare_bind _ _ (fun _ => all_stamped)).
    { intros w [Hw [t ->]]. refine (all_stamped_setitem ix _ _ w Hw).
      intros _. simpl. rewrite Ht1. eauto. }
    intros _. keeps_rows.
  - apply (hoare_weaken _ all_stamped _ _ (fun _ => all_stamped)); [|by intros w [Hw _]|done].
    eapply (hoare_bind _ _ (fun _ => all_stamped)); [keeps_rows|]. intros _.
    eapply (hoare_bind _ _ (fun _ => all_stamped)); [keeps_rows|]. intros block.
    eapply (hoare_bind _ _ (fun _ => all_stamped)).
    { destruct block; [by apply hoare_gets|by apply hoare_ret]. }
    intros in_ram. eapply (hoare_bind _ _ (fun _ => all_stamped)).
    { destruct in_ram.
      - eapply (hoare_bind _ _ (fun _ => all_stamped)); [keeps_rows|]. intros _.
        by apply hoare_ret.
      - eapply (hoare_bind _ _ (fun _ => all_stamped)); [by apply hoare_gets|]. intros c.
        eapply (hoare_bind _ _ (fun _ => all_stamped)); [keeps_rows|]. intros b.
        eapply (hoare_bind _ _ (fun _ => all_stamped)); [keeps_rows|]. intros _.
        eapply (hoare_bind _ _ (fun _ => all_stamped)); [keeps_rows|]. intros _.
        by apply hoare_ret. }
    intros b. apply all_stamped_set_block.
Qed.

Lemma hoare_snd {S A} (P : S -> Prop) (m : M S A) (s : S) :
  hoare P m (fun _ => P) P -> P s -> P (snd (m s)).
Proof. intros H Hs. specialize (H s Hs). by destruct (m s) as [[a|e] s']. Qed.

Lemma sound_get_val ns nb addr w :
  sound ns nb w -> sound ns nb (snd (Cache.get_val addr w)).
Proof.
  intros [Hgeo Hpol Hst]. pose proof (preserves_shape_get_val addr w) as Hshape. split.
  - by apply (geometry_shape ns nb w).
  - unfold shape in Hshape. injection Hshape as _ Hrep _ _ _.
    unfold known_policy. by rewrite Hrep.
  - exact (hoare_snd all_stamped _ w (all_stamped_get_val addr) Hst).
Qed.

Lemma sound_set_val ns nb addr val w :
  sound ns nb w -> sound ns nb (snd (Cache.set_val addr val w)).
Proof.
  intros [Hgeo Hpol Hst]. pose proof (preserves_shape_set_val addr val w) as Hshape. split.
  - by apply (geometry_shape ns nb w).
  - unfold shape in Hshape. injection Hshape as _ Hrep _ _ _.
    unfold known_policy. by rewrite Hrep.
  - exact (hoare_snd all_stamped _ w (all_stamped_set_val addr val) Hst).
Qed.

Lemma perform_mem op cpu :
  CPU.mem (snd (perform op cpu)) = CPU.mem cpu \/
  exists addr,
    CPU.mem (snd (perform op cpu)) =
    match op with
    | Load _ => snd (Cache.get_val addr (CPU.mem cpu))
    | Store _ v => snd (Cache.set_val addr v (CPU.mem cpu))
    end.
Proof.
  assert (forall a, exists r, CPU.decode a cpu = (r, cpu)) as Hdec by (intros a; by eexists).
  destruct op as [a|a v]; destruct (Hdec a) as [[addr|e] Hd].
  - right. exists addr. rewrite perform_snd_load. by apply load_mem.
  - left. rewrite perform_snd_load. unfold CPU.load. by rewrite (bind_Raise _ _ _ _ _ Hd).
  - right. exists addr. rewrite perform_snd_store. by apply store_mem.
  - left. rewrite perform_snd_store. unfold CPU.store. by rewrite (bind_Raise _ _ _ _ _ Hd).
Qed.

Lemma init_sound bs ns nbc nbr pol wall rand cpu :
  CPU.__init__ bs ns nbc nbr pol wall rand = Ok cpu ->
  pol = Cache.RANDOM \/ pol = Cache.LRU \/ pol = Cache.FIFO ->
  sound ns nbc (CPU.mem cpu).
Proof.
  unfold CPU.__init__. destruct (Cache.__init__ bs ns nbc pol 0) as [c|e] eqn:Hc; [|done].
  intros [= <-] Hpol. destruct (init_geometry _ _ _ _ _ _ Hc) as (Hgeo & _ & Hrep).
  split; simpl; [done|by unfold known_policy; rewrite Hrep|].
  unfold all_stamped. simpl. revert Hc. unfold Cache.__init__.
  destruct (Cache._get_sets ns nbc) as [[bps sets]|]; [|done]. intros [= <-]. simpl.
  apply Forall_replicate. intros H. discriminate H.
Qed.

(** Every state a replay reaches from a constructed processor is sound. *)
Lemma replay_sound ns nb ops cpu :
  sound ns nb (CPU.mem cpu) -> sound ns nb (CPU.mem (snd (replay ops cpu))).
Proof.
  revert cpu. induction ops as [|op ops IH]; intros cpu Hs; [done|].
  rewrite replay_cons. apply IH.
  destruct (perform_mem op cpu) as [->|[addr ->]]; [done|].
  destruct op; [by apply sound_get_val|by apply sound_set_val].
Qed.

Lemma set_block_full_set w addr data index start :
  size (Cache.sets (Cache.self w)) <> 1 ->
  Cache.index_of addr = Ok index ->
  Cache.sets (Cache.self w) !! index = Some start ->
  Forall (fun r => Cache.valid r = true)
         (take (Cache.blocks_per_set (Cache.self w)) (drop start (Cache.blocks (Cache.self w)))) ->
  Cache.set_block addr data w =
  Cache.replace (Address.get_tag addr) index data (snd (Cache.now w)).
Proof.
  intros Hsize Hix Hstart Hfull. unfold Cache.set_block.
  erewrite bind_Ok by reflexivity.
  erewrite bind_Ok by (unfold lift; rewrite Hix; reflexivity).
  erewrite bind_Ok by reflexivity. cbn [Cache.self].
  rewrite decide_False by done. rewrite Hstart, slice_nat.
  assert (list_find (fun r => Cache.valid r = false)
            (take (Cache.blocks_per_set (Cache.self w))
                  (drop start (Cache.blocks (Cache.self w)))) = None) as ->; [|done].
  apply list_find_None. eapply Forall_impl; [exact Hfull|].
  intros r Hr. by rewrite Hr.
Qed.

(** C9, amended: when an install replaces the contents of a valid row --
    the occupied row of a direct-mapped cache, or a way of a full set of an
    associative cache, chosen under the random policy in any set and under
    LRU or FIFO in the set whose ways start at row 0 -- [set_block] returns
    and overwrites one row, which is a valid row of the set of the address
    (in the direct-mapped cache, the row at the index of the address): its
    tag and block are the new ones and its last-access time is the clock's
    reading of this install.  In the associative case ([Cache.replace]) the
    insertion time is that same reading; in the direct-mapped case the row
    keeps the insertion time it had.  Every other row is as before. *)
Theorem replacement_overwrites_row (ns nb : nat) (w : Cache.world)
    (addr : Address.t) (data : option loc) (index : nat) :
  sound ns nb w ->
  ns <= nb ->
  Cache.index_of addr = Ok index ->
  (ns = 1 ->
   exists old, Cache.blocks (Cache.self w) !! index = Some old /\ Cache.valid old = true) ->
  (ns <> 1 ->
   index < ns /\ Forall (fun r => Cache.valid r = true) (ways (Cache.self w) index) /\
   (Cache.replacement (Cache.self w) = Cache.RANDOM \/ index = 0)) ->
  exists w' ix old t,
    Cache.set_block addr data w = (Ok tt, w') /\
    (if decide (ns = 1) then ix = index
     else index * Cache.blocks_per_set (Cache.self w) <= ix
          < index * Cache.blocks_per_set (Cache.self w)
            + Cache.blocks_per_set (Cache.self w)) /\
    Cache.blocks (Cache.self w) !! ix = Some old /\
    Cache.valid old = true /\
    Cache.blocks (Cache.self w') =
      <[ix := installed (Address.get_tag addr) data
                (if decide (ns = 1) then Cache.time_in old else Datetime t)
                (Datetime t)]>
        (Cache.blocks (Cache.self w)) /\
    t = Cache.wall w (if decide (ns = 1) then Cache.ticks w else S (Cache.ticks w)) /\
    Cache.ticks w' = (if decide (ns = 1) then 1 else 2) + Cache.ticks w.
Proof.
  intros [[Hns Hsize Hsets Hbps Hlen] Hpol Hstamped] Hle Hix Hdirect Hassoc.
  destruct (decide (ns = 1)) as [E|E].
  - destruct (Hdirect E) as (old & Hold & Hvalid).
    destruct (set_block_direct w addr data index old) as (w' & Hrun & Hblocks & Hticks);
      [congruence|done|done|].
    exists w', index, old, (Cache.wall w (Cache.ticks w)).
    rewrite Hvalid in Hblocks. done.
  - destruct (Hassoc E) as (Hindex & Hfull & Hwhere).
    pose proof (Hsets index) as Hstart. rewrite decide_True in Hstart by done.
    set (bps := Cache.blocks_per_set (Cache.self w)) in *.
    assert (0 < bps) as Hpos by (rewrite Hbps; apply Nat.div_str_pos; lia).
    assert (index * bps + bps <= length (Cache.blocks (Cache.self w))) as Hfit.
    { rewrite Hlen. pose proof (Nat.Div0.mul_div_le nb ns) as Hdiv.
      rewrite <- Hbps in Hdiv. nia. }
    rewrite (set_block_full_set w addr data index (index * bps)); [|congruence|done|done|done].
    destruct (replace_spec (snd (Cache.now w)) (Address.get_tag addr) index data (index * bps))
      as (ix & w' & Hrun & Hixlt & Hblocks & Hticks & Hrand & Hlru & Hfifo); try done.
    { eapply Forall_impl; [apply Forall_and; split; [exact Hfull|]|].
      - apply Forall_take, Forall_drop. exact Hstamped.
      - intros r [Hv Hs]. exact (Hs Hv). }
    cbn [Cache.now snd Cache.self] in Hrand, Hlru, Hfifo. fold bps in Hrand, Hlru, Hfifo.
    assert (index * bps <= ix < index * bps + bps) as Hin.
    { destruct Hwhere as [Hp| ->]; [by apply Hrand|].
      destruct Hpol as [Hp|[Hp|Hp]]; [by apply Hrand| |].
      - destruct (Hlru Hp) as (ts & Hts & Hmin). apply first_min_lt in Hmin.
        apply (f_equal length) in Hts.
        rewrite !length_fmap, length_take, length_drop in Hts. lia.
      - destruct (Hfifo Hp) as (ts & Hts & Hmin). apply first_min_lt in Hmin.
        apply (f_equal length) in Hts.
        rewrite !length_fmap, length_take, length_drop in Hts. lia. }
    destruct (lookup_lt_is_Some_2 (Cache.blocks (Cache.self w)) ix Hixlt) as [old Hold].
    assert (Cache.valid old = true) as Hvalid.
    { rewrite Forall_lookup in Hfull. apply (Hfull (ix - index * bps)).
      unfold ways. fold bps. rewrite lookup_take_lt, lookup_drop by lia.
      rewrite <- Hold. f_equal. lia. }
    exists w', ix, old, (Cache.wall w (S (Cache.ticks w))).
    split; [exact Hrun|]. split; [exact Hin|]. split; [exact Hold|].
    split; [exact Hvalid|]. split; [exact Hblocks|]. split; [done|]. exact Hticks.
Qed.

(** The amended C9 at a full set that is not the first: two sets of two
    ways under the random policy, set 1 (rows 2 and 3) filled by two stores,
    and the install of the block of address 10, which lands in set 1. *)
Lemma replacement_overwrites_row_witness :
  exists cpu0,
    CPU.__init__ 2 2 4 16 Cache.RANDOM ticking draw_zero = Ok cpu0 /\
  exists cpu1,
    replay [Store 2 (Float 7); Store 6 (Float 8)] cpu0 = ([Stored; Stored], cpu1) /\
  exists addr,
    fst (CPU.decode 10 cpu1) = Ok addr /\
    Cache.index_of addr = Ok 1 /\
    Forall (fun r => Cache.valid r = true) (ways (CPU.cache cpu1) 1) /\
  exists w' ix old t,
    Cache.set_block addr (Some 9) (CPU.mem cpu1) = (Ok tt, w') /\
    (if decide (2 = 1) then ix = 1
     else 1 * Cache.blocks_per_set (CPU.cache cpu1) <= ix
          < 1 * Cache.blocks_per_set (CPU.cache cpu1)
            + Cache.blocks_per_set (CPU.cache cpu1)) /\
    Cache.blocks (CPU.cache cpu1) !! ix = Some old /\
    Cache.valid old = true /\
    Cache.blocks (Cache.self w') =
      <[ix := installed (Address.get_tag addr) (Some 9)
                (if decide (2 = 1) then Cache.time_in old else Datetime t)
                (Datetime t)]>
        (Cache.blocks (CPU.cache cpu1)) /\
    t = Cache.wall (CPU.mem cpu1)
          (if decide (2 = 1) then Cache.ticks (CPU.mem cpu1)
           else S (Cache.ticks (CPU.mem cpu1))) /\
    Cache.ticks w' = (if decide (2 = 1) then 1 else 2) + Cache.ticks (CPU.mem cpu1).
Proof.
  eexists. split; [reflexivity|].
  match goal with
  | |- exists cpu1, replay ?ops ?c0 = _ /\ _ =>
      assert (sound 2 4 (CPU.mem (snd (replay ops c0)))) as Hsound
        by (apply replay_sound,
              (init_sound 2 2 4 16 Cache.RANDOM ticking draw_zero);
            [reflexivity | left; reflexivity])
  end.
  eexists. split; [vm_compute; reflexivity|].
  eexists. split; [vm_compute; reflexivity|].
  split; [vm_compute; reflexivity|].
  split; [vm_compute; repeat constructor|].
  eapply (replacement_overwrites_row 2 4).
  - exact Hsound.
  - lia.
  - vm_compute. reflexivity.
  - intros H. discriminate H.
  - intros _. split; [lia|]. split; [vm_compute; repeat constructor|].
    left. vm_compute. reflexivity.
Defined.

(** ** The read path, in general *)

Lemma ram_get_block_pure tag index : preserves id (RAM.get_block tag index).
Proof. unfold RAM.get_block. preserve. Qed.

Lemma on_ram_get_block tag index w :
  Cache.on_ram (RAM.get_block tag index) w
  = (fst (RAM.get_block tag index (Cache.ram w)), w).
Proof.
  unfold Cache.on_ram. pose proof (ram_get_block_pure tag index (Cache.ram w)) as H.
  destruct (RAM.get_block tag index (Cache.ram w)) as [r ram']. simpl in *.
  unfold id in H. subst ram'. by destruct w.
Qed.

(** In an associative cache the lookup either finds a valid way with the
    tag of the address or returns no position and the made-up row. *)
Lemma get_block_associative w addr ix r w' :
  size (Cache.sets (Cache.self w)) <> 1 ->
  Cache.get_block addr w = (Ok (ix, r), w') ->
  (exists i, ix = Some i /\ Cache.valid r = true /\
             Cache.tag r = Some (Address.get_tag addr)) \/
  (ix = None /\ r = Cache.no_row).
Proof.
  intros Hsize. unfold Cache.get_block, bind, lift, gets, ret, raise.
  destruct (Cache.index_of addr) as [index|e]; [|done].
  rewrite decide_False by done.
  destruct (Cache.sets (Cache.self w) !! index) as [start|]; [|done].
  destruct (list_find _ _) as [[i r']|] eqn:Hfind.
  - intros [= <- <- <-]. left. apply list_find_Some in Hfind as (_ & [Hv Ht] & _). eauto.
  - intros [= <- <- <-]. by right.
Qed.

(** The defect behind C1, C2, C3 and C10, for every associative cache: a
    read that misses returns [None] whatever the RAM holds for the
    address, and leaves the rows of the cache as they were; only the miss
    is counted. *)
Lemma associative_read_miss_returns_none w addr off ix r fetched :
  size (Cache.sets (Cache.self w)) <> 1 ->
  int2 (Address.get_offset addr) = Ok off ->
  Cache.get_block addr w = (Ok (ix, r), w) ->
  Cache.valid r && bool_decide (Some (Address.get_tag addr) = Cache.tag r) = false ->
  fst (RAM.get_block (Address.get_tag addr) (Address.get_index addr) (Cache.ram w))
    = Ok fetched ->
  Cache.get_val addr w = (Ok None, snd (Cache.count_read_miss w)) /\
  Cache.blocks (Cache.self (snd (Cache.count_read_miss w))) = Cache.blocks (Cache.self w).
Proof.
  intros Hsize Hoff Hblock Hmiss Hram. split; [|done].
  destruct (get_block_associative w addr ix r w Hsize Hblock)
    as [(i & -> & Hv & Ht)|[-> ->]].
  { rewrite Hv, Ht, bool_decide_eq_true_2 in Hmiss by done. discriminate Hmiss. }
  unfold Cache.get_val.
  rewrite (bind_Ok _ _ w off w) by (unfold lift; by rewrite Hoff).
  rewrite (bind_Ok _ _ _ _ _ Hblock). cbn [Cache.no_row Cache.valid andb Cache.block].
  erewrite bind_Ok by reflexivity.
  erewrite bind_Ok; [reflexivity|].
  rewrite on_ram_get_block. cbn [Cache.ram Cache.count_read_miss modify snd Cache.with_self].
  by rewrite Hram.
Qed.

(** C1 as it holds in a direct-mapped cache: a read that misses on a row
    that carries a block, while the RAM row of the address is valid,
    installs the fetched block in the row of the index and returns the
    word at the offset. *)
Lemma direct_mapped_read_miss_installs w addr off index r l v :
  size (Cache.sets (Cache.self w)) = 1 ->
  int2 (Address.get_offset addr) = Ok off ->
  Cache.index_of addr = Ok index ->
  Cache.blocks (Cache.self w) !! index = Some r ->
  Cache.valid r && bool_decide (Some (Address.get_tag addr) = Cache.tag r) = false ->
  is_Some (Cache.block r) ->
  fst (RAM.get_block (Address.get_tag addr) (Address.get_index addr) (Cache.ram w))
    = Ok (Some l) ->
  Block.data (Cache.heap w l) !! N.to_nat off = Some v ->
  exists w',
    Cache.get_val addr w = (Ok (Some v), w') /\
    Cache.blocks (Cache.self w') =
      <[index := installed (Address.get_tag addr) (Some l)
                   (if Cache.valid r then Cache.time_in r
                    else Datetime (Cache.wall w (Cache.ticks w)))
                   (Datetime (Cache.wall w (Cache.ticks w)))]>
        (Cache.blocks (Cache.self w)) /\
    Cache.read_misses (Cache.self w') = Cache.read_misses (Cache.self w) + 1.
Proof.
  intros Hsize Hoff Hix Hrow Hmiss [l0 Hl0] Hram Hword.
  assert (Cache.get_block addr w = (Ok (Some index, r), w)) as Hblock.
  { unfold Cache.get_block, bind, lift, gets, ret. rewrite Hix.
    rewrite decide_True by done. by rewrite Hrow. }
  unfold Cache.get_val.
  rewrite (bind_Ok _ _ w off w) by (unfold lift; by rewrite Hoff).
  rewrite (bind_Ok _ _ _ _ _ Hblock). rewrite Hmiss.
  erewrite bind_Ok by reflexivity.
  erewrite bind_Ok; cycle 1.
  { rewrite on_ram_get_block.
    cbn [Cache.ram Cache.count_read_miss modify snd Cache.with_self]. by rewrite Hram. }
  rewrite Hl0.
  set (w1 := snd (Cache.count_read_miss w)).
  destruct (set_block_direct w1 addr (Some l) index r) as (w' & Hrun & Hblocks & Hticks);
    [done..|].
  rewrite (bind_Ok _ _ _ _ _ Hrun).
  assert (Cache.data_getitem (Some l) (N.to_nat off) w' = (Ok v, w')) as Hget.
  { assert (Cache.heap w' = Cache.heap w) as Hheap.
    { assert (preserves Cache.heap (Cache.set_block addr (Some l))) as Hp.
      { unfold Cache.set_block, Cache.replace, Cache.blocks_setitem. preserve;
          try done; intros s; unfold Cache.choice; by destruct (decide _). }
      specialize (Hp w1). by rewrite Hrun in Hp. }
    unfold Cache.data_getitem, bind, gets, ret. by rewrite Hheap, Hword. }
  rewrite (bind_Ok _ _ _ _ _ Hget). exists w'. split; [done|]. split; [exact Hblocks|].
  assert (preserves counters (Cache.set_block addr (Some l))) as Hp by preserve.
  specialize (Hp w1). rewrite Hrun in Hp. unfold counters in Hp. simpl in Hp.
  by injection Hp as _ -> _ _.
Qed.

(** ** Write-through, in general *)

Lemma bind_inv {S A B} (m : M S A) (k : A -> M S B) s b s' :
  bind m k s = (Ok b, s') ->
  exists a s1, m s = (Ok a, s1) /\ k a s1 = (Ok b, s').
Proof.
  unfold bind. destruct (m s) as [[a|e] s1]; [eauto|discriminate].
Qed.

(** What a method leaves of the heap and of the RAM. *)
Lemma preserves_store_setitem ix r :
  preserves (fun w => (Cache.heap w, Cache.ram w)) (Cache.blocks_setitem ix r).
Proof.
  intros w. unfold Cache.blocks_setitem, bind, gets, modify, raise.
  destruct ix; [destruct (decide _)|]; done.
Qed.

Lemma preserves_store_now : preserves (fun w => (Cache.heap w, Cache.ram w)) Cache.now.
Proof. done. Qed.

Lemma preserves_store_choice a b :
  preserves (fun w => (Cache.heap w, Cache.ram w)) (Cache.choice a b).
Proof. intros w. unfold Cache.choice. by destruct (decide _). Qed.

#[local] Hint Resolve preserves_store_setitem preserves_store_now preserves_store_choice
  : preserves.

Lemma preserves_store_set_block addr data :
  preserves (fun w => (Cache.heap w, Cache.ram w)) (Cache.set_block addr data).
Proof. unfold Cache.set_block, Cache.replace. preserve. Qed.

Lemma on_ram_get_block_inv tag index w b w' :
  Cache.on_ram (RAM.get_block tag index) w = (Ok b, w') ->
  w' = w /\
  forall l, b = Some l ->
    exists n, int2 (tag ++ index) = Ok n /\
              RAM.blocks (Cache.ram w) !! N.to_nat n
                = Some {| RAM.valid := true; RAM.block := Some l |}.
Proof.
  rewrite on_ram_get_block. intros [= Hb <-]. split; [done|]. intros l ->.
  revert Hb. unfold RAM.get_block, bind, lift, gets, ret, raise.
  destruct (int2 (tag ++ index)) as [n|]; [|done]. simpl.
  destruct (RAM.blocks (Cache.ram w) !! N.to_nat n) as [[v blk]|] eqn:Hrow; [|done].
  simpl. destruct v; simpl; [|done]. intros [= ->]. eauto.
Qed.

Lemma on_ram_set_block_inv tag index data w w' :
  Cache.on_ram (RAM.set_block tag index data) w = (Ok tt, w') ->
  Cache.heap w' = Cache.heap w /\
  exists n, int2 (tag ++ index) = Ok n /\
            RAM.blocks (Cache.ram w') !! N.to_nat n
              = Some {| RAM.valid := true; RAM.block := data |}.
Proof.
  unfold Cache.on_ram, RAM.set_block, bind, lift, gets, modify, raise.
  destruct (int2 (tag ++ index)) as [n|]; [|done]. simpl.
  destruct (decide _) as [Hlt|]; [|done]. intros [= <-]. split; [done|].
  exists n. split; [done|]. simpl. by apply list_lookup_insert_eq.
Qed.

Lemma on_block_set_val_inv b val off tag w w' :
  Cache.on_block b (Block.set_val val off tag) w = (Ok tt, w') ->
  exists l, b = Some l /\ Cache.ram w' = Cache.ram w /\
            Block.data (Cache.heap w' l) !! off = Some val.
Proof.
  unfold Cache.on_block. destruct b as [l|]; [|done].
  unfold Block.set_val, bind, modify, gets, raise. simpl.
  destruct (decide _) as [Hlt|]; [|done]. intros [= <-]. exists l.
  split; [done|]. split; [done|]. simpl. rewrite decide_True by done. simpl.
  by apply list_lookup_insert_eq.
Qed.

(** The write-through half of C2, on every path of [set_val]: when the
    call returns, the RAM row of the address is valid and the block it
    refers to holds the written value at the offset of the address. *)
Lemma set_val_writes_through w addr val off w' :
  int2 (Address.get_offset addr) = Ok off ->
  Cache.set_val addr val w = (Ok tt, w') ->
  exists l, ram_row w' addr = Some {| RAM.valid := true; RAM.block := Some l |} /\
            word_at w' (Some l) (N.to_nat off) = Some val.
Proof.
  intros Hoff H. unfold Cache.set_val in H.
  apply bind_inv in H as (off' & w0 & H0 & H). unfold lift in H0. rewrite Hoff in H0.
  injection H0 as <- <-.
  apply bind_inv in H as ([ix r] & w0 & _ & H).
  destruct (Cache.valid r && _).
  - apply bind_inv in H as ([] & w1 & _ & H).
    apply bind_inv in H as ([] & w2 & Hset & H).
    apply on_block_set_val_inv in Hset as (l & Hl & _ & Hword).
    apply bind_inv in H as (time & w3 & Hnow & H).
    apply bind_inv in H as ([] & w4 & Hitem & H).
    apply on_ram_set_block_inv in H as (Hheap & n & Hn & Hrow).
    pose proof (preserves_store_now w2) as H3. rewrite Hnow in H3.
    match type of Hitem with
    | Cache.blocks_setitem _ ?row _ = _ =>
        pose proof (preserves_store_setitem ix row w3) as H4
    end.
    rewrite Hitem in H4.
    simpl in H3, H4. injection H3 as H3 _. injection H4 as H4 _.
    exists l. unfold ram_row, word_at. rewrite Hn, Hrow, Hl. split; [done|].
    by rewrite Hheap, H4, H3.
  - apply bind_inv in H as ([] & w1 & _ & H).
    apply bind_inv in H as (block & w2 & Hget & H).
    apply on_ram_get_block_inv in Hget as [-> Hram].
    apply bind_inv in H as (in_ram & w2 & Hin & H).
    apply bind_inv in H as (block' & w3 & Hblock & H).
    pose proof (preserves_store_set_block addr block' w3) as Hframe.
    rewrite H in Hframe. simpl in Hframe. injection Hframe as Hheap Hramf.
    unfold ram_row, word_at. rewrite Hheap, Hramf.
    destruct in_ram.
    + assert (w2 = w1) as ->.
      { destruct block; [unfold gets in Hin|unfold ret in Hin]; by injection Hin. }
      apply bind_inv in Hblock as ([] & w4 & Hset & Hret).
      injection Hret as <- <-.
      apply on_block_set_val_inv in Hset as (l & -> & Hram4 & Hword).
      destruct (Hram l eq_refl) as (n & Hn & Hrow).
      exists l. rewrite Hn, Hram4, Hrow. done.
    + apply bind_inv in Hblock as (c & w4 & _ & Hblock).
      apply bind_inv in Hblock as (b & w5 & _ & Hblock).
      apply bind_inv in Hblock as ([] & w6 & Hset & Hblock).
      apply bind_inv in Hblock as ([] & w7 & Hstore & Hret).
      injection Hret as <- <-.
      apply on_block_set_val_inv in Hset as (l & -> & _ & Hword).
      apply on_ram_set_block_inv in Hstore as (Hheap7 & n & Hn & Hrow).
      exists l. rewrite Hn, Hrow, Hheap7. done.
Qed.

(** ** Eviction under LRU and FIFO, in general *)

(** The defect behind C5, for every set but the first: under [LRU] and
    [FIFO] the row [replace] overwrites lies before the set, and the ways
    of the set stay as they were. *)
Lemma lru_fifo_eviction_misses_the_set w tag index data start :
  Cache.sets (Cache.self w) !! index = Some start ->
  Cache.replacement (Cache.self w) = Cache.LRU \/
  Cache.replacement (Cache.self w) = Cache.FIFO ->
  0 < Cache.blocks_per_set (Cache.self w) ->
  Cache.blocks_per_set (Cache.self w) <= start ->
  start + Cache.blocks_per_set (Cache.self w) <= length (Cache.blocks (Cache.self w)) ->
  Forall (fun r => exists t1 t2, Cache.time_in r = Datetime t1 /\ Cache.access r = Datetime t2)
         (take (Cache.blocks_per_set (Cache.self w)) (drop start (Cache.blocks (Cache.self w)))) ->
  exists ix w',
    Cache.replace tag index data w = (Ok tt, w') /\
    ix < start /\
    Cache.blocks (Cache.self w') !! ix
      = Some (installed tag data (Datetime (Cache.wall w (Cache.ticks w)))
                        (Datetime (Cache.wall w (Cache.ticks w)))) /\
    take (Cache.blocks_per_set (Cache.self w)) (drop start (Cache.blocks (Cache.self w')))
      = take (Cache.blocks_per_set (Cache.self w)) (drop start (Cache.blocks (Cache.self w))).
Proof.
  intros Hstart Hpol Hpos Hbefore Hfit Hstamps.
  destruct (replace_spec w tag index data start)
    as (ix & w' & Hrun & Hlt & Hblocks & _ & _ & Hlru & Hfifo); [done| |done..|].
  { unfold known_policy. tauto. }
  set (bps := Cache.blocks_per_set (Cache.self w)) in *.
  assert (ix < bps) as Hix.
  { destruct Hpol as [Hp|Hp]; [destruct (Hlru Hp) as (ts & Hts & Hmin)
                              |destruct (Hfifo Hp) as (ts & Hts & Hmin)];
      apply first_min_lt in Hmin; apply (f_equal length) in Hts;
      rewrite !length_fmap, length_take, length_drop in Hts; lia. }
  exists ix, w'. split; [done|]. split; [lia|]. rewrite Hblocks. split.
  - by apply list_lookup_insert_eq.
  - f_equal. rewrite drop_insert_lt by lia. done.
Qed.

(** C5 as it holds in the first set, whose ways start at row 0: under
    [LRU] the row overwritten is the way with the smallest last-access
    time, under [FIFO] the way with the smallest insertion time, and among
    equal times the lowest way. *)
Lemma lru_fifo_eviction_in_first_set w tag index data :
  Cache.sets (Cache.self w) !! index = Some 0 ->
  Cache.replacement (Cache.self w) = Cache.LRU \/
  Cache.replacement (Cache.self w) = Cache.FIFO ->
  0 < Cache.blocks_per_set (Cache.self w) ->
  Cache.blocks_per_set (Cache.self w) <= length (Cache.blocks (Cache.self w)) ->
  Forall (fun r => exists t1 t2, Cache.time_in r = Datetime t1 /\ Cache.access r = Datetime t2)
         (take (Cache.blocks_per_set (Cache.self w)) (Cache.blocks (Cache.self w))) ->
  exists way w' ts,
    Cache.replace tag index data w = (Ok tt, w') /\
    Cache.blocks (Cache.self w') =
      <[way := installed tag data (Datetime (Cache.wall w (Cache.ticks w)))
                         (Datetime (Cache.wall w (Cache.ticks w)))]>
        (Cache.blocks (Cache.self w)) /\
    (if decide (Cache.replacement (Cache.self w) = Cache.LRU)
     then Cache.access else Cache.time_in)
      <$> take (Cache.blocks_per_set (Cache.self w)) (Cache.blocks (Cache.self w))
      = Datetime <$> ts /\
    first_min ts way.
Proof.
  intros Hstart Hpol Hpos Hfit Hstamps.
  destruct (replace_spec w tag index data 0)
    as (ix & w' & Hrun & Hlt & Hblocks & _ & _ & Hlru & Hfifo); [done| |done| |done|].
  { unfold known_policy. tauto. }
  { simpl. lia. }
  rewrite drop_0 in Hlru, Hfifo.
  destruct Hpol as [Hp|Hp].
  - destruct (Hlru Hp) as (ts & Hts & Hmin). exists ix, w', ts.
    rewrite decide_True by done. done.
  - destruct (Hfifo Hp) as (ts & Hts & Hmin). exists ix, w', ts.
    rewrite decide_False by (rewrite Hp; by vm_compute). done.
Qed.

(** ** The report, in general *)

(** The defect behind C8: whenever no read was counted the report raises
    at the read miss rate, and whenever reads were counted but no write it
    raises at the write miss rate. *)
Lemma print_results_divides_by_the_totals cpu out :
  let c := CPU.cache cpu in
  (Cache.read_hits c + Cache.read_misses c = 0 ->
   fst (cache_sim.print_results cpu out) = Raise ZeroDivisionError) /\
  (Cache.read_hits c + Cache.read_misses c <> 0 ->
   Cache.write_hits c + Cache.write_misses c = 0 ->
   fst (cache_sim.print_results cpu out) = Raise ZeroDivisionError) /\
  (Cache.read_hits c + Cache.read_misses c <> 0 ->
   Cache.write_hits c + Cache.write_misses c <> 0 ->
   fst (cache_sim.print_results cpu out) = Ok tt).
Proof.
  intros c. unfold cache_sim.print_results, cache_sim.miss_rate, cache_sim.print,
    bind, modify, lift. fold c. simpl.
  destruct (decide (Cache.read_hits c + Cache.read_misses c = 0)) as [Hr|Hr];
    destruct (decide (Cache.write_hits c + Cache.write_misses c = 0)) as [Hw|Hw];
    simpl; repeat split; intros; try done.
Qed.

(** ** The fully associative geometry, in general *)

(** With as many sets as blocks the decoder gives the index no bits, and
    every address has index 0. *)
Lemma fully_associative_index a block_size n addr :
  Address.__init__ a block_size n n = Ok addr ->
  Address._index_len addr = 0%Z /\ Cache.index_of addr = Ok 0.
Proof.
  intros Hinit. pose proof (init_decoded _ _ _ _ _ Hinit) as Hd.
  assert (Address._index_len addr = 0%Z) as Hlen.
  { revert Hinit. unfold Address.__init__, Address._get_index_len, log2_int.
    destruct (block_size =? 0)%N; [done|].
    destruct (N.eqb_spec n 1) as [->|_].
    - simpl. by intros [= <-].
    - rewrite N.eqb_refl. by intros [= <-]. }
  split; [done|]. unfold Cache.index_of, Address.get_index. rewrite Hlen.
  pose proof (slice_length_le (Address.address addr) (Address._tag_len addr) 0) as Hle.
  destruct (slice _ _ _); [done|]. simpl in Hle. lia.
Qed.

Lemma geometry_square_ways n c :
  geometry n n c -> Cache.blocks_per_set c = 1 /\ Cache.sets c !! 0 = Some 0.
Proof.
  intros [Hn _ Hsets Hbps _]. split.
  - rewrite Hbps. apply Nat.div_same. lia.
  - rewrite Hsets, decide_True by done. done.
Qed.

Lemma one_row_frame n w w' :
  shape w' = shape w ->
  Cache.blocks (Cache.self w') = Cache.blocks (Cache.self w) ->
  one_row n w -> one_row n w'.
Proof.
  intros Hshape Hrows [Hgeo Hinv]. split.
  - by apply (geometry_shape n n w).
  - by rewrite Hrows.
Qed.

Lemma one_row_keeps {A} n (m : M Cache.world A) :
  preserves (fun w => (shape w, Cache.blocks (Cache.self w))) m ->
  hoare (one_row n) m (fun _ => one_row n) (one_row n).
Proof.
  intros Hp w Hw. specialize (Hp w). destruct (m w) as [[a|e] w']; cbn [snd] in Hp;
    apply pair_equal_spec in Hp as [Hs Hr]; by apply (one_row_frame n w).
Qed.

Lemma frame_of_self {A} (m : M Cache.world A) :
  preserves Cache.self m ->
  preserves (fun w => (shape w, Cache.blocks (Cache.self w))) m.
Proof. intros H w. unfold shape. by rewrite H. Qed.

Ltac keeps_one_row :=
  apply one_row_keeps;
  first [ by intros ? | apply frame_of_self; eauto 3 with preserves ].

Lemma one_row_setitem n r :
  hoare (one_row n) (Cache.blocks_setitem (Some 0) r) (fun _ => one_row n) (one_row n).
Proof.
  intros w [Hgeo Hinv]. unfold Cache.blocks_setitem, bind, gets, modify, raise.
  destruct (decide _) as [Hlt|]; [|done]. split.
  - apply (geometry_shape n n w); [|done]. unfold shape. simpl. by rewrite length_insert.
  - simpl. by rewrite drop_insert_lt by lia.
Qed.

Lemma one_row_get_block n addr :
  Cache.index_of addr = Ok 0 ->
  hoare (one_row n) (Cache.get_block addr)
        (fun found w => one_row n w /\ (Cache.valid found.2 = true -> found.1 = Some 0))
        (one_row n).
Proof.
  intros Hix w [Hgeo Hinv]. unfold Cache.get_block, bind, lift, gets, ret, raise.
  rewrite Hix. destruct (geometry_square_ways n _ Hgeo) as [Hbps Hstart].
  destruct (decide _).
  - destruct (Cache.blocks (Cache.self w) !! 0) as [r|]; [|done]. done.
  - rewrite Hstart, Hbps. change (Z.of_nat (0 + 1)) with (Z.of_nat (0 + 1)).
    rewrite slice_nat, drop_0.
    destruct (list_find _ _) as [[i r]|] eqn:Hfind; (split; [done|]); simpl.
    + intros _. apply list_find_Some in Hfind as (Hi & _ & _).
      apply lookup_take_Some in Hi as [_ Hi]. f_equal. lia.
    + intros H. discriminate H.
Qed.

Lemma one_row_now n :
  hoare (one_row n) Cache.now (fun _ => one_row n) (one_row n).
Proof. keeps_one_row. Qed.

Lemma one_row_replace n tag data :
  hoare (one_row n) (Cache.replace tag 0 data) (fun _ => one_row n) (one_row n).
Proof.
  unfold Cache.replace.
  eapply (hoare_bind _ _ (fun c w => one_row n w /\ Cache.blocks_per_set c = 1
                                     /\ Cache.sets c !! 0 = Some 0)).
  { apply hoare_gets. intros s Hs. split; [done|]. by apply (geometry_square_ways n), Hs. }
  intros c. apply hoare_pure. intros [Hbps ->]. rewrite Hbps.
  eapply (hoare_bind _ _ (fun ix w => one_row n w /\ (ix = Some 0 \/ ix = None))).
  { destruct (decide _).
    - eapply (hoare_bind _ _ (fun i w => one_row n w /\ i = 0)).
      + intros w Hw. unfold Cache.choice. rewrite decide_True by lia. simpl.
        split; [|done]. eapply one_row_frame; [| |exact Hw]; done.
      + intros i. apply hoare_ret. intros w [Hw ->]. auto.
    - rewrite slice_nat, drop_0. destruct (decide _); [|destruct (decide _)].
      + eapply (hoare_bind _ _ (fun i w => one_row n w /\ i = 0)).
        * apply hoare_lift; [done|]. intros i w Hi Hw. split; [done|].
          destruct (take 1 (Cache.blocks c)) as [|r [|r' l]] eqn:Ht; simpl in Hi.
          -- discriminate Hi.
          -- by injection Hi.
          -- apply (f_equal length) in Ht. rewrite length_take in Ht.
             cbn [length] in Ht. lia.
        * intros i. apply hoare_ret. intros w [Hw ->]. auto.
      + eapply (hoare_bind _ _ (fun i w => one_row n w /\ i = 0)).
        * apply hoare_lift; [done|]. intros i w Hi Hw. split; [done|].
          destruct (take 1 (Cache.blocks c)) as [|r [|r' l]] eqn:Ht; simpl in Hi.
          -- discriminate Hi.
          -- by injection Hi.
          -- apply (f_equal length) in Ht. rewrite length_take in Ht.
             cbn [length] in Ht. lia.
        * intros i. apply hoare_ret. intros w [Hw ->]. auto.
      + apply hoare_ret. intros w Hw. auto. }
  intros ix. apply hoare_pure. intros Hix.
  eapply (hoare_bind _ _ (fun _ => one_row n)); [apply one_row_now|]. intros time.
  destruct Hix as [-> | ->]; [apply one_row_setitem|by apply hoare_raise].
Qed.

Lemma one_row_set_block n addr data :
  Cache.index_of addr = Ok 0 ->
  hoare (one_row n) (Cache.set_block addr data) (fun _ => one_row n) (one_row n).
Proof.
  intros Hix. unfold Cache.set_block.
  eapply (hoare_bind _ _ (fun _ => one_row n)); [apply one_row_now|]. intros time.
  eapply (hoare_bind _ _ (fun index w => one_row n w /\ index = 0)).
  { apply hoare_lift; [done|]. intros i w Hi Hw. split; [done|]. congruence. }
  intros index. apply hoare_pure. intros ->.
  eapply (hoare_bind _ _ (fun c w => one_row n w /\ Cache.blocks_per_set c = 1
                                     /\ Cache.sets c !! 0 = Some 0)).
  { apply hoare_gets. intros s Hs. split; [done|]. by apply (geometry_square_ways n), Hs. }
  intros c. apply hoare_pure. intros [Hbps Hstart]. destruct (decide _).
  - destruct (Cache.blocks c !! 0); [apply one_row_setitem|by apply hoare_raise].
  - rewrite Hstart, Hbps, slice_nat, drop_0.
    destruct (list_find _ _) as [[i r]|] eqn:Hfind; [|apply one_row_replace].
    apply list_find_Some in Hfind as (Hi & _ & _).
    apply lookup_take_Some in Hi as [_ Hi].
    replace (0 + i) with 0 by lia. apply one_row_setitem.
Qed.

Lemma one_row_get_val n addr :
  Cache.index_of addr = Ok 0 ->
  hoare (one_row n) (Cache.get_val addr) (fun _ => one_row n) (one_row n).
Proof.
  intros Hix. unfold Cache.get_val.
  eapply (hoare_bind _ _ (fun _ => one_row n)); [by apply hoare_lift|]. intros offset.
  eapply hoare_bind; [by apply one_row_get_block|]. intros [ix r]. cbn [fst snd].
  apply hoare_pure. intros Hvalid.
  destruct (Cache.valid r && _) eqn:Hhit.
  - apply andb_prop in Hhit as [Hv _]. rewrite (Hvalid Hv).
    eapply (hoare_bind _ _ (fun _ => one_row n)); [keeps_one_row|]. intros _.
    eapply (hoare_bind _ _ (fun _ => one_row n)); [apply one_row_now|]. intros time.
    eapply (hoare_bind _ _ (fun _ => one_row n)); [apply one_row_setitem|]. intros _.
    eapply (hoare_bind _ _ (fun _ => one_row n)); [keeps_one_row|]. intros v.
    by apply hoare_ret.
  - eapply (hoare_bind _ _ (fun _ => one_row n)); [keeps_one_row|]. intros _.
    eapply (hoare_bind _ _ (fun _ => one_row n)); [keeps_one_row|]. intros new_block.
    destruct (Cache.block r); [|by apply hoare_ret].
    eapply (hoare_bind _ _ (fun _ => one_row n)); [by apply one_row_set_block|].
    intros _. eapply (hoare_bind _ _ (fun _ => one_row n)); [keeps_one_row|].
    intros v. by apply hoare_ret.
Qed.

Lemma one_row_set_val n addr val :
  Cache.index_of addr = Ok 0 ->
  hoare (one_row n) (Cache.set_val addr val) (fun _ => one_row n) (one_row n).
Proof.
  intros Hix. unfold Cache.set_val.
  eapply (hoare_bind _ _ (fun _ => one_row n)); [by apply hoare_lift|]. intros offset.
  eapply hoare_bind; [by apply one_row_get_block|]. intros [ix r]. cbn [fst snd].
  apply hoare_pure. intros Hvalid.
  destruct (Cache.valid r && _) eqn:Hhit.
  - apply andb_prop in Hhit as [Hv _]. rewrite (Hvalid Hv).
    eapply (hoare_bind _ _ (fun _ => one_row n)); [keeps_one_row|]. intros _.
    eapply (hoare_bind _ _ (fun _ => one_row n)); [keeps_one_row|]. intros _.
    eapply (hoare_bind _ _ (fun _ => one_row n)); [apply one_row_now|]. intros time.
    eapply (hoare_bind _ _ (fun _ => one_row n)); [apply one_row_setitem|]. intros _.
    keeps_one_row.
  - eapply (hoare_bind _ _ (fun _ => one_row n)); [keeps_one_row|]. intros _.
    eapply (hoare_bind _ _ (fun _ => one_row n)); [keeps_one_row|]. intros block.
    eapply (hoare_bind _ _ (fun _ => one_row n)).
    { destruct block; [by apply hoare_gets|by apply hoare_ret]. }
    intros in_ram. eapply (hoare_bind _ _ (fun _ => one_row n)).
    { destruct in_ram.
      - eapply (hoare_bind _ _ (fun _ => one_row n)); [keeps_one_row|]. intros _.
        by apply hoare_ret.
      - eapply (hoare_bind _ _ (fun _ => one_row n)); [by apply hoare_gets|]. intros c.
        eapply (hoare_bind _ _ (fun _ => one_row n)); [keeps_one_row|]. intros b.
        eapply (hoare_bind _ _ (fun _ => one_row n)); [keeps_one_row|]. intros _.
        eapply (hoare_bind _ _ (fun _ => one_row n)); [keeps_one_row|]. intros _.
        by apply hoare_ret. }
    intros b. by apply one_row_set_block.
Qed.

Lemma init_one_row bs n nbr pol wall rand cpu :
  CPU.__init__ bs n n nbr pol wall rand = Ok cpu -> one_row n (CPU.mem cpu).
Proof.
  unfold CPU.__init__. destruct (Cache.__init__ bs n n pol 0) as [c|e] eqn:Hc; [|done].
  intros [= <-]. destruct (init_geometry _ _ _ _ _ _ Hc) as (Hgeo & _ & _).
  split; simpl; [done|]. revert Hc. unfold Cache.__init__.
  destruct (Cache._get_sets n n) as [[bps sets]|]; [|done]. intros [= <-]. simpl.
  apply Forall_drop, Forall_replicate. done.
Qed.

Lemma perform_one_row n op cpu :
  one_row n (CPU.mem cpu) -> one_row n (CPU.mem (snd (perform op cpu))).
Proof.
  intros Hw.
  assert (exists r, CPU.decode (address_of op) cpu = (r, cpu)) as [[addr|e] Hd]
    by by eexists.
  - assert (Cache.index_of addr = Ok 0) as Hix.
    { revert Hd. unfold CPU.decode. destruct Hw as [[_ Hsize _ _ Hlen] _].
      unfold CPU.cache. rewrite Hsize, Hlen. intros [= Hinit].
      by apply fully_associative_index in Hinit as [_ ?]. }
    destruct op as [a|a v]; cbn [address_of] in Hd.
    + rewrite perform_snd_load, (load_mem _ _ _ Hd).
      exact (hoare_snd (one_row n) _ _ (one_row_get_val n addr Hix) Hw).
    + rewrite perform_snd_store, (store_mem _ _ _ _ Hd).
      exact (hoare_snd (one_row n) _ _ (one_row_set_val n addr v Hix) Hw).
  - destruct op as [a|a v]; cbn [address_of] in Hd.
    + rewrite perform_snd_load. unfold CPU.load. by rewrite (bind_Raise _ _ _ _ _ Hd).
    + rewrite perform_snd_store. unfold CPU.store. by rewrite (bind_Raise _ _ _ _ _ Hd).
Qed.

(** C10 as it holds: with as many sets as blocks every decoded address
    has an index of zero bits, every set has one row, and through any run
    no row but row 0 is ever valid. *)
Lemma fully_associative_uses_one_row bs n nbr pol wall rand cpu0 ops :
  CPU.__init__ bs n n nbr pol wall rand = Ok cpu0 ->
  let cpu := snd (replay ops cpu0) in
  Cache.blocks_per_set (CPU.cache cpu) = 1 /\
  (forall a addr, fst (CPU.decode a cpu) = Ok addr ->
                  Address._index_len addr = 0%Z /\ Cache.index_of addr = Ok 0) /\
  (forall i r, Cache.blocks (CPU.cache cpu) !! i = Some r -> 0 < i ->
               Cache.valid r = false).
Proof.
  intros Hinit cpu.
  assert (one_row n (CPU.mem cpu)) as [Hgeo Hinv].
  { unfold cpu. clear cpu. apply init_one_row in Hinit. revert cpu0 Hinit.
    induction ops as [|op ops IH]; intros cpu0 H0; [done|].
    rewrite replay_cons. by apply IH, perform_one_row. }
  split; [by apply (geometry_square_ways n)|]. split.
  - intros a addr. unfold CPU.decode. destruct Hgeo as [_ Hsize _ _ Hlen].
    unfold CPU.cache. rewrite Hsize, Hlen. simpl. apply fully_associative_index.
  - intros i r Hr Hi. destruct i as [|i]; [lia|].
    rewrite Forall_lookup in Hinv. apply (Hinv i). by rewrite lookup_drop.
Qed.

(** And every install over the valid row 0 -- what a store of another tag
    comes to -- replaces row 0. *)
Lemma fully_associative_install_replaces_row_0 n w addr data r0 :
  sound n n w -> one_row n w ->
  Cache.index_of addr = Ok 0 ->
  Cache.blocks (Cache.self w) !! 0 = Some r0 -> Cache.valid r0 = true ->
  exists w' t1 t2,
    Cache.set_block addr data w = (Ok tt, w') /\
    Cache.blocks (Cache.self w') =
      <[0 := installed (Address.get_tag addr) data t1 t2]> (Cache.blocks (Cache.self w)).
Proof.
  intros [Hgeo Hpol Hst] _ Hix Hr0 Hv0.
  destruct (geometry_square_ways n _ Hgeo) as [Hbps Hstart].
  destruct (decide (size (Cache.sets (Cache.self w)) = 1)) as [E|E].
  - destruct (set_block_direct w addr data 0 r0 E Hix Hr0) as (w' & Hrun & Hblocks & _).
    eauto.
  - assert (take 1 (drop 0 (Cache.blocks (Cache.self w))) = [r0]) as Hset.
    { rewrite drop_0. destruct (Cache.blocks (Cache.self w)) as [|r l]; [done|].
      simpl in Hr0. by injection Hr0 as ->. }
    assert (0 < length (Cache.blocks (Cache.self w))) as Hlen
      by by eapply lookup_lt_Some.
    assert (stamped r0) as Hs0 by exact (Forall_lookup_1 _ _ _ _ Hst Hr0).
    rewrite (set_block_full_set w addr data 0 0 E Hix Hstart)
      by (rewrite Hbps, Hset; by repeat constructor).
    set (w1 := snd (Cache.now w)).
    assert (Cache.self w1 = Cache.self w) as Hself by done.
    destruct (replace_spec w1 (Address.get_tag addr) 0 data 0)
      as (ix & w' & Hrun & Hlt & Hblocks & _ & Hrand & Hlru & Hfifo).
    { by rewrite Hself. }
    { by rewrite Hself. }
    { rewrite Hself, Hbps. lia. }
    { rewrite Hself, Hbps. lia. }
    { rewrite Hself, Hbps, Hset. repeat constructor. exact (Hs0 Hv0). }
    rewrite Hself, ?Hbps, ?Hset in *.
    assert (ix = 0) as ->.
    { destruct Hpol as [Hp|[Hp|Hp]].
      - specialize (Hrand Hp). lia.
      - destruct (Hlru Hp) as (ts & Hts & Hmin). apply first_min_lt in Hmin.
        apply (f_equal length) in Hts. rewrite !length_fmap in Hts. simpl in Hts. lia.
      - destruct (Hfifo Hp) as (ts & Hts & Hmin). apply first_min_lt in Hmin.
        apply (f_equal length) in Hts. rewrite !length_fmap in Hts. simpl in Hts. lia. }
    eauto.
Qed.

(** ** Binary strings as numbers *)

Lemma bits_fold acc s :
  fold_left (fun acc c => (2 * acc + if decide (c = "1"%char) then 1 else 0)%N) s acc
  = (acc * 2 ^ N.of_nat (length s) + bits s)%N.
Proof.
  unfold bits. revert acc. induction s as [|c s IH]; intros acc.
  - simpl. lia.
  - cbn [fold_left length]. rewrite IH, (IH (2 * 0 + _)%N).
    rewrite Nat2N.inj_succ, N.pow_succ_r'. lia.
Qed.

Lemma bits_cons c s :
  bits (c :: s)
  = ((if decide (c = "1"%char) then 1 else 0) * 2 ^ N.of_nat (length s) + bits s)%N.
Proof. unfold bits at 1. cbn [fold_left]. rewrite bits_fold. lia. Qed.

Lemma bits_app x y : bits (x ++ y) = (bits x * 2 ^ N.of_nat (length y) + bits y)%N.
Proof. unfold bits at 1. rewrite fold_left_app. fold (bits x). apply bits_fold. Qed.

Lemma bits_lt s : (bits s < 2 ^ N.of_nat (length s))%N.
Proof.
  induction s as [|c s IH]; [done|].
  rewrite bits_cons. cbn [length]. rewrite Nat2N.inj_succ, N.pow_succ_r'.
  destruct (decide _); lia.
Qed.

Lemma int2_digits_bits acc s :
  binary s -> int2_digits acc s = Ok (acc * 2 ^ N.of_nat (length s) + bits s)%N.
Proof.
  intros Hs. revert acc. induction Hs as [|c s Hc Hs IH]; intros acc.
  - simpl. f_equal. unfold bits. simpl. lia.
  - cbn [int2_digits]. rewrite bits_cons. cbn [length].
    rewrite Nat2N.inj_succ, N.pow_succ_r'.
    destruct Hc as [-> | ->].
    + rewrite decide_True by done. rewrite IH. f_equal.
      rewrite decide_False by done. lia.
    + rewrite decide_False by done. rewrite !decide_True by done. rewrite IH. f_equal. lia.
Qed.

Lemma int2_bits s : binary s -> s <> [] -> int2 s = Ok (bits s).
Proof.
  intros Hs Hne. rewrite int2_nonempty by done. by rewrite int2_digits_bits.
Qed.

Lemma bits_take k s :
  k <= length s -> bits (take k s) = (bits s / 2 ^ N.of_nat (length s - k))%N.
Proof.
  intros Hk. rewrite <- (take_drop k s) at 2. rewrite bits_app, length_drop.
  pose proof (bits_lt (drop k s)) as Hlt. rewrite length_drop in Hlt.
  rewrite N.div_add_l by (apply N.pow_nonzero; lia).
  rewrite N.div_small by done. lia.
Qed.

Lemma bits_drop k s :
  k <= length s -> bits (drop k s) = (bits s mod 2 ^ N.of_nat (length s - k))%N.
Proof.
  intros Hk. rewrite <- (take_drop k s) at 2. rewrite bits_app, length_drop.
  pose proof (bits_lt (drop k s)) as Hlt. rewrite length_drop in Hlt.
  symmetry. rewrite N.add_comm, N.Div0.mod_add. by apply N.mod_small.
Qed.

Lemma bits_inj s1 s2 :
  binary s1 -> binary s2 -> length s1 = length s2 -> bits s1 = bits s2 -> s1 = s2.
Proof.
  intros H1. revert s2. induction H1 as [|c1 s1 Hc1 H1 IH]; intros s2 H2 Hlen Hbits.
  - by destruct s2.
  - destruct H2 as [|c2 s2 Hc2 H2]; [done|]. cbn [length] in Hlen.
    injection Hlen as Hlen. rewrite !bits_cons, <- Hlen in Hbits.
    pose proof (bits_lt s1) as Hl1. pose proof (bits_lt s2) as Hl2.
    rewrite <- Hlen in Hl2.
    assert (c1 = c2 /\ bits s1 = bits s2) as [-> Hb].
    { set (p := (2 ^ N.of_nat (length s1))%N) in *.
      destruct Hc1 as [-> | ->], Hc2 as [-> | ->]; simpl in Hbits;
        (split; [done || exfalso|]); nia. }
    f_equal. by apply IH.
Qed.

Lemma get_binary_bits a : bits (Address._get_binary a) = a.
Proof.
  pose proof (get_binary_value a) as Hv.
  rewrite int2_bits in Hv; [congruence|apply get_binary_binary|].
  pose proof (get_binary_length_ge a). intros E. rewrite E in H. simpl in H. lia.
Qed.

(** X1: [_get_binary] loses nothing.  For every address the string it
    returns consists of binary digits, reads back as the address under
    [int(_, 2)], and has exactly 32 characters when the address is below
    2^32 and more than 32 otherwise: the prefix of zeros is empty then and
    the string is not cut. *)
Theorem get_binary_round_trip (a : N) :
  binary (Address._get_binary a) /\
  int2 (Address._get_binary a) = Ok a /\
  ((a < 2 ^ 32)%N -> length (Address._get_binary a) = 32) /\
  ((2 ^ 32 <= a)%N -> 32 < length (Address._get_binary a)).
Proof.
  split; [apply get_binary_binary|]. split; [apply get_binary_value|].
  split; [apply get_binary_length|]. intros Ha.
  pose proof (get_binary_length_ge a) as Hge.
  destruct (decide (length (Address._get_binary a) = 32)) as [E|]; [|lia].
  pose proof (bits_lt (Address._get_binary a)) as Hlt.
  rewrite get_binary_bits, E in Hlt. simpl in Hlt. lia.
Qed.

Lemma init_fields a block_size entries sets addr :
  Address.__init__ a block_size entries sets = Ok addr ->
  Address.address addr = Address._get_binary a /\
  log2_int block_size = Ok (Address._offset_len addr) /\
  Address._get_index_len sets entries = Ok (Address._index_len addr) /\
  Address._tag_len addr = (32 - Address._offset_len addr - Address._index_len addr)%Z.
Proof.
  unfold Address.__init__. destruct (log2_int block_size) as [o|]; [|done].
  destruct (Address._get_index_len sets entries) as [i|]; [|done].
  by intros [= <-].
Qed.

(** The three fields of an address below 2^32 whose offset and index fit in
    32 bits, as list operations on its 32 digits. *)
Lemma fields_of_32_bits a block_size entries sets addr :
  Address.__init__ a block_size entries sets = Ok addr ->
  (a < 2 ^ 32)%N ->
  (0 < Address._offset_len addr)%Z ->
  (Address._offset_len addr + Address._index_len addr <= 32)%Z ->
  let o := Z.to_nat (Address._offset_len addr) in
  let i := Z.to_nat (Address._index_len addr) in
  Address.get_tag addr = take (32 - o - i) (Address._get_binary a) /\
  Address.get_index addr = take i (drop (32 - o - i) (Address._get_binary a)) /\
  Address.get_offset addr = drop (32 - o) (Address._get_binary a) /\
  Address.get_tag addr ++ Address.get_index addr = take (32 - o) (Address._get_binary a).
Proof.
  intros Hinit Ha Ho Hfit o i.
  pose proof (init_decoded _ _ _ _ _ Hinit) as [_ _ _ Hi].
  destruct (init_fields _ _ _ _ _ Hinit) as (Haddr & _ & _ & Htag).
  pose proof (get_binary_length a Ha) as Hlen.
  assert (Address.get_tag addr = take (32 - o - i) (Address._get_binary a)) as Et.
  { unfold Address.get_tag. rewrite slice_prefix, Haddr by lia. subst o i. f_equal. lia. }
  assert (Address.get_index addr = take i (drop (32 - o - i) (Address._get_binary a)))
    as Ei.
  { unfold Address.get_index. rewrite slice_middle, Haddr by lia.
    subst o i. do 2 f_equal. lia. }
  assert (Address.get_offset addr = drop (32 - o) (Address._get_binary a)) as Eo.
  { unfold Address.get_offset. rewrite slice_suffix, Haddr, Hlen by (rewrite ?Haddr; lia).
    subst o. done. }
  repeat split; try done.
  rewrite Et, Ei, take_take_drop. f_equal. lia.
Qed.

(** The fields of such an address as numbers. *)
Section Fields.
Variables (a block_size entries sets : N) (addr : Address.t).
Hypothesis Hinit : Address.__init__ a block_size entries sets = Ok addr.
Hypothesis Ha : (a < 2 ^ 32)%N.
Hypothesis Ho : (0 < Address._offset_len addr < 32)%Z.
Hypothesis Hfit : (Address._offset_len addr + Address._index_len addr <= 32)%Z.

Lemma offset_as_number :
  int2 (Address.get_offset addr) = Ok (a mod 2 ^ Z.to_N (Address._offset_len addr))%N.
Proof.
  pose proof (init_decoded _ _ _ _ _ Hinit) as [_ _ _ Hi].
  destruct (fields_of_32_bits _ _ _ _ _ Hinit Ha) as (_ & _ & Eo & _); [lia..|].
  pose proof (get_binary_length a Ha) as Hlen.
  rewrite Eo, int2_bits.
  - rewrite bits_drop, get_binary_bits, Hlen by lia. do 3 f_equal. lia.
  - unfold binary. apply Forall_drop, get_binary_binary.
  - intros E. apply (f_equal length) in E. rewrite length_drop, Hlen in E.
    simpl in E. lia.
Qed.

Lemma row_as_number :
  int2 (Address.get_tag addr ++ Address.get_index addr)
  = Ok (a / 2 ^ Z.to_N (Address._offset_len addr))%N.
Proof.
  pose proof (init_decoded _ _ _ _ _ Hinit) as [_ _ _ Hi].
  destruct (fields_of_32_bits _ _ _ _ _ Hinit Ha) as (_ & _ & _ & Eti); [lia..|].
  pose proof (get_binary_length a Ha) as Hlen.
  rewrite Eti, int2_bits.
  - rewrite bits_take, get_binary_bits, Hlen by lia. do 3 f_equal. lia.
  - unfold binary. apply Forall_take, get_binary_binary.
  - intros E. apply (f_equal length) in E. rewrite length_take, Hlen in E.
    simpl in E. lia.
Qed.

Lemma index_as_number :
  Cache.index_of addr
  = Ok (N.to_nat ((a / 2 ^ Z.to_N (Address._offset_len addr))
                  mod 2 ^ Z.to_N (Address._index_len addr))).
Proof.
  pose proof (init_decoded _ _ _ _ _ Hinit) as [_ _ _ Hi].
  destruct (fields_of_32_bits _ _ _ _ _ Hinit Ha) as (_ & Ei & _ & _); [lia..|].
  pose proof (get_binary_length a Ha) as Hlen.
  pose proof (get_binary_binary a) as Hbin.
  pose proof (get_binary_bits a) as Hbits.
  set (o := Z.to_nat (Address._offset_len addr)) in *.
  set (i := Z.to_nat (Address._index_len addr)) in *.
  assert (Z.to_N (Address._offset_len addr) = N.of_nat o) as -> by lia.
  assert (Z.to_N (Address._index_len addr) = N.of_nat i) as -> by lia.
  assert (0 < o < 32 /\ o + i <= 32) as [Ho' Hfit'] by lia.
  unfold Cache.index_of. rewrite Ei.
  assert (bits (take i (drop (32 - o - i) (Address._get_binary a)))
          = ((a / 2 ^ N.of_nat o) mod 2 ^ N.of_nat i)%N) as Hv.
  { rewrite <- Hbits at 2.
    replace (bits (Address._get_binary a) / 2 ^ N.of_nat o)%N
      with (bits (take (32 - o) (Address._get_binary a)))
      by (rewrite bits_take, Hlen by lia; do 2 f_equal; lia).
    replace (take i (drop (32 - o - i) (Address._get_binary a)))
      with (drop (32 - o - i) (take (32 - o) (Address._get_binary a))).
    - rewrite bits_drop by (rewrite length_take; lia).
      rewrite length_take, Hlen. do 3 f_equal. lia.
    - rewrite take_drop_commute. do 2 f_equal. lia. }
  destruct (take i (drop (32 - o - i) (Address._get_binary a))) as [|c s] eqn:Es.
  - rewrite <- Hv. done.
  - rewrite int2_bits, Hv; [done| |done].
    rewrite <- Es. unfold binary. by apply Forall_take, Forall_drop.
Qed.

Lemma tag_as_number :
  bits (Address.get_tag addr)
  = (a / 2 ^ Z.to_N (Address._offset_len addr + Address._index_len addr))%N.
Proof.
  pose proof (init_decoded _ _ _ _ _ Hinit) as [_ _ _ Hi].
  destruct (fields_of_32_bits _ _ _ _ _ Hinit Ha) as (Et & _ & _ & _); [lia..|].
  pose proof (get_binary_length a Ha) as Hlen.
  rewrite Et, bits_take, get_binary_bits, Hlen by lia. do 2 f_equal. lia.
Qed.

End Fields.

(** X2: the decoder computes a quotient and a remainder.  For an address
    below 2^32 and a geometry whose offset has between 1 and 31 bits and
    fits in 32 bits together with the index, the offset is the address
    modulo [2 ^ offset_len], the row of the RAM ([int(tag + index, 2)]) is
    the address divided by [2 ^ offset_len], the set index is that quotient
    modulo [2 ^ index_len], and the tag is what is left above; so the row
    and the offset give the address back. *)
Theorem decoded_fields_are_quotient_and_remainder (a block_size entries sets : N)
    (addr : Address.t) :
  Address.__init__ a block_size entries sets = Ok addr ->
  (a < 2 ^ 32)%N ->
  (0 < Address._offset_len addr < 32)%Z ->
  (Address._offset_len addr + Address._index_len addr <= 32)%Z ->
  exists offset row index,
    int2 (Address.get_offset addr) = Ok offset /\
    int2 (Address.get_tag addr ++ Address.get_index addr) = Ok row /\
    Cache.index_of addr = Ok index /\
    offset = (a mod 2 ^ Z.to_N (Address._offset_len addr))%N /\
    row = (a / 2 ^ Z.to_N (Address._offset_len addr))%N /\
    N.of_nat index = (row mod 2 ^ Z.to_N (Address._index_len addr))%N /\
    bits (Address.get_tag addr) = (row / 2 ^ Z.to_N (Address._index_len addr))%N /\
    a = (row * 2 ^ Z.to_N (Address._offset_len addr) + offset)%N.
Proof.
  intros Hinit Ha Ho Hfit.
  pose proof (init_decoded _ _ _ _ _ Hinit) as [_ _ _ Hi].
  eexists _, _, _.
  split; [by eapply offset_as_number|].
  split; [by eapply row_as_number|].
  split; [by eapply index_as_number|].
  split; [done|]. split; [done|]. split; [by rewrite N2Nat.id|]. split.
  - erewrite tag_as_number by done.
    rewrite N.Div0.div_div, <- N.pow_add_r. do 2 f_equal. lia.
  - rewrite N.mul_comm. apply N.div_mod. apply N.pow_nonzero. lia.
Qed.

Lemma decoded_fields_are_quotient_and_remainder_witness :
  exists addr offset row index,
    Address.__init__ 1000 64 32 16 = Ok addr /\
    int2 (Address.get_offset addr) = Ok offset /\
    int2 (Address.get_tag addr ++ Address.get_index addr) = Ok row /\
    Cache.index_of addr = Ok index /\
    offset = 40%N /\ row = 15%N /\ index = 15 /\ bits (Address.get_tag addr) = 0%N.
Proof.
  assert (exists addr, Address.__init__ 1000 64 32 16 = Ok addr) as [addr Hinit]
    by (eexists; reflexivity).
  pose proof (init_fields _ _ _ _ _ Hinit) as (_ & Ho & Hi & _).
  injection Ho as Ho. injection Hi as Hi.
  destruct (decoded_fields_are_quotient_and_remainder 1000 64 32 16 addr Hinit)
    as (offset & row & index & H1 & H2 & H3 & H4 & H5 & H6 & H7 & _).
  - reflexivity.
  - rewrite <- Ho. lia.
  - rewrite <- Ho, <- Hi. lia.
  - rewrite <- Ho in H4, H5. rewrite <- Hi in H6, H7.
    exists addr, offset, row, index. subst offset row.
    split; [done|]. split; [done|]. split; [done|]. split; [done|].
    split; [reflexivity|]. split; [reflexivity|]. split.
    + apply Nat2N.inj. rewrite H6. reflexivity.
    + rewrite H7. reflexivity.
Defined.

(** X3: a block size of 1 leaves the offset no bits, and Python's
    [address[-0:]] is then the whole string: the offset of every address
    is the address itself, not 0. *)
Theorem offset_of_one_byte_blocks_is_the_address (a entries sets : N) (addr : Address.t) :
  Address.__init__ a 1 entries sets = Ok addr ->
  Address.get_offset addr = Address.address addr /\
  int2 (Address.get_offset addr) = Ok a.
Proof.
  intros Hinit. destruct (init_fields _ _ _ _ _ Hinit) as (Haddr & Ho & _ & _).
  injection Ho as Ho.
  assert (Address.get_offset addr = Address.address addr) as E.
  { unfold Address.get_offset, slice. rewrite <- Ho. simpl.
    by rewrite Nat.sub_0_r, firstn_all. }
  split; [done|]. rewrite E, Haddr. apply get_binary_value.
Qed.

Lemma offset_of_one_byte_blocks_is_the_address_witness :
  exists addr,
    Address.__init__ 1000 1 32 16 = Ok addr /\
    Address.get_offset addr = Address.address addr /\
    int2 (Address.get_offset addr) = Ok 1000%N.
Proof.
  eexists. split; [reflexivity|].
  apply (offset_of_one_byte_blocks_is_the_address 1000 32 16). reflexivity.
Defined.

(** ** The addresses of the workloads *)

Lemma range_words start n :
  cache_sim.range start (start + n * cache_sim.SIZE) cache_sim.SIZE
  = Ok ((fun k => start + k * cache_sim.SIZE) <$> seq 0 n).
Proof.
  unfold cache_sim.range, cache_sim.SIZE. rewrite decide_False by done.
  do 3 f_equal. replace (start + n * 8 - start + (8 - 1)) with (7 + n * 8) by lia.
  rewrite Nat.div_add by done. done.
Qed.

Lemma append_rows_total (f : nat -> list nat) row indices x :
  (forall i, i ∈ indices -> row i = Ok (f i)) ->
  cache_sim.append_rows row indices x = Ok (x ++ (f <$> indices)).
Proof.
  revert x. induction indices as [|i indices IH]; intros x Hrow.
  - simpl. by rewrite app_nil_r.
  - cbn [cache_sim.append_rows]. rewrite (Hrow i) by set_solver.
    rewrite IH by (intros j Hj; apply Hrow; set_solver).
    by rewrite <- app_assoc.
Qed.

Lemma fmap_seq_from {B} (f : nat -> B) s n :
  f <$> seq s n = (fun k => f (s + k)) <$> seq 0 n.
Proof.
  rewrite <- (Nat.add_0_r s) at 1. by rewrite <- fmap_add_seq, <- list_fmap_compose.
Qed.

(** The rows of a matrix of dimension [n] laid out from [base]. *)
Lemma concat_rows base n s m :
  concat ((fun i => (fun k => base + i * n * cache_sim.SIZE + k * cache_sim.SIZE) <$> seq 0 n)
            <$> seq s m)
  = (fun k => base + k * cache_sim.SIZE) <$> seq (s * n) (m * n).
Proof.
  revert s. induction m as [|m IH]; intros s; [done|].
  cbn [seq fmap list_fmap concat]. rewrite IH.
  replace (S m * n) with (n + m * n) by lia. rewrite seq_app, fmap_app.
  f_equal; [|do 2 f_equal; lia].
  rewrite (fmap_seq_from _ (s * n)).
  apply list_fmap_ext. intros _ k _. simpl. lia.
Qed.

Lemma last_of_rows base n :
  0 < n ->
  exists r,
    last ((fun i => (fun k => base + i * n * cache_sim.SIZE + k * cache_sim.SIZE) <$> seq 0 n)
            <$> seq 0 n) = Some r /\
    last r = Some (base + (n * n - 1) * cache_sim.SIZE).
Proof.
  intros Hn. destruct n as [|n]; [lia|].
  eexists. split.
  - rewrite (seq_S n 0), fmap_app. simpl. by rewrite last_snoc.
  - rewrite fmap_app. simpl. rewrite last_snoc. f_equal.
    unfold cache_sim.SIZE. nia.
Qed.

Lemma row_after_rows base n i :
  0 < n ->
  cache_sim.row_after
    ((fun i => (fun k => base + i * n * cache_sim.SIZE + k * cache_sim.SIZE) <$> seq 0 n)
       <$> seq 0 n) n i
  = Ok ((fun k => (base + n * n * cache_sim.SIZE) + i * n * cache_sim.SIZE
                  + k * cache_sim.SIZE) <$> seq 0 n).
Proof.
  intros Hn. destruct (last_of_rows base n Hn) as (r & Hr & He).
  unfold cache_sim.row_after, cache_sim.last_item. rewrite Hr, He.
  rewrite range_words. f_equal. apply list_fmap_ext. intros _ k _.
  unfold cache_sim.SIZE. nia.
Qed.

(** The layout of the operands: one after the other from address 0, a
    word apart. *)
Lemma create_addresses_layout (n : nat) (matrix : bool) :
  exists ads,
    cache_sim.create_addresses n matrix = Ok ads /\
    operands_of_dimension n ads /\
    flat ads = (fun k => k * cache_sim.SIZE)
                 <$> seq 0 (cache_sim.ram_size matrix n / cache_sim.SIZE).
Proof.
  destruct matrix.
  - set (rows base :=
           (fun i => (fun k => base + i * n * cache_sim.SIZE + k * cache_sim.SIZE)
                       <$> seq 0 n) <$> seq 0 n).
    assert (forall base, Forall (fun r => length r = n) (rows base) /\ length (rows base) = n)
      as Hshape.
    { intros base. unfold rows. split; [|by rewrite length_fmap, length_seq].
      apply Forall_fmap, Forall_forall. intros i _. simpl.
      by rewrite length_fmap, length_seq. }
    assert (cache_sim.create_addresses n true
            = Ok (cache_sim.Matrices (rows 0) (rows (n * n * cache_sim.SIZE))
                                     (rows (2 * n * n * cache_sim.SIZE)))) as ->.
    { unfold cache_sim.create_addresses.
      rewrite (append_rows_total
                 (fun i => (fun k => 0 + i * n * cache_sim.SIZE + k * cache_sim.SIZE)
                             <$> seq 0 n))
        by (intros i _; apply range_words).
      cbn [app]. fold (rows 0).
      destruct (decide (n = 0)) as [->|Hn]; [done|].
      rewrite (append_rows_total
                 (fun i => (fun k => (0 + n * n * cache_sim.SIZE) + i * n * cache_sim.SIZE
                                     + k * cache_sim.SIZE) <$> seq 0 n))
        by (intros i _; apply row_after_rows; lia).
      cbn [app]. fold (rows (0 + n * n * cache_sim.SIZE)).
      rewrite (append_rows_total
                 (fun i => (fun k => (0 + n * n * cache_sim.SIZE + n * n * cache_sim.SIZE)
                                     + i * n * cache_sim.SIZE
                                     + k * cache_sim.SIZE) <$> seq 0 n))
        by (intros i _; apply row_after_rows; lia).
      cbn [app]. fold (rows (0 + n * n * cache_sim.SIZE + n * n * cache_sim.SIZE)).
      do 2 f_equal; f_equal; unfold cache_sim.SIZE; lia. }
    eexists. split; [done|]. split.
    + cbn [operands_of_dimension]. repeat constructor; apply Hshape.
    + cbn [flat]. unfold rows. rewrite !concat_rows, Nat.mul_0_l.
      replace (cache_sim.ram_size true n / cache_sim.SIZE) with (n * n + (n * n + n * n)).
      * rewrite !seq_app, !fmap_app.
        refine (f_equal2 app _ _); [|refine (f_equal2 app _ _)].
        -- apply list_fmap_ext. intros _ k _. simpl. lia.
        -- rewrite (fmap_seq_from _ (0 + n * n)).
           apply list_fmap_ext. intros _ k _. simpl. unfold cache_sim.SIZE. lia.
        -- rewrite (fmap_seq_from _ (0 + n * n + n * n)).
           apply list_fmap_ext. intros _ k _. simpl. unfold cache_sim.SIZE. lia.
      * unfold cache_sim.ram_size, cache_sim.SIZE.
        replace (8 * n * 3 * n) with ((n * n + (n * n + n * n)) * 8) by lia.
        by rewrite Nat.div_mul.
  - unfold cache_sim.create_addresses.
    pose proof (range_words 0 n) as Ha. simpl in Ha. rewrite Ha.
    pose proof (range_words (n * cache_sim.SIZE) n) as Hb.
    replace (n * cache_sim.SIZE + n * cache_sim.SIZE) with (2 * n * cache_sim.SIZE)
      in Hb by lia. rewrite Hb.
    pose proof (range_words (2 * n * cache_sim.SIZE) n) as Hc.
    replace (2 * n * cache_sim.SIZE + n * cache_sim.SIZE) with (3 * n * cache_sim.SIZE)
      in Hc by lia. rewrite Hc.
    eexists. split; [done|]. split.
    + cbn [operands_of_dimension]. by rewrite !length_fmap, !length_seq.
    + cbn [flat].
      replace (cache_sim.ram_size false n / cache_sim.SIZE) with (n + (n + n)).
      * rewrite !seq_app, !fmap_app.
        refine (f_equal2 app _ _); [|refine (f_equal2 app _ _)].
        -- apply list_fmap_ext. intros _ k _. simpl. lia.
        -- rewrite (fmap_seq_from _ (0 + n)).
           apply list_fmap_ext. intros _ k _. simpl. unfold cache_sim.SIZE. lia.
        -- rewrite (fmap_seq_from _ (0 + n + n)).
           apply list_fmap_ext. intros _ k _. simpl. unfold cache_sim.SIZE. lia.
      * unfold cache_sim.ram_size, cache_sim.SIZE.
        replace (8 * n * 3) with ((n + (n + n)) * 8) by lia.
        by rewrite Nat.div_mul.
Qed.

Lemma ram_size_words matrix n :
  cache_sim.ram_size matrix n
  = cache_sim.ram_size matrix n / cache_sim.SIZE * cache_sim.SIZE.
Proof.
  unfold cache_sim.ram_size, cache_sim.SIZE. destruct matrix.
  - replace (8 * n * 3 * n) with (n * 3 * n * 8) by lia. by rewrite Nat.div_mul.
  - replace (8 * n * 3) with (n * 3 * 8) by lia. by rewrite Nat.div_mul.
Qed.

(** X4: [create_addresses] never raises, gives each of the three operands
    the dimension it is asked for, and lays the operands out without a gap
    or an overlap: no address occurs twice, every address is a multiple of
    the word size, its word ends within the RAM size that [get_inputs]
    computes for the workload, and every word of that size is the address
    of some entry. *)
Theorem create_addresses_tiles_the_ram (n : nat) (matrix : bool) :
  exists ads,
    cache_sim.create_addresses n matrix = Ok ads /\
    operands_of_dimension n ads /\
    NoDup (flat ads) /\
    forall x, x ∈ flat ads <->
              x mod cache_sim.SIZE = 0 /\
              x + cache_sim.SIZE <= cache_sim.ram_size matrix n.
Proof.
  destruct (create_addresses_layout n matrix) as (ads & Hads & Hdim & Hflat).
  exists ads. split; [done|]. split; [done|]. rewrite Hflat.
  pose proof (ram_size_words matrix n) as Hwords.
  set (words := cache_sim.ram_size matrix n / cache_sim.SIZE) in *.
  split.
  - apply NoDup_fmap_2; [|apply NoDup_seq].
    intros j k Hjk. unfold cache_sim.SIZE in Hjk. lia.
  - intros x. rewrite list_elem_of_fmap. setoid_rewrite elem_of_seq. split.
    + intros (k & -> & Hk). split; [apply Nat.Div0.mod_mul|].
      rewrite Hwords. unfold cache_sim.SIZE. lia.
    + intros [Hmod Hle]. exists (x / cache_sim.SIZE).
      pose proof (Nat.div_mod x cache_sim.SIZE) as Hdiv.
      unfold cache_sim.SIZE in *. split; [lia|].
      split; [lia|]. apply Nat.Div0.div_lt_upper_bound; lia.
Qed.

(** ** The capacity of the RAM *)

Lemma capacity_now : preserves capacity Cache.now.
Proof. done. Qed.
Lemma capacity_choice a b : preserves capacity (Cache.choice a b).
Proof. intros w. unfold Cache.choice. by destruct (decide _). Qed.
Lemma capacity_on_block {A} b (m : M Block.t A) : preserves capacity (Cache.on_block b m).
Proof. intros w. unfold Cache.on_block. destruct b; [|done]. by destruct (m _). Qed.
Lemma capacity_new_block n : preserves capacity (Cache.new_block n).
Proof. done. Qed.
Lemma capacity_setitem ix r : preserves capacity (Cache.blocks_setitem ix r).
Proof.
  intros w. unfold Cache.blocks_setitem, bind, gets, modify, raise.
  destruct ix; [destruct (decide _)|]; done.
Qed.
Lemma capacity_count_read_hit : preserves capacity Cache.count_read_hit.
Proof. done. Qed.
Lemma capacity_count_read_miss : preserves capacity Cache.count_read_miss.
Proof. done. Qed.
Lemma capacity_count_write_hit : preserves capacity Cache.count_write_hit.
Proof. done. Qed.
Lemma capacity_count_write_miss : preserves capacity Cache.count_write_miss.
Proof. done. Qed.
Lemma capacity_of_id {A} (m : M Cache.world A) : preserves id m -> preserves capacity m.
Proof. intros H w. specialize (H w). unfold id in H. by rewrite H. Qed.

Lemma capacity_ram_get_block tag index :
  preserves capacity (Cache.on_ram (RAM.get_block tag index)).
Proof. intros w. by rewrite on_ram_get_block. Qed.

Lemma capacity_ram_set_block tag index data :
  preserves capacity (Cache.on_ram (RAM.set_block tag index data)).
Proof.
  intros w. unfold Cache.on_ram, RAM.set_block, bind, lift, gets, modify, raise, capacity.
  destruct (int2 (tag ++ index)); [|done].
  destruct (decide _); [|done]. simpl. by rewrite length_insert.
Qed.

#[local] Hint Resolve capacity_now capacity_choice capacity_on_block capacity_new_block
  capacity_setitem capacity_count_read_hit capacity_count_read_miss
  capacity_count_write_hit capacity_count_write_miss
  capacity_ram_get_block capacity_ram_set_block : preserves.

Lemma capacity_data_getitem b n : preserves capacity (Cache.data_getitem b n).
Proof. apply capacity_of_id, data_getitem_pure. Qed.
Lemma capacity_get_block addr : preserves capacity (Cache.get_block addr).
Proof. apply capacity_of_id, get_block_pure. Qed.

#[local] Hint Resolve capacity_data_getitem capacity_get_block : preserves.

Lemma capacity_set_block addr data : preserves capacity (Cache.set_block addr data).
Proof. unfold Cache.set_block, Cache.replace. preserve. Qed.

#[local] Hint Resolve capacity_set_block : preserves.

Lemma capacity_get_val addr : preserves capacity (Cache.get_val addr).
Proof. unfold Cache.get_val. preserve. Qed.

Lemma capacity_set_val addr val : preserves capacity (Cache.set_val addr val).
Proof. unfold Cache.set_val. preserve. Qed.

(** What no access changes stays as it is through a run. *)
Lemma replay_preserves {X} (f : Cache.world -> X) ops cpu :
  (forall addr, preserves f (Cache.get_val addr)) ->
  (forall addr val, preserves f (Cache.set_val addr val)) ->
  f (CPU.mem (snd (replay ops cpu))) = f (CPU.mem cpu).
Proof.
  intros Hget Hset. revert cpu. induction ops as [|op ops IH]; intros cpu; [done|].
  rewrite replay_cons, IH.
  destruct (perform_mem op cpu) as [->|[addr ->]]; [done|].
  destruct op; [apply Hget|apply Hset].
Qed.

Lemma log2_power_of_two n : power_of_two n -> (2 ^ N.log2 n = n)%N.
Proof. intros [k ->]. by rewrite N.log2_pow2 by lia. Qed.

(** X5: no access of a workload leaves the RAM that [main] sizes for it.
    For a block size that is a power of two between 2 and 2^31, a geometry
    whose offset and index fit in 32 bits, and a workload of at most 2^32
    bytes: in every state of a run on the processor [main] constructs,
    every address [create_addresses] hands out decodes, and its row
    [int(tag + index, 2)] is a row of the RAM, so that neither
    [RAM.get_block] nor [RAM.set_block] can raise an [IndexError] on
    it. *)
Theorem workload_addresses_fit_the_ram (blocksize nway cachesize n : nat) (matrix : bool)
    (policy : str) (wall : nat -> Z) (rand : nat -> nat) (cpu0 : CPU.t)
    (ads : cache_sim.addresses) (x : nat) (ops : list access) :
  cache_sim.main_cpu blocksize nway cachesize n matrix policy wall rand = Ok cpu0 ->
  cache_sim.create_addresses n matrix = Ok ads ->
  x ∈ flat ads ->
  power_of_two (N.of_nat blocksize) -> (2 <= N.of_nat blocksize < 2 ^ 32)%N ->
  fits_32_bits (N.of_nat blocksize) (N.of_nat cachesize) (N.of_nat nway) ->
  (N.of_nat (cache_sim.ram_size matrix n) <= 2 ^ 32)%N ->
  exists addr row,
    CPU.decode (N.of_nat x) (snd (replay ops cpu0)) = (Ok addr, snd (replay ops cpu0)) /\
    int2 (Address.get_tag addr ++ Address.get_index addr) = Ok (N.of_nat (x / blocksize)) /\
    ram_row (CPU.mem (snd (replay ops cpu0))) addr = Some row.
Proof.
  intros Hcpu Hads Hx Hpow Hbs (o & i & Ho & Hi & Hfit) Hsize.
  (* the address is a word of the workload *)
  destruct (create_addresses_layout n matrix) as (ads' & Hads' & _ & Hflat).
  rewrite Hads in Hads'. injection Hads' as <-. rewrite Hflat in Hx.
  apply list_elem_of_fmap in Hx as (k & -> & Hk). apply elem_of_seq in Hk.
  assert (k * cache_sim.SIZE < cache_sim.ram_size matrix n) as Hlt.
  { rewrite (ram_size_words matrix n). unfold cache_sim.SIZE in *. nia. }
  set (x := k * cache_sim.SIZE) in *.
  (* the processor of [main] *)
  revert Hcpu. unfold cache_sim.main_cpu, cache_sim.blocks_in_ram.
  destruct (decide (blocksize = 0)) as [|_]; [lia|]. intros Hcpu.
  set (rows := (cache_sim.ram_size matrix n + blocksize - 1) / blocksize) in *.
  assert (shape (CPU.mem (snd (replay ops cpu0))) = shape (CPU.mem cpu0)) as Hshape
    by (apply replay_preserves; [apply preserves_shape_get_val|apply preserves_shape_set_val]).
  assert (capacity (CPU.mem (snd (replay ops cpu0))) = capacity (CPU.mem cpu0)) as Hcap
    by (apply replay_preserves; [apply capacity_get_val|apply capacity_set_val]).
  assert (shape (CPU.mem cpu0)
          = (blocksize, policy, Cache.sets (CPU.cache cpu0),
             Cache.blocks_per_set (CPU.cache cpu0), cachesize) /\
          size (Cache.sets (CPU.cache cpu0)) = nway /\
          capacity (CPU.mem cpu0) = rows) as (Hshape0 & Hsets & Hcap0).
  { revert Hcpu. unfold CPU.__init__.
    destruct (Cache.__init__ blocksize nway cachesize policy 0) as [c|] eqn:Hc; [|done].
    intros [= <-]. destruct (init_geometry _ _ _ _ _ _ Hc) as ([] & Hb & Hp).
    unfold shape, capacity, CPU.cache. simpl. rewrite Hb, Hp.
    repeat split; try done; [congruence|by rewrite length_replicate]. }
  rewrite Hshape0 in Hshape. unfold shape in Hshape.
  injection Hshape as Hb _ Hs _ Hl.
  set (cpu := snd (replay ops cpu0)) in *.
  assert (exists addr, Address.__init__ (N.of_nat x) (N.of_nat blocksize)
                         (N.of_nat cachesize) (N.of_nat nway) = Ok addr) as [addr Hinit].
  { unfold Address.__init__. rewrite Ho, Hi. by eexists. }
  destruct (init_fields _ _ _ _ _ Hinit) as (_ & Ho' & Hi' & _).
  assert (Address._offset_len addr = o) as Eo by congruence.
  assert (Address._index_len addr = i) as Ei by congruence.
  assert (o = Z.of_N (N.log2 (N.of_nat blocksize))) as Eo'.
  { rewrite log2_int_pos in Ho by lia. congruence. }
  pose proof (log2_power_of_two _ Hpow) as Hpow2.
  assert (0 < o < 32)%Z as Hrange.
  { rewrite Eo'. split.
    - assert (0 < N.log2 (N.of_nat blocksize))%N; [|lia]. apply N.log2_pos. lia.
    - assert (N.log2 (N.of_nat blocksize) < 32)%N; [|lia].
      apply N.log2_lt_pow2; lia. }
  pose proof (row_as_number (N.of_nat x) _ _ _ addr Hinit) as Hrow.
  rewrite Eo, Ei in Hrow. specialize (Hrow ltac:(lia) Hrange ltac:(lia)).
  rewrite <- Eo in Hrow.
  assert ((N.of_nat x / 2 ^ Z.to_N (Address._offset_len addr))%N
          = N.of_nat (x / blocksize)) as Hq.
  { rewrite Eo, Eo', N2Z.id, Hpow2. by rewrite Nat2N.inj_div. }
  rewrite Hq in Hrow.
  exists addr.
  assert (x / blocksize < rows) as Hin.
  { unfold rows. apply Nat.Div0.div_lt_upper_bound.
    pose proof (Nat.div_mod (cache_sim.ram_size matrix n + blocksize - 1) blocksize).
    pose proof (Nat.mod_upper_bound (cache_sim.ram_size matrix n + blocksize - 1) blocksize).
    pose proof (Nat.div_mod x blocksize).
    pose proof (Nat.mod_upper_bound x blocksize).
    nia. }
  destruct (lookup_lt_is_Some_2 (RAM.blocks (Cache.ram (CPU.mem cpu))) (x / blocksize))
    as [row Hlook].
  { fold (capacity (CPU.mem cpu)). lia. }
  exists row. split; [|split; [done|]].
  - unfold CPU.decode, CPU.cache in *. by rewrite Hb, Hl, Hs, Hsets, Hinit.
  - unfold ram_row. rewrite Hrow, Nat2N.id. done.
Qed.

Lemma workload_addresses_fit_the_ram_witness :
  exists cpu0 addr row,
    cache_sim.main_cpu 64 2 1024 4 false Cache.LRU ticking draw_zero = Ok cpu0 /\
    CPU.decode 40 (snd (replay [Store 0 (Float 1); Load 8] cpu0))
      = (Ok addr, snd (replay [Store 0 (Float 1); Load 8] cpu0)) /\
    int2 (Address.get_tag addr ++ Address.get_index addr) = Ok 0%N /\
    ram_row (CPU.mem (snd (replay [Store 0 (Float 1); Load 8] cpu0))) addr = Some row.
Proof.
  assert (exists cpu0,
             cache_sim.main_cpu 64 2 1024 4 false Cache.LRU ticking draw_zero = Ok cpu0)
    as [cpu0 Hcpu] by (eexists; reflexivity).
  assert (exists ads, cache_sim.create_addresses 4 false = Ok ads /\ 40 ∈ flat ads)
    as (ads & Hads & Hin).
  { eexists. split; [reflexivity|]. simpl. set_solver. }
  destruct (workload_addresses_fit_the_ram 64 2 1024 4 false Cache.LRU ticking draw_zero
              cpu0 ads 40 [Store 0 (Float 1); Load 8] Hcpu Hads Hin)
    as (addr & row & Hdec & Hrow & Hram).
  - by exists 6%N.
  - lia.
  - exists 6%Z, 1%Z. repeat split; [reflexivity..|lia].
  - unfold cache_sim.ram_size, cache_sim.SIZE. lia.
  - exists cpu0, addr, row. split; [done|]. split; [done|]. split; [|done].
    rewrite Hrow. reflexivity.
Defined.

(** X6: the processor [main] constructs.  The construction raises (a
    [ZeroDivisionError]) exactly when the block size or the associativity
    is zero.  Otherwise the cache has as many rows as [-c] gives bytes,
    not bytes over block size, in as many sets as [-n] gives ways, set [i]
    starting at row [i * (cachesize // nway)]; nothing in the cache or the
    RAM is valid, the counters are zero, and the RAM has just enough rows
    for the bytes of the workload. *)
Theorem main_builds_cachesize_rows (blocksize nway cachesize dimension : nat)
    (mxm : bool) (policy : str) (wall : nat -> Z) (rand : nat -> nat) :
  match cache_sim.main_cpu blocksize nway cachesize dimension mxm policy wall rand with
  | Raise e => e = ZeroDivisionError /\ (blocksize = 0 \/ nway = 0)
  | Ok cpu =>
      blocksize <> 0 /\ nway <> 0 /\
      geometry nway cachesize (CPU.cache cpu) /\
      Cache.block_size (CPU.cache cpu) = blocksize /\
      Cache.replacement (CPU.cache cpu) = policy /\
      Forall (fun r => Cache.valid r = false) (Cache.blocks (CPU.cache cpu)) /\
      Forall (fun r => RAM.valid r = false) (RAM.blocks (CPU.ram cpu)) /\
      cache_sim.ram_size mxm dimension <= capacity (CPU.mem cpu) * blocksize
        < cache_sim.ram_size mxm dimension + blocksize /\
      counters (CPU.mem cpu) = (0, 0, 0, 0) /\
      CPU.instructions cpu = 0
  end.
Proof.
  unfold cache_sim.main_cpu, cache_sim.blocks_in_ram.
  destruct (decide (blocksize = 0)) as [->|Hbs]; [by auto|].
  unfold CPU.__init__.
  destruct (Cache.__init__ blocksize nway cachesize policy 0) as [c|e] eqn:Hc.
  - destruct (init_geometry _ _ _ _ _ _ Hc) as (Hgeo & Hb & Hp).
    pose proof (geometry_num_sets _ _ _ Hgeo) as Hns.
    revert Hc. unfold Cache.__init__.
    destruct (Cache._get_sets nway cachesize) as [[bps sets]|]; [|done].
    intros [= <-]. unfold CPU.cache, CPU.ram, capacity, counters in *. simpl in *.
    pose proof (Nat.div_mod (cache_sim.ram_size mxm dimension + blocksize - 1) blocksize Hbs).
    pose proof (Nat.mod_upper_bound
                  (cache_sim.ram_size mxm dimension + blocksize - 1) blocksize Hbs).
    rewrite length_replicate.
    split_and!; try done; try lia; try (by apply Forall_replicate); nia.
  - revert Hc. unfold Cache.__init__, Cache._get_sets.
    destruct (decide (nway = 0)) as [->|]; [|done]. intros [= <-]. auto.
Qed.

(** ** Lookup and install, way by way *)

Lemma lookup_way {A} (l : list A) start n i :
  take n (drop start l) !! i = (if decide (i < n) then l !! (start + i) else None).
Proof.
  destruct (decide (i < n)).
  - by rewrite lookup_take_lt, lookup_drop.
  - by rewrite lookup_take_ge by lia.
Qed.



(** X8: an install into a set with an invalid way.  In an associative
    cache [set_block] returns and occupies the first invalid way of the
    set of the address, at its position in the whole array: the row gets
    the tag of the address, the block, and the clock's reading in both
    time columns.  Nothing else changes but the clock, which was read once:
    the other rows, the counters, the blocks, the RAM and the random
    generator are as before. *)
Theorem install_takes_the_first_invalid_way (w : Cache.world) (addr : Address.t)
    (data : option loc) (index start way : nat) :
  size (Cache.sets (Cache.self w)) <> 1 ->
  Cache.index_of addr = Ok index ->
  Cache.sets (Cache.self w) !! index = Some start ->
  way < Cache.blocks_per_set (Cache.self w) ->
  (exists r, Cache.blocks (Cache.self w) !! (start + way) = Some r /\ Cache.valid r = false) ->
  (forall j r, j < way -> Cache.blocks (Cache.self w) !! (start + j) = Some r ->
               Cache.valid r = true) ->
  exists w',
    Cache.set_block addr data w = (Ok tt, w') /\
    Cache.self w' =
      Cache.with_blocks
        (<[start + way := installed (Address.get_tag addr) data
                            (Datetime (Cache.wall w (Cache.ticks w)))
                            (Datetime (Cache.wall w (Cache.ticks w)))]>
           (Cache.blocks (Cache.self w)))
        (Cache.self w) /\
    Cache.ticks w' = S (Cache.ticks w) /\
    Cache.heap w' = Cache.heap w /\ Cache.ram w' = Cache.ram w /\
    Cache.draws w' = Cache.draws w.
Proof.
  intros Hsize Hix Hstart Hway (r & Hr & Hv) Hfirst. unfold Cache.set_block.
  erewrite bind_Ok by reflexivity.
  erewrite bind_Ok by (unfold lift; rewrite Hix; reflexivity).
  erewrite bind_Ok by reflexivity. cbn [Cache.self].
  rewrite decide_False by done. rewrite Hstart, slice_nat.
  assert (list_find (fun r => Cache.valid r = false)
            (take (Cache.blocks_per_set (Cache.self w))
                  (drop start (Cache.blocks (Cache.self w)))) = Some (way, r)) as ->.
  { apply list_find_Some. split; [by rewrite lookup_way, decide_True|]. split; [done|].
    intros j y Hy Hj. rewrite lookup_way, decide_True in Hy by lia.
    by rewrite (Hfirst j y Hj Hy). }
  rewrite blocks_setitem_ok by (cbn [Cache.self]; by eapply lookup_lt_Some).
  eexists. split; [reflexivity|]. done.
Qed.

Lemma install_takes_the_first_invalid_way_witness :
  exists cpu0 addr w',
    CPU.__init__ 2 2 4 16 Cache.LRU ticking draw_zero = Ok cpu0 /\
    fst (CPU.decode 2 cpu0) = Ok addr /\
    Cache.set_block addr (Some 5) (CPU.mem cpu0) = (Ok tt, w') /\
    Cache.ticks w' = S (Cache.ticks (CPU.mem cpu0)).
Proof.
  assert (exists cpu0 addr,
    CPU.__init__ 2 2 4 16 Cache.LRU ticking draw_zero = Ok cpu0 /\
    fst (CPU.decode 2 cpu0) = Ok addr /\
    size (Cache.sets (Cache.self (CPU.mem cpu0))) <> 1 /\
    Cache.index_of addr = Ok 1 /\
    Cache.sets (Cache.self (CPU.mem cpu0)) !! 1 = Some 2 /\
    0 < Cache.blocks_per_set (Cache.self (CPU.mem cpu0)) /\
    exists r, Cache.blocks (Cache.self (CPU.mem cpu0)) !! (2 + 0) = Some r /\
              Cache.valid r = false)
    as (cpu0 & addr & H0 & H1 & Hsize & Hix & Hstart & Hway & Hrow).
  { eexists _, _. split; [reflexivity|].
    repeat (split; [vm_compute; first [reflexivity | lia]|]).
    eexists. split; vm_compute; reflexivity. }
  destruct (install_takes_the_first_invalid_way (CPU.mem cpu0) addr (Some 5) 1 2 0
              Hsize Hix Hstart Hway Hrow) as (w' & Hset & _ & Hticks & _).
  { intros j r Hj. lia. }
  by exists cpu0, addr, w'.
Defined.

(** X9: eviction under the random policy.  An install into a full
    set of an associative cache whose policy is [random] returns and
    overwrites a way of that set, the one the generator draws: the row gets
    the tag of the address, the block, and in both time columns the second
    reading of the clock ([set_block] reads it once, [replace] again).
    The other rows, the counters, the blocks and the RAM are as before. *)
Theorem random_eviction_stays_in_the_set (w : Cache.world) (addr : Address.t)
    (data : option loc) (index start : nat) :
  size (Cache.sets (Cache.self w)) <> 1 ->
  Cache.index_of addr = Ok index ->
  Cache.sets (Cache.self w) !! index = Some start ->
  Cache.replacement (Cache.self w) = Cache.RANDOM ->
  0 < Cache.blocks_per_set (Cache.self w) ->
  start + Cache.blocks_per_set (Cache.self w) <= length (Cache.blocks (Cache.self w)) ->
  Forall (fun r => Cache.valid r = true) (ways (Cache.self w) index) ->
  start = index * Cache.blocks_per_set (Cache.self w) ->
  exists w' way,
    Cache.set_block addr data w = (Ok tt, w') /\
    way = Cache.rand w (Cache.draws w) mod Cache.blocks_per_set (Cache.self w) /\
    way < Cache.blocks_per_set (Cache.self w) /\
    Cache.self w' =
      Cache.with_blocks
        (<[start + way := installed (Address.get_tag addr) data
                            (Datetime (Cache.wall w (S (Cache.ticks w))))
                            (Datetime (Cache.wall w (S (Cache.ticks w))))]>
           (Cache.blocks (Cache.self w)))
        (Cache.self w) /\
    Cache.ticks w' = S (S (Cache.ticks w)) /\ Cache.draws w' = S (Cache.draws w) /\
    Cache.heap w' = Cache.heap w /\ Cache.ram w' = Cache.ram w.
Proof.
  intros Hsize Hix Hstart Hpol Hbps Hfit Hfull ->.
  rewrite (set_block_full_set w addr data index _ Hsize Hix Hstart Hfull).
  unfold Cache.replace.
  erewrite bind_Ok by reflexivity. cbn [Cache.now snd Cache.self].
  rewrite Hstart, decide_True by done.
  set (bps := Cache.blocks_per_set (Cache.self w)) in *.
  set (start := index * bps) in *.
  assert (Cache.rand w (Cache.draws w) mod bps < bps) as Hway
    by (apply Nat.mod_upper_bound; lia).
  erewrite bind_Ok.
  2: { erewrite bind_Ok; [reflexivity|]. unfold Cache.choice. cbn [Cache.rand Cache.draws].
       rewrite decide_True by lia. reflexivity. }
  erewrite bind_Ok by reflexivity.
  rewrite blocks_setitem_ok.
  2: { cbn [Cache.self]. replace (start + bps - start) with bps by lia. lia. }
  cbn [Cache.self Cache.wall Cache.ticks].
  replace (start + bps - start) with bps by lia.
  eexists _, _. split; [reflexivity|]. split; [reflexivity|]. done.
Qed.

Lemma random_eviction_stays_in_the_set_witness :
  exists cpu0 cpu addr w' way,
    CPU.__init__ 2 2 4 16 Cache.RANDOM ticking draw_zero = Ok cpu0 /\
    replay [Store 2 (Float 7); Store 6 (Float 8)] cpu0 = ([Stored; Stored], cpu) /\
    fst (CPU.decode 10 cpu) = Ok addr /\
    Cache.set_block addr (Some 5) (CPU.mem cpu) = (Ok tt, w') /\
    way < Cache.blocks_per_set (Cache.self (CPU.mem cpu)).
Proof.
  assert (exists cpu0 cpu addr,
    CPU.__init__ 2 2 4 16 Cache.RANDOM ticking draw_zero = Ok cpu0 /\
    replay [Store 2 (Float 7); Store 6 (Float 8)] cpu0 = ([Stored; Stored], cpu) /\
    fst (CPU.decode 10 cpu) = Ok addr /\
    size (Cache.sets (Cache.self (CPU.mem cpu))) <> 1 /\
    Cache.index_of addr = Ok 1 /\
    Cache.sets (Cache.self (CPU.mem cpu)) !! 1 = Some 2 /\
    Cache.replacement (Cache.self (CPU.mem cpu)) = Cache.RANDOM /\
    0 < Cache.blocks_per_set (Cache.self (CPU.mem cpu)) /\
    2 + Cache.blocks_per_set (Cache.self (CPU.mem cpu))
      <= length (Cache.blocks (Cache.self (CPU.mem cpu))) /\
    Forall (fun r => Cache.valid r = true) (ways (Cache.self (CPU.mem cpu)) 1) /\
    2 = 1 * Cache.blocks_per_set (Cache.self (CPU.mem cpu)))
    as (cpu0 & cpu & addr & H0 & H1 & H2 & Hsize & Hix & Hstart & Hpol & Hbps & Hfit
        & Hfull & Hmul).
  { eexists _, _, _. split; [reflexivity|].
    repeat (split; [vm_compute; first [reflexivity | lia | by repeat constructor]|]).
    vm_compute; reflexivity. }
  destruct (random_eviction_stays_in_the_set (CPU.mem cpu) addr (Some 5) 1 2
              Hsize Hix Hstart Hpol Hbps Hfit Hfull Hmul)
    as (w' & way & Hset & _ & Hway & _).
  by exists cpu0, cpu, addr, w', way.
Defined.

Lemma get_block_row w addr ix r w' :
  Cache.get_block addr w = (Ok (Some ix, r), w') ->
  Cache.blocks (Cache.self w) !! ix = Some r.
Proof.
  unfold Cache.get_block, bind, lift, gets, ret, raise.
  destruct (Cache.index_of addr) as [index|e]; [|done].
  destruct (decide _).
  - destruct (Cache.blocks (Cache.self w) !! index) as [r'|] eqn:Hr; [|done].
    by intros [= <- <- <-].
  - destruct (Cache.sets (Cache.self w) !! index) as [start|]; [|done].
    destruct (list_find _ _) as [[i r']|] eqn:Hfind; [|done].
    intros [= <- <- <-]. apply list_find_Some in Hfind as (Hi & _ & _).
    rewrite slice_nat, lookup_way in Hi. destruct (decide _); [|done].
    rewrite <- Hi. f_equal. lia.
Qed.

(** X10: a read that hits.  When the lookup finds a valid row with the
    tag of the address, and the row refers to a block that has a word at
    the offset, [get_val] returns that word, counts one read hit and
    nothing else, and writes the clock's reading into the access time of
    the row it found; the tag, the block and the insertion time of the row,
    every other row, the blocks and the RAM are as before. *)
Theorem read_hit_returns_the_cached_word (w : Cache.world) (addr : Address.t) (off : N)
    (ix : nat) (r : Cache.row) (l : loc) (v : pyfloat) :
  int2 (Address.get_offset addr) = Ok off ->
  Cache.get_block addr w = (Ok (Some ix, r), w) ->
  Cache.valid r = true ->
  Cache.tag r = Some (Address.get_tag addr) ->
  Cache.block r = Some l ->
  Block.data (Cache.heap w l) !! N.to_nat off = Some v ->
  exists w',
    Cache.get_val addr w = (Ok (Some v), w') /\
    Cache.blocks (Cache.self w') =
      <[ix := {| Cache.valid := true; Cache.tag := Cache.tag r; Cache.block := Cache.block r;
                 Cache.time_in := Cache.time_in r;
                 Cache.access := Datetime (Cache.wall w (Cache.ticks w)) |}]>
        (Cache.blocks (Cache.self w)) /\
    counters w' = bump true true (counters w) /\
    Cache.ticks w' = S (Cache.ticks w) /\
    Cache.heap w' = Cache.heap w /\ Cache.ram w' = Cache.ram w.
Proof.
  intros Hoff Hget Hv Ht Hb Hword.
  pose proof (get_block_row _ _ _ _ _ Hget) as Hrow.
  apply lookup_lt_Some in Hrow.
  unfold Cache.get_val.
  rewrite (bind_Ok _ _ w off w) by (unfold lift; by rewrite Hoff).
  rewrite (bind_Ok _ _ _ _ _ Hget). cbn iota beta.
  rewrite Hv. rewrite Ht. rewrite bool_decide_eq_true_2 by done. cbn [andb].
  erewrite bind_Ok by reflexivity.
  erewrite bind_Ok by reflexivity.
  erewrite bind_Ok by (apply blocks_setitem_ok; exact Hrow).
  erewrite bind_Ok.
  2: { rewrite Hb. unfold Cache.data_getitem.
       erewrite bind_Ok by reflexivity. cbn [Cache.heap Cache.with_self].
       simpl. rewrite Hword. reflexivity. }
  eexists. split; [reflexivity|]. simpl. by rewrite Hb.
Qed.

Lemma read_hit_returns_the_cached_word_witness :
  exists cpu0 cpu addr w',
    CPU.__init__ 2 2 4 16 Cache.LRU ticking draw_zero = Ok cpu0 /\
    replay [Store 2 (Float 7)] cpu0 = ([Stored], cpu) /\
    fst (CPU.decode 2 cpu) = Ok addr /\
    Cache.get_val addr (CPU.mem cpu) = (Ok (Some (Float 7)), w').
Proof.
  assert (exists cpu0 cpu addr r,
    CPU.__init__ 2 2 4 16 Cache.LRU ticking draw_zero = Ok cpu0 /\
    replay [Store 2 (Float 7)] cpu0 = ([Stored], cpu) /\
    fst (CPU.decode 2 cpu) = Ok addr /\
    int2 (Address.get_offset addr) = Ok 0%N /\
    Cache.get_block addr (CPU.mem cpu) = (Ok (Some 2, r), CPU.mem cpu) /\
    Cache.valid r = true /\
    Cache.tag r = Some (Address.get_tag addr) /\
    Cache.block r = Some 2 /\
    Block.data (Cache.heap (CPU.mem cpu) 2) !! N.to_nat 0 = Some (Float 7))
    as (cpu0 & cpu & addr & r & H0 & H1 & H2 & Hoff & Hget & Hv & Ht & Hb & Hword).
  { eexists _, _, _, _. split; [reflexivity|].
    repeat (split; [vm_compute; reflexivity|]). vm_compute; reflexivity. }
  destruct (read_hit_returns_the_cached_word (CPU.mem cpu) addr 0 2 r 2 (Float 7)
              Hoff Hget Hv Ht Hb Hword) as (w' & Hval & _).
  by exists cpu0, cpu, addr, w'.
Defined.

(** ** The instruction count *)

Lemma perform_instructions ns nb cpu op :
  geometry ns nb (CPU.cache cpu) ->
  0 < Cache.block_size (CPU.cache cpu) -> 0 < nb ->
  CPU.instructions (snd (perform op cpu)) = CPU.instructions cpu + 1.
Proof.
  intros Hgeo Hbs Hnb.
  destruct (cpu_decode_ok ns nb cpu (address_of op) Hgeo Hbs Hnb) as (addr & _ & Hd & _).
  destruct op as [a|a v]; cbn [address_of] in Hd.
  - rewrite perform_snd_load. unfold CPU.load.
    rewrite (bind_Ok _ _ _ _ _ Hd). erewrite bind_Ok by reflexivity.
    unfold CPU.on_mem. by destruct (Cache.get_val addr _).
  - rewrite perform_snd_store. unfold CPU.store.
    rewrite (bind_Ok _ _ _ _ _ Hd). erewrite bind_Ok by reflexivity.
    unfold CPU.on_mem. by destruct (Cache.set_val addr v _).
Qed.

Lemma replay_instructions ns nb ops cpu :
  geometry ns nb (CPU.cache cpu) ->
  0 < Cache.block_size (CPU.cache cpu) -> 0 < nb ->
  CPU.instructions (snd (replay ops cpu)) = CPU.instructions cpu + length ops.
Proof.
  revert cpu. induction ops as [|op ops IH]; intros cpu Hgeo Hbs Hnb.
  - simpl. lia.
  - rewrite replay_cons.
    destruct (perform_geometry ns nb cpu op Hgeo Hbs Hnb) as [Hgeo' Hbs'].
    rewrite IH by done. rewrite (perform_instructions ns nb) by done.
    cbn [length]. lia.
Qed.

Lemma loads_and_stores ops :
  length (filter (fun op => is_load op = true) ops)
  + length (filter (fun op => is_load op = false) ops) = length ops.
Proof.
  induction ops as [|op ops IH]; [done|].
  rewrite !filter_cons. destruct op; simpl; rewrite ?decide_True, ?decide_False by done;
    simpl; lia.
Qed.

(** X11: the instruction count is the number of accesses.  On a
    processor constructed with a positive block size and a positive number
    of cache rows, every [load] and every [store] counts one instruction,
    whether the access returns or raises; so after any run of loads and
    stores the instruction count is the length of the run, and it is the
    sum of the four hit and miss counters of the cache. *)
Theorem instructions_count_the_accesses (bs ns nb nbr : nat) (pol : str)
    (wall : nat -> Z) (rand : nat -> nat) (cpu0 : CPU.t) (ops : list access) :
  CPU.__init__ bs ns nb nbr pol wall rand = Ok cpu0 ->
  0 < bs -> 0 < nb ->
  CPU.instructions (snd (replay ops cpu0)) = length ops /\
  Cache.read_hits (CPU.cache (snd (replay ops cpu0)))
  + Cache.read_misses (CPU.cache (snd (replay ops cpu0)))
  + Cache.write_hits (CPU.cache (snd (replay ops cpu0)))
  + Cache.write_misses (CPU.cache (snd (replay ops cpu0)))
  = CPU.instructions (snd (replay ops cpu0)).
Proof.
  intros Hinit Hbs Hnb.
  assert (geometry ns nb (CPU.cache cpu0) /\ Cache.block_size (CPU.cache cpu0) = bs /\
          counters (CPU.mem cpu0) = (0, 0, 0, 0) /\ CPU.instructions cpu0 = 0)
    as (Hgeo & Hb & Hc0 & Hi0).
  { revert Hinit. unfold CPU.__init__.
    destruct (Cache.__init__ bs ns nb pol 0) as [c|] eqn:Hc; [|done]. intros [= <-].
    destruct (init_geometry _ _ _ _ _ _ Hc) as (Hgeo & Hb & _).
    split; [done|]. split; [done|]. split; [|done].
    revert Hc. unfold Cache.__init__. destruct (Cache._get_sets ns nb) as [[]|]; [|done].
    by intros [= <-]. }
  rewrite (replay_instructions ns nb) by (done || lia). rewrite Hi0. split; [done|].
  pose proof (replay_counts ns nb ops cpu0 Hgeo ltac:(lia) Hnb) as Hc.
  unfold counters in Hc, Hc0. fold (CPU.cache (snd (replay ops cpu0))) in Hc.
  fold (CPU.cache cpu0) in Hc0. injection Hc0 as E1 E2 E3 E4.
  injection Hc as -> -> -> ->.
  fold (CPU.cache cpu0). rewrite E1, E2, E3, E4.
  pose proof (tally_total true (lookups ops cpu0)) as Hr.
  pose proof (tally_total false (lookups ops cpu0)) as Hw.
  rewrite lookups_loads in Hr, Hw. pose proof (loads_and_stores ops). lia.
Qed.

Lemma instructions_count_the_accesses_witness :
  exists cpu0,
    CPU.__init__ 2 1 4 16 Cache.LRU ticking draw_zero = Ok cpu0 /\
    CPU.instructions (snd (replay [Load 0; Store 0 (Float 1); Load 0] cpu0)) = 3.
Proof.
  assert (exists cpu0, CPU.__init__ 2 1 4 16 Cache.LRU ticking draw_zero = Ok cpu0)
    as [cpu0 Hinit] by (eexists; reflexivity).
  exists cpu0. split; [done|].
  apply (instructions_count_the_accesses 2 1 4 16 Cache.LRU ticking draw_zero cpu0
           [Load 0; Store 0 (Float 1); Load 0] Hinit); lia.
Defined.

(** ** More sets than rows *)

Lemma without_ways_keeps {A} (m : M Cache.world A) :
  preserves shape m ->
  hoare without_ways m (fun _ => without_ways) (fun _ => True).
Proof.
  intros Hp s [Hb Hs]. specialize (Hp s). destruct (m s) as [[a|e] s']; [|done].
  simpl in Hp. unfold shape in Hp. injection Hp as _ _ Hsets Hbps _.
  split; congruence.
Qed.

Lemma without_ways_get_block addr :
  hoare without_ways (Cache.get_block addr)
        (fun found w => without_ways w /\ found.2 = Cache.no_row) (fun _ => True).
Proof.
  intros w [Hbps Hsize]. unfold Cache.get_block, bind, lift, gets, ret, raise.
  destruct (Cache.index_of addr) as [index|]; [|done].
  rewrite decide_False by done.
  destruct (Cache.sets (Cache.self w) !! index) as [start|]; [|done].
  rewrite slice_nat, Hbps, take_0. simpl. done.
Qed.

Lemma without_ways_set_block addr data :
  hoare without_ways (Cache.set_block addr data) (fun _ _ => False) (fun _ => True).
Proof.
  intros w [Hbps Hsize]. unfold Cache.set_block, bind, lift, gets, ret, raise.
  cbn [Cache.now Cache.self]. destruct (Cache.index_of addr) as [index|]; [|done].
  rewrite decide_False by done.
  destruct (Cache.sets (Cache.self w) !! index) as [start|] eqn:Hstart; [|done].
  rewrite slice_nat, Hbps, take_0. cbn [list_find].
  unfold Cache.replace, bind, gets, lift, ret, raise. cbn [Cache.self].
  rewrite Hstart, Hbps, slice_nat, take_0.
  destruct (decide (Cache.replacement (Cache.self w) = Cache.RANDOM)).
  - unfold Cache.choice. rewrite decide_False by lia. done.
  - destruct (decide (Cache.replacement (Cache.self w) = Cache.LRU)); [done|].
    destruct (decide (Cache.replacement (Cache.self w) = Cache.FIFO)); done.
Qed.

Ltac keeps_shape :=
  apply without_ways_keeps; first [ by intros ? | preserve ].

Lemma without_ways_set_val addr val :
  hoare without_ways (Cache.set_val addr val) (fun _ _ => False) (fun _ => True).
Proof.
  unfold Cache.set_val.
  eapply (hoare_bind _ _ (fun _ => without_ways)); [keeps_shape|]. intros offset.
  eapply hoare_bind; [apply without_ways_get_block|]. intros [ix r]. cbn [snd].
  apply hoare_pure. intros ->. cbn [Cache.no_row Cache.valid andb].
  eapply (hoare_bind _ _ (fun _ => without_ways)); [keeps_shape|]. intros _.
  eapply (hoare_bind _ _ (fun _ => without_ways)); [keeps_shape|]. intros block.
  eapply (hoare_bind _ _ (fun _ => without_ways)).
  { destruct block; keeps_shape. }
  intros in_ram. eapply (hoare_bind _ _ (fun _ => without_ways)).
  { destruct in_ram; keeps_shape. }
  intros b. apply without_ways_set_block.
Qed.

Lemma without_ways_get_val addr :
  hoare without_ways (Cache.get_val addr) (fun v _ => v = None) (fun _ => True).
Proof.
  unfold Cache.get_val.
  eapply (hoare_bind _ _ (fun _ => without_ways)); [keeps_shape|]. intros offset.
  eapply hoare_bind; [apply without_ways_get_block|]. intros [ix r]. cbn [snd].
  apply hoare_pure. intros ->. cbn [Cache.no_row Cache.valid andb Cache.block].
  eapply (hoare_bind _ _ (fun _ => without_ways)); [keeps_shape|]. intros _.
  eapply (hoare_bind _ _ (fun _ => without_ways)); [keeps_shape|]. intros block.
  by apply hoare_ret.
Qed.

(** X12: more sets than rows.  When a cache is constructed with more
    sets than it has rows, every set is empty: no lookup finds a row, no
    [store] ever returns -- it raises, at the latest in [replace], which
    has no way to choose from -- and no [load] ever returns a value. *)
Theorem no_store_returns_when_sets_outnumber_rows (ns nb : nat) (cpu : CPU.t)
    (a : N) (v : pyfloat) :
  geometry ns nb (CPU.cache cpu) ->
  0 < nb < ns ->
  lookup_hits a cpu = false /\
  (exists e, fst (CPU.store a v cpu) = Raise e) /\
  (forall x, fst (CPU.load a cpu) <> Ok (Some x)).
Proof.
  intros Hgeo Hnb.
  assert (without_ways (CPU.mem cpu)) as Hw.
  { destruct Hgeo as [_ Hsize _ Hbps _]. unfold CPU.cache in *. split.
    - rewrite Hbps. apply Nat.div_small. lia.
    - lia. }
  assert (exists r, CPU.decode a cpu = (r, cpu)) as [[addr|e] Hd] by by eexists.
  - split; [|split].
    + unfold lookup_hits. rewrite Hd.
      pose proof (without_ways_get_block addr _ Hw) as H.
      destruct (Cache.get_block addr (CPU.mem cpu)) as [[[ix r]|] w']; [|done].
      simpl in H. destruct H as [_ ->]. done.
    + unfold CPU.store. rewrite (bind_Ok _ _ _ _ _ Hd). erewrite bind_Ok by reflexivity.
      unfold CPU.on_mem. cbn [CPU.mem].
      pose proof (without_ways_set_val addr v _ Hw) as H.
      destruct (Cache.set_val addr v (CPU.mem cpu)) as [[[]|e] w']; [done|]. by exists e.
    + intros x. unfold CPU.load. rewrite (bind_Ok _ _ _ _ _ Hd).
      erewrite bind_Ok by reflexivity. unfold CPU.on_mem. cbn [CPU.mem].
      pose proof (without_ways_get_val addr _ Hw) as H.
      destruct (Cache.get_val addr (CPU.mem cpu)) as [[o|e] w']; [|done].
      simpl. intros [= ->]. done.
  - split; [|split].
    + unfold lookup_hits. by rewrite Hd.
    + exists e. unfold CPU.store. by rewrite (bind_Raise _ _ _ _ _ Hd).
    + intros x. unfold CPU.load. by rewrite (bind_Raise _ _ _ _ _ Hd).
Qed.

Lemma no_store_returns_when_sets_outnumber_rows_witness :
  exists cpu,
    CPU.__init__ 2 4 2 16 Cache.LRU ticking draw_zero = Ok cpu /\
    lookup_hits 0 cpu = false /\
    (exists e, fst (CPU.store 0 (Float 1) cpu) = Raise e) /\
    (forall x, fst (CPU.load 0 cpu) <> Ok (Some x)).
Proof.
  assert (exists cpu, CPU.__init__ 2 4 2 16 Cache.LRU ticking draw_zero = Ok cpu /\
                      geometry 4 2 (CPU.cache cpu)) as (cpu & Hinit & Hgeo).
  { eexists. split; [reflexivity|]. by eapply init_geometry. }
  exists cpu. split; [done|].
  apply (no_store_returns_when_sets_outnumber_rows 4 2 cpu 0 (Float 1) Hgeo). lia.
Defined.

(** ** Accesses that cannot raise *)

Lemma hoare_conseq {S A} (P P' : S -> Prop) (m : M S A) (Q Q' : A -> S -> Prop)
    (E E' : S -> Prop) :
  hoare P' m Q' E' -> (forall s, P s -> P' s) -> (forall a s, Q' a s -> Q a s) ->
  (forall s, E' s -> E s) -> hoare P m Q E.
Proof.
  intros Hm HP HQ HE s Hs. specialize (Hm s (HP s Hs)).
  destruct (m s) as [[a|e] s']; auto.
Qed.

(** An install returns, whatever the geometry, and writes one row. *)
Lemma set_block_installs ns nb w addr data index :
  sound ns nb w -> ns <= nb ->
  Cache.index_of addr = Ok index ->
  (ns = 1 -> index < nb) -> (ns <> 1 -> index < ns) ->
  exists w' ix t1 t2,
    Cache.set_block addr data w = (Ok tt, w') /\ ix < nb /\
    Cache.blocks (Cache.self w') =
      <[ix := installed (Address.get_tag addr) data (Datetime t1) (Datetime t2)]>
        (Cache.blocks (Cache.self w)).
Proof.
  intros [Hgeo Hpol Hst] Hle Hix Hdirect Hassoc.
  pose proof Hgeo as [Hns Hsize Hsets Hbps Hlen].
  destruct (decide (ns = 1)) as [E|E].
  - destruct (lookup_lt_is_Some_2 (Cache.blocks (Cache.self w)) index) as [old Hold];
      [rewrite Hlen; auto|].
    destruct (set_block_direct w addr data index old) as (w' & Hrun & Hblocks & _);
      [congruence|done|done|].
    pose proof (Forall_lookup_1 _ _ _ _ Hst Hold) as Hso.
    destruct (Cache.valid old) eqn:Hv.
    + destruct (Hso Hv) as (t1 & t2 & Ht1 & _). rewrite Ht1 in Hblocks.
      exists w', index, t1, (Cache.wall w (Cache.ticks w)). auto.
    + exists w', index, (Cache.wall w (Cache.ticks w)), (Cache.wall w (Cache.ticks w)).
      auto.
  - specialize (Hassoc E). specialize (Hsets index). rewrite decide_True in Hsets by done.
    set (bps := Cache.blocks_per_set (Cache.self w)) in *.
    set (start := index * bps) in *.
    assert (0 < bps) as Hpos.
    { rewrite Hbps. apply Nat.div_str_pos. lia. }
    assert (start + bps <= nb) as Hfit.
    { pose proof (Nat.Div0.mul_div_le nb ns). unfold start. rewrite Hbps in *. nia. }
    destruct (list_find (fun r => Cache.valid r = false)
                (take bps (drop start (Cache.blocks (Cache.self w)))))
      as [[way r]|] eqn:Hfind.
    + pose proof Hfind as Hfound. apply list_find_Some in Hfound as (Hway & _ & _).
      rewrite lookup_way in Hway. destruct (decide (way < bps)) as [Hlt|]; [|done].
      exists (snd (Cache.blocks_setitem (Some (start + way))
                     (installed (Address.get_tag addr) data
                        (Datetime (Cache.wall w (Cache.ticks w)))
                        (Datetime (Cache.wall w (Cache.ticks w))))
                     (snd (Cache.now w)))),
        (start + way), (Cache.wall w (Cache.ticks w)), (Cache.wall w (Cache.ticks w)).
      split; [|split; [lia|]].
      * unfold Cache.set_block.
        erewrite bind_Ok by reflexivity.
        erewrite bind_Ok by (unfold lift; rewrite Hix; reflexivity).
        erewrite bind_Ok by reflexivity. cbn [Cache.self Cache.now snd].
        rewrite decide_False by congruence. rewrite Hsets, slice_nat.
        fold bps. rewrite Hfind.
        rewrite blocks_setitem_ok by (cbn [Cache.self]; lia).
        rewrite blocks_setitem_ok by (cbn [Cache.self Cache.now snd]; lia). done.
      * rewrite blocks_setitem_ok by (cbn [Cache.self Cache.now snd]; lia). done.
    + rewrite list_find_None in Hfind.
      assert (Forall (fun r => Cache.valid r = true)
                (take bps (drop start (Cache.blocks (Cache.self w))))) as Hfull.
      { eapply Forall_impl; [exact Hfind|]. intros r Hr. simpl in Hr.
        destruct (Cache.valid r); [done|by destruct Hr]. }
      rewrite (set_block_full_set w addr data index start);
        [|congruence|done|done|exact Hfull].
      destruct (replace_spec (snd (Cache.now w)) (Address.get_tag addr) index data start)
        as (ix & w' & Hrun & Hlt & Hblocks & _); try done.
      { cbn [Cache.now snd Cache.self]. fold bps. lia. }
      { cbn [Cache.now snd Cache.self]. fold bps.
        assert (Forall stamped (take bps (drop start (Cache.blocks (Cache.self w)))))
          as Hstamps by by apply Forall_take, Forall_drop.
        rewrite Forall_lookup in Hfull. rewrite Forall_lookup in Hstamps.
        apply Forall_lookup. intros i r Hr. exact (Hstamps i r Hr (Hfull i r Hr)). }
      cbn [Cache.now snd Cache.self] in *.
      exists w', ix, (Cache.wall w (S (Cache.ticks w))), (Cache.wall w (S (Cache.ticks w))).
      split; [done|]. split; [lia|]. exact Hblocks.
Qed.

Section Steady.
Variables (ns nb bs cap : nat).

Lemma steady_frame w w' :
  core w' = core w -> steady ns nb bs cap w -> steady ns nb bs cap w'.
Proof.
  intros Hcore [[Hgeo Hpol Hst] Hb Hsz Hbk Hcap]. unfold core in Hcore.
  apply pair_equal_spec in Hcore as [Hcore Hblocks].
  apply pair_equal_spec in Hcore as [Hcore Hshape].
  apply pair_equal_spec in Hcore as [Hheap Hram].
  pose proof Hshape as Hshape'. unfold shape in Hshape'.
  injection Hshape' as Ebs Erep _ _ _.
  split.
  - split; [by apply (geometry_shape ns nb w)| |].
    + unfold known_policy. by rewrite Erep.
    + unfold all_stamped. by rewrite Hblocks.
  - congruence.
  - intros l. rewrite Hheap, Ebs. apply Hsz.
  - unfold backed. by rewrite Hblocks.
  - unfold capacity. by rewrite Hram.
Qed.

Lemma hoare_lift_ok {S A} (P : S -> Prop) (r : result A) (a : A)
    (Q : A -> S -> Prop) (E : S -> Prop) :
  r = Ok a -> (forall s, P s -> Q a s) -> hoare P (lift r) Q E.
Proof. intros -> H s Hs. by apply H. Qed.

(** A step that returns and leaves the core alone. *)
Lemma steady_step {A} (m : M Cache.world A) (Q : A -> Prop) :
  (forall w, exists a, fst (m w) = Ok a /\ Q a) -> preserves core m ->
  hoare (steady ns nb bs cap) m (fun a w => steady ns nb bs cap w /\ Q a) (fun _ => False).
Proof.
  intros Hret Hcore w Hw. destruct (Hret w) as (a & Ha & HQ). specialize (Hcore w).
  destruct (m w) as [r w']. simpl in *. subst r. split; [|done].
  by apply (steady_frame w).
Qed.

Lemma steady_setitem i r :
  i < nb -> stamped r -> (Cache.valid r = true -> is_Some (Cache.block r)) ->
  hoare (steady ns nb bs cap) (Cache.blocks_setitem (Some i) r)
        (fun _ => steady ns nb bs cap) (fun _ => False).
Proof.
  intros Hi Hr Hb w [[Hgeo Hpol Hst] Hbs Hsz Hbk Hcap].
  pose proof Hgeo as [Hns Hsize Hsets Hbps Hlen].
  rewrite blocks_setitem_ok by lia. split; [split| | | |]; try done.
  - destruct Hgeo. split; try done. simpl. by rewrite length_insert.
  - unfold all_stamped. simpl. by apply Forall_insert.
  - unfold backed. simpl. by apply Forall_insert.
Qed.

Lemma steady_get_block addr :
  reachable ns nb bs cap addr ->
  hoare (steady ns nb bs cap) (Cache.get_block addr)
        (fun found w =>
           steady ns nb bs cap w /\
           ((exists i, found.1 = Some i /\ i < nb) \/ ns <> 1 /\ found = (None, Cache.no_row)) /\
           stamped found.2 /\
           (Cache.valid found.2 = true -> is_Some (Cache.block found.2)) /\
           (ns <> 1 ->
            Cache.valid found.2 = true /\ Cache.tag found.2 = Some (Address.get_tag addr) \/
            found.2 = Cache.no_row))
        (fun _ => False).
Proof.
  intros [_ _ (index & Hix & Hdirect & Hassoc)] w Hw.
  pose proof Hw as [[Hgeo Hpol Hst] Hbs Hsz Hbk Hcap].
  pose proof Hgeo as [Hns Hsize Hsets Hbps Hlen].
  unfold Cache.get_block, bind, lift, gets, ret, raise. rewrite Hix.
  destruct (decide _) as [E|E].
  - assert (ns = 1) as Ens by congruence.
    destruct (lookup_lt_is_Some_2 (Cache.blocks (Cache.self w)) index) as [r Hr];
      [rewrite Hlen; auto|].
    rewrite Hr. split; [done|]. simpl. split; [left; eauto|]. split; [|split].
    + by eapply (Forall_lookup_1 _ _ _ _ Hst).
    + by eapply (Forall_lookup_1 _ _ _ _ Hbk).
    + done.
  - assert (ns <> 1) as Ens by congruence.
    rewrite Hsets, decide_True by auto. rewrite slice_nat.
    destruct (list_find _ _) as [[i r]|] eqn:Hfind.
    + apply list_find_Some in Hfind as (Hi & Hmatch & _).
      rewrite lookup_way in Hi. destruct (decide _) as [Hlt|]; [|done].
      split; [done|]. simpl. split.
      { left. eexists. split; [done|]. apply lookup_lt_Some in Hi. lia. }
      split; [|split].
      * by eapply (Forall_lookup_1 _ _ _ _ Hst).
      * by eapply (Forall_lookup_1 _ _ _ _ Hbk).
      * intros _. by left.
    + split; [done|]. simpl. split; [by right|]. split; [apply stamped_no_row|].
      split; [intros H; discriminate H|]. intros _. by right.
Qed.

Lemma steady_ram_get_block tag index :
  (exists n, int2 (tag ++ index) = Ok n /\ N.to_nat n < cap) ->
  hoare (steady ns nb bs cap) (Cache.on_ram (RAM.get_block tag index))
        (fun _ => steady ns nb bs cap) (fun _ => False).
Proof.
  intros (n & Hn & Hlt) w Hw. rewrite on_ram_get_block.
  unfold RAM.get_block, bind, lift, gets, ret, raise. rewrite Hn.
  destruct (lookup_lt_is_Some_2 (RAM.blocks (Cache.ram w)) (N.to_nat n)) as [r Hr].
  { destruct Hw as [_ _ _ _ Hcap]. unfold capacity in Hcap. lia. }
  simpl. rewrite Hr. by destruct (RAM.valid r).
Qed.

Lemma steady_ram_set_block tag index data :
  (exists n, int2 (tag ++ index) = Ok n /\ N.to_nat n < cap) ->
  hoare (steady ns nb bs cap) (Cache.on_ram (RAM.set_block tag index data))
        (fun _ => steady ns nb bs cap) (fun _ => False).
Proof.
  intros (n & Hn & Hlt) w [Hs Hbs Hsz Hbk Hcap].
  unfold Cache.on_ram, RAM.set_block, bind, lift, gets, modify, raise. rewrite Hn.
  unfold capacity in Hcap. simpl. rewrite decide_True by lia. simpl.
  split; try done; [by destruct Hs|].
  unfold capacity. simpl. by rewrite length_insert.
Qed.

Lemma steady_block_set_val l v off tag :
  off < bs ->
  hoare (steady ns nb bs cap) (Cache.on_block (Some l) (Block.set_val v off tag))
        (fun _ => steady ns nb bs cap) (fun _ => False).
Proof.
  intros Hoff w [Hs Hbs Hsz Hbk Hcap].
  unfold Cache.on_block, Block.set_val, bind, modify, gets, raise. simpl.
  rewrite decide_True by (rewrite Hsz; lia). simpl.
  split; try done; [by destruct Hs|].
  intros l'. simpl. destruct (decide (l' = l)) as [->|]; [|apply Hsz].
  simpl. rewrite length_insert. apply Hsz.
Qed.

Lemma steady_new_block :
  hoare (steady ns nb bs cap) (Cache.new_block bs)
        (fun b w => steady ns nb bs cap w /\ is_Some b) (fun _ => False).
Proof.
  intros w [Hs Hbs Hsz Hbk Hcap]. unfold Cache.new_block. split; [|by eexists].
  split; try done; [by destruct Hs|].
  intros l'. simpl. destruct (decide _); [|apply Hsz].
  simpl. by rewrite length_replicate.
Qed.

Lemma steady_data_getitem l off :
  off < bs ->
  hoare (steady ns nb bs cap) (Cache.data_getitem (Some l) off)
        (fun _ => steady ns nb bs cap) (fun _ => False).
Proof.
  intros Hoff w Hw. pose proof Hw as [Hs Hbs Hsz Hbk Hcap].
  unfold Cache.data_getitem, bind, gets, ret, raise.
  destruct (lookup_lt_is_Some_2 (Block.data (Cache.heap w l)) off) as [v Hv];
    [rewrite Hsz; lia|].
  by rewrite Hv.
Qed.

Lemma steady_set_block addr data :
  reachable ns nb bs cap addr -> ns <= nb -> is_Some data ->
  hoare (steady ns nb bs cap) (Cache.set_block addr data)
        (fun _ => steady ns nb bs cap) (fun _ => False).
Proof.
  intros [_ _ (index & Hix & Hdirect & Hassoc)] Hle Hdata w Hw.
  pose proof Hw as [Hs Hbs Hsz Hbk Hcap].
  destruct (set_block_installs ns nb w addr data index Hs Hle Hix Hdirect Hassoc)
    as (w' & ix & t1 & t2 & Hrun & Hlt & Hblocks).
  pose proof (preserves_store_set_block addr data w) as Hstore.
  pose proof (preserves_shape_set_block addr data w) as Hshape.
  rewrite Hrun in *. simpl in Hstore, Hshape. injection Hstore as Hheap Hram.
  pose proof Hshape as Hshape'. unfold shape in Hshape'. injection Hshape' as Ebs Erep _ _ _.
  destruct Hs as [Hgeo Hpol Hst]. split.
  - split; [by apply (geometry_shape ns nb w)| |].
    + unfold known_policy. by rewrite Erep.
    + unfold all_stamped. rewrite Hblocks. apply Forall_insert; [done|].
      apply stamped_installed.
  - congruence.
  - intros l. rewrite Hheap, Ebs. apply Hsz.
  - unfold backed. rewrite Hblocks. by apply Forall_insert.
  - unfold capacity. by rewrite Hram.
Qed.

End Steady.

Section Accesses.
Variables (ns nb bs cap : nat).

Lemma steady_count (m : M Cache.world unit) :
  (forall w, fst (m w) = Ok tt) -> preserves core m ->
  hoare (steady ns nb bs cap) m (fun _ => steady ns nb bs cap) (fun _ => False).
Proof.
  intros Hret Hcore.
  eapply hoare_conseq; [apply (steady_step ns nb bs cap m (fun _ => True))| | |]; try done.
  - intros w. exists tt. by rewrite Hret.
  - by intros a s [Hs _].
Qed.

Lemma steady_now :
  hoare (steady ns nb bs cap) Cache.now
        (fun time w => steady ns nb bs cap w /\ exists t, time = Datetime t)
        (fun _ => False).
Proof.
  apply (steady_step ns nb bs cap Cache.now (fun time => exists t, time = Datetime t)).
  - intros w. eexists. split; [reflexivity|]. eauto.
  - done.
Qed.

Lemma steady_set_val addr val :
  reachable ns nb bs cap addr -> ns <= nb ->
  hoare (steady ns nb bs cap) (Cache.set_val addr val)
        (fun _ => steady ns nb bs cap) (fun _ => False).
Proof.
  intros Hreach Hle. pose proof Hreach as [(off & Hoff & Hofflt) Hrow _].
  unfold Cache.set_val.
  eapply (hoare_bind _ _ (fun o w => steady ns nb bs cap w /\ o = off)).
  { by apply (hoare_lift_ok _ _ off). }
  intros o. apply hoare_pure. intros ->.
  eapply hoare_bind; [by apply steady_get_block|]. intros [ix r]. cbn [fst snd].
  apply hoare_pure. intros (Hix & Hstamped & Hblock & _).
  destruct (Cache.valid r && _) eqn:Hhit.
  - apply andb_prop in Hhit as [Hv _].
    destruct (Hblock Hv) as [l Hl].
    destruct Hix as [(i & -> & Hi)|[_ [= _ ->]]]; [|discriminate Hv].
    destruct (Hstamped Hv) as (t1 & t2 & Ht1 & _).
    rewrite Hl.
    eapply (hoare_bind _ _ (fun _ => steady ns nb bs cap)); [by apply steady_count|].
    intros _.
    eapply (hoare_bind _ _ (fun _ => steady ns nb bs cap));
      [by apply steady_block_set_val|].
    intros _. eapply hoare_bind; [apply steady_now|]. intros time.
    apply hoare_pure. intros [t ->].
    eapply (hoare_bind _ _ (fun _ => steady ns nb bs cap)).
    { apply steady_setitem; [done| |by eexists]. intros _. simpl. eauto. }
    intros _. by apply steady_ram_set_block.
  - eapply (hoare_bind _ _ (fun _ => steady ns nb bs cap)); [by apply steady_count|].
    intros _.
    eapply (hoare_bind _ _ (fun _ => steady ns nb bs cap));
      [by apply steady_ram_get_block|].
    intros block.
    eapply (hoare_bind _ _ (fun in_ram w => steady ns nb bs cap w /\
                                            (in_ram = true -> is_Some block))).
    { destruct block as [l|].
      - apply hoare_gets. intros w Hw. split; [done|]. by eexists.
      - apply hoare_ret. intros w Hw. split; [done|]. intros H. discriminate H. }
    intros in_ram. apply hoare_pure. intros Hin.
    eapply (hoare_bind _ _ (fun b w => steady ns nb bs cap w /\ is_Some b)).
    { destruct in_ram.
      - destruct (Hin eq_refl) as [l ->].
        eapply (hoare_bind _ _ (fun _ => steady ns nb bs cap));
          [by apply steady_block_set_val|].
        intros _. apply hoare_ret. intros w Hw. split; [done|]. by eexists.
      - eapply (hoare_bind _ _ (fun c w => steady ns nb bs cap w /\ Cache.block_size c = bs)).
        { apply hoare_gets. intros w Hw. split; [done|]. by destruct Hw. }
        intros c. apply hoare_pure. intros ->.
        eapply hoare_bind; [apply steady_new_block|]. intros b.
        apply hoare_pure. intros [l ->].
        eapply (hoare_bind _ _ (fun _ => steady ns nb bs cap));
          [by apply steady_block_set_val|].
        intros _.
        eapply (hoare_bind _ _ (fun _ => steady ns nb bs cap));
          [by apply steady_ram_set_block|].
        intros _. apply hoare_ret. intros w Hw. split; [done|]. by eexists. }
    intros b. apply hoare_pure. intros Hb. by apply steady_set_block.
Qed.

Lemma steady_get_val addr :
  reachable ns nb bs cap addr -> ns <> 1 ->
  hoare (steady ns nb bs cap) (Cache.get_val addr)
        (fun _ => steady ns nb bs cap) (fun _ => False).
Proof.
  intros Hreach Hassoc. pose proof Hreach as [(off & Hoff & Hofflt) Hrow _].
  unfold Cache.get_val.
  eapply (hoare_bind _ _ (fun o w => steady ns nb bs cap w /\ o = off)).
  { by apply (hoare_lift_ok _ _ off). }
  intros o. apply hoare_pure. intros ->.
  eapply hoare_bind; [by apply steady_get_block|]. intros [ix r]. cbn [fst snd].
  apply hoare_pure. intros (Hix & Hstamped & Hblock & Hfound).
  destruct (Cache.valid r && _) eqn:Hhit.
  - apply andb_prop in Hhit as [Hv _].
    destruct (Hblock Hv) as [l Hl].
    destruct Hix as [(i & -> & Hi)|[_ [= _ ->]]]; [|discriminate Hv].
    destruct (Hstamped Hv) as (t1 & t2 & Ht1 & _).
    rewrite Hl.
    eapply (hoare_bind _ _ (fun _ => steady ns nb bs cap)); [by apply steady_count|].
    intros _. eapply hoare_bind; [apply steady_now|]. intros time.
    apply hoare_pure. intros [t ->].
    eapply (hoare_bind _ _ (fun _ => steady ns nb bs cap)).
    { apply steady_setitem; [done| |by eexists]. intros _. simpl. eauto. }
    intros _.
    eapply (hoare_bind _ _ (fun _ => steady ns nb bs cap));
      [by apply steady_data_getitem|].
    intros v. by apply hoare_ret.
  - destruct (Hfound Hassoc) as [[Hv Ht]| ->].
    { rewrite Hv, Ht, bool_decide_eq_true_2 in Hhit by done. discriminate Hhit. }
    cbn [Cache.no_row Cache.block].
    eapply (hoare_bind _ _ (fun _ => steady ns nb bs cap)); [by apply steady_count|].
    intros _.
    eapply (hoare_bind _ _ (fun _ => steady ns nb bs cap));
      [by apply steady_ram_get_block|].
    intros block. by apply hoare_ret.
Qed.

End Accesses.

Lemma init_steady bs ns nb nbr pol wall rand cpu :
  CPU.__init__ bs ns nb nbr pol wall rand = Ok cpu ->
  pol = Cache.RANDOM \/ pol = Cache.LRU \/ pol = Cache.FIFO ->
  steady ns nb bs nbr (CPU.mem cpu).
Proof.
  intros Hinit Hpol. pose proof (init_sound _ _ _ _ _ _ _ _ Hinit Hpol) as Hsound.
  revert Hinit Hsound. unfold CPU.__init__.
  destruct (Cache.__init__ bs ns nb pol 0) as [c|] eqn:Hc; [|done]. intros [= <-] Hsound.
  destruct (init_geometry _ _ _ _ _ _ Hc) as (_ & Hb & _).
  split; try done.
  - intros l. simpl. by rewrite length_replicate.
  - unfold backed. simpl. revert Hc. unfold Cache.__init__.
    destruct (Cache._get_sets ns nb) as [[bps sets]|]; [|done]. intros [= <-]. simpl.
    apply Forall_replicate. intros H. discriminate H.
  - unfold capacity. simpl. by rewrite length_replicate.
Qed.

(** The addresses the decoder makes of numbers in range are reachable. *)
Lemma decode_reachable ns nb bs cap cpu a :
  steady ns nb bs cap (CPU.mem cpu) ->
  0 < nb ->
  (2 <= N.of_nat bs < 2 ^ 32)%N ->
  fits_32_bits (N.of_nat bs) (N.of_nat nb) (N.of_nat ns) ->
  in_ram_of bs cap a ->
  exists addr, CPU.decode a cpu = (Ok addr, cpu) /\ reachable ns nb bs cap addr.
Proof.
  intros [[Hgeo _ _] Hb _ _ _] Hnb Hbs (o & i & Ho & Hi & Hfit) [Ha Hrow].
  destruct (cpu_decode_ok ns nb cpu a Hgeo) as (addr & index & Hd & _ & Hix & Hdir & Hass);
    [unfold CPU.cache; lia|done|].
  exists addr. split; [done|].
  assert (Address.__init__ a (N.of_nat bs) (N.of_nat nb) (N.of_nat ns) = Ok addr) as Hinit.
  { revert Hd. unfold CPU.decode, CPU.cache. destruct Hgeo as [_ Hsize _ _ Hlen].
    rewrite Hb, Hsize, Hlen. by intros [= ->]. }
  destruct (init_fields _ _ _ _ _ Hinit) as (_ & Ho' & Hi' & _).
  assert (Address._offset_len addr = o) as Eo by congruence.
  assert (Address._index_len addr = i) as Ei by congruence.
  assert (o = Z.of_N (N.log2 (N.of_nat bs))) as Eo'.
  { rewrite log2_int_pos in Ho by lia. congruence. }
  assert (0 < o < 32)%Z as Hrange.
  { rewrite Eo'. split.
    - assert (0 < N.log2 (N.of_nat bs))%N; [|lia]. apply N.log2_pos. lia.
    - assert (N.log2 (N.of_nat bs) < 32)%N; [|lia]. apply N.log2_lt_pow2; lia. }
  assert (Z.to_N (Address._offset_len addr) = N.log2 (N.of_nat bs)) as Elog
    by (rewrite Eo, Eo'; lia).
  split.
  - eexists. split.
    + apply (offset_as_number a _ _ _ addr Hinit Ha); rewrite ?Eo, ?Ei; lia.
    + rewrite Elog.
      assert (a mod 2 ^ N.log2 (N.of_nat bs) < 2 ^ N.log2 (N.of_nat bs))%N
        by (apply N.mod_lt, N.pow_nonzero; lia).
      pose proof (N.log2_spec (N.of_nat bs)). lia.
  - eexists. split.
    + apply (row_as_number a _ _ _ addr Hinit Ha); rewrite ?Eo, ?Ei; lia.
    + rewrite Elog. lia.
  - by exists index.
Qed.

Lemma perform_returns ns nb bs cap cpu op :
  steady ns nb bs cap (CPU.mem cpu) ->
  1 < ns <= nb ->
  (2 <= N.of_nat bs < 2 ^ 32)%N ->
  fits_32_bits (N.of_nat bs) (N.of_nat nb) (N.of_nat ns) ->
  in_ram_of bs cap (address_of op) ->
  returned op (fst (perform op cpu)) /\ steady ns nb bs cap (CPU.mem (snd (perform op cpu))).
Proof.
  intros Hw Hns Hbs Hfit Hin.
  destruct (decode_reachable ns nb bs cap cpu (address_of op) Hw) as (addr & Hd & Hreach);
    [lia|done..|].
  destruct op as [a|a v]; cbn [address_of] in Hd; cbn [perform returned].
  - pose proof (steady_get_val ns nb bs cap addr Hreach ltac:(lia) _ Hw) as H.
    unfold CPU.load. rewrite (bind_Ok _ _ _ _ _ Hd). erewrite bind_Ok by reflexivity.
    unfold CPU.on_mem. cbn [CPU.mem].
    destruct (Cache.get_val addr (CPU.mem cpu)) as [[x|e] w']; [|done].
    split; [by eexists|done].
  - pose proof (steady_set_val ns nb bs cap addr v Hreach ltac:(lia) _ Hw) as H.
    unfold CPU.store. rewrite (bind_Ok _ _ _ _ _ Hd). erewrite bind_Ok by reflexivity.
    unfold CPU.on_mem. cbn [CPU.mem].
    destruct (Cache.set_val addr v (CPU.mem cpu)) as [[[]|e] w']; [|done].
    done.
Qed.

(** X13: no access to an associative cache raises.  On a processor
    constructed with one of the three policies, more than one set and no
    more sets than rows, a block size between 2 and 2^31 bytes and a
    geometry whose offset and index fit in 32 bits: in a run of loads and
    stores whose addresses are below 2^32 and whose rows are rows of the
    RAM, every store returns and every load returns (a word or [None]),
    whatever the run did before; and the run leaves every block with the
    words of a block, every valid row of the cache with a block and two
    datetimes, and the RAM with the rows it was given. *)
Theorem associative_accesses_do_not_raise (bs ns nb nbr : nat) (pol : str)
    (wall : nat -> Z) (rand : nat -> nat) (cpu0 : CPU.t) (ops : list access) :
  CPU.__init__ bs ns nb nbr pol wall rand = Ok cpu0 ->
  pol = Cache.RANDOM \/ pol = Cache.LRU \/ pol = Cache.FIFO ->
  1 < ns <= nb ->
  (2 <= N.of_nat bs < 2 ^ 32)%N ->
  fits_32_bits (N.of_nat bs) (N.of_nat nb) (N.of_nat ns) ->
  Forall (fun op => in_ram_of bs nbr (address_of op)) ops ->
  Forall2 returned ops (fst (replay ops cpu0)) /\
  steady ns nb bs nbr (CPU.mem (snd (replay ops cpu0))).
Proof.
  intros Hinit Hpol Hns Hbs Hfit Hops.
  pose proof (init_steady _ _ _ _ _ _ _ _ Hinit Hpol) as Hw. clear Hinit.
  revert cpu0 Hw. induction Hops as [|op ops Hop Hops IH]; intros cpu Hw.
  - split; [constructor|done].
  - destruct (perform_returns ns nb bs nbr cpu op Hw Hns Hbs Hfit Hop) as [Hout Hw'].
    cbn [replay]. destruct (perform op cpu) as [out cpu'].
    destruct (IH cpu' Hw') as [Houts Hend].
    destruct (replay ops cpu') as [outs cpu'']. cbn [fst snd] in *.
    split; [by constructor|done].
Qed.

Lemma associative_accesses_do_not_raise_witness :
  exists cpu0,
    CPU.__init__ 2 2 4 16 Cache.LRU ticking draw_zero = Ok cpu0 /\
    Forall2 returned [Load 0; Store 2 (Float 7); Store 6 (Float 8); Store 10 (Float 9); Load 2]
      (fst (replay [Load 0; Store 2 (Float 7); Store 6 (Float 8); Store 10 (Float 9); Load 2]
              cpu0)).
Proof.
  assert (exists cpu0, CPU.__init__ 2 2 4 16 Cache.LRU ticking draw_zero = Ok cpu0)
    as [cpu0 Hinit] by (eexists; reflexivity).
  exists cpu0. split; [done|].
  apply (associative_accesses_do_not_raise 2 2 4 16 Cache.LRU ticking draw_zero cpu0
           [Load 0; Store 2 (Float 7); Store 6 (Float 8); Store 10 (Float 9); Load 2] Hinit).
  - right; left; reflexivity.
  - lia.
  - lia.
  - exists 1%Z, 1%Z. repeat split; [reflexivity..|lia].
  - repeat constructor; vm_compute; reflexivity.
Defined.

(** ** A load after a store, direct-mapped *)

Lemma blocks_setitem_inv i r w w' :
  Cache.blocks_setitem (Some i) r w = (Ok tt, w') ->
  i < length (Cache.blocks (Cache.self w)) /\
  Cache.blocks (Cache.self w') = <[i := r]> (Cache.blocks (Cache.self w)) /\
  shape w' = shape w /\ Cache.heap w' = Cache.heap w.
Proof.
  unfold Cache.blocks_setitem, bind, gets, modify, raise.
  destruct (decide _) as [Hlt|]; [|done]. intros [= <-].
  split; [done|]. split; [done|]. split; [|done].
  unfold shape. simpl. by rewrite length_insert.
Qed.

Lemma get_block_direct w addr index :
  size (Cache.sets (Cache.self w)) = 1 ->
  Cache.index_of addr = Ok index ->
  Cache.get_block addr w =
  match Cache.blocks (Cache.self w) !! index with
  | Some r => (Ok (Some index, r), w)
  | None => (Raise IndexError, w)
  end.
Proof.
  intros Hsize Hix. unfold Cache.get_block, bind, lift, gets, ret, raise.
  rewrite Hix, decide_True by done. by destruct (_ !! index).
Qed.

(** What a store that returns leaves in a direct-mapped cache: the row at
    the index of the address is valid, carries the tag of the address, and
    refers to a block that holds the value at the offset. *)
Lemma set_val_direct_post w addr val w' :
  size (Cache.sets (Cache.self w)) = 1 ->
  Cache.set_val addr val w = (Ok tt, w') ->
  exists off index row l,
    int2 (Address.get_offset addr) = Ok off /\
    Cache.index_of addr = Ok index /\
    Cache.blocks (Cache.self w') !! index = Some row /\
    Cache.valid row = true /\ Cache.tag row = Some (Address.get_tag addr) /\
    Cache.block row = Some l /\
    Block.data (Cache.heap w' l) !! N.to_nat off = Some val.
Proof.
  intros Hsize H. unfold Cache.set_val in H.
  apply bind_inv in H as (off & w0 & H0 & H). unfold lift in H0.
  destruct (int2 (Address.get_offset addr)) as [off'|] eqn:Hoff; [|done].
  injection H0 as -> <-.
  apply bind_inv in H as ([ix r] & w0 & Hget & H).
  destruct (Cache.index_of addr) as [index|] eqn:Hix.
  2: { unfold Cache.get_block, bind, lift in Hget. by rewrite Hix in Hget. }
  rewrite (get_block_direct w addr index Hsize Hix) in Hget.
  destruct (Cache.blocks (Cache.self w) !! index) as [r0|] eqn:Hr0; [|done].
  injection Hget as <- <- <-.
  exists off, index.
  destruct (Cache.valid r0 && _) eqn:Hhit.
  - apply andb_prop in Hhit as [Hv Ht]. apply bool_decide_eq_true_1 in Ht.
    apply bind_inv in H as ([] & w1 & Hcount & H). injection Hcount as <-.
    apply bind_inv in H as ([] & w2 & Hset & H).
    apply on_block_set_val_inv in Hset as (l & Hl & _ & Hword).
    apply bind_inv in H as (time & w3 & Hnow & H).
    apply bind_inv in H as ([] & w4 & Hitem & H).
    pose proof (preserves_store_now w2) as H3. rewrite Hnow in H3.
    simpl in H3. injection H3 as H3 _.
    pose proof (self_now w2) as S3. rewrite Hnow in S3. simpl in S3.
    apply blocks_setitem_inv in Hitem as (Hlt & Hblocks & _ & H4).
    pose proof (self_on_ram (RAM.set_block (Address.get_tag addr)
                               (Address.get_index addr) (Cache.block r0)) w4) as S5.
    rewrite H in S5. simpl in S5.
    apply on_ram_set_block_inv in H as (Hheap & _).
    eexists _, l. split; [done|]. split; [done|].
    split; [|split; [|split; [|split]]].
    + rewrite S5, Hblocks. by apply list_lookup_insert_eq.
    + done.
    + simpl. by rewrite <- Ht.
    + done.
    + by rewrite Hheap, H4, H3.
  - apply bind_inv in H as ([] & w1 & Hcount & H). injection Hcount as <-.
    apply bind_inv in H as (block & w2 & Hram & H).
    apply on_ram_get_block_inv in Hram as [-> _].
    apply bind_inv in H as (in_ram & w2 & Hin & H).
    assert (w2 = snd (Cache.count_write_miss w)) as ->.
    { destruct block; [unfold gets in Hin|unfold ret in Hin]; by injection Hin. }
    apply bind_inv in H as (block' & w3 & Hblock & H).
    set (w1 := snd (Cache.count_write_miss w)) in *.
    assert (Cache.self w3 = Cache.self w1) as Hself.
    { match type of Hblock with
      | ?m w1 = _ => assert (preserves Cache.self m) as Hp by (destruct in_ram; preserve)
      end.
      specialize (Hp w1). by rewrite Hblock in Hp. }
    assert (exists l, block' = Some l /\
                      Block.data (Cache.heap w3 l) !! N.to_nat off = Some val)
      as (l & -> & Hword).
    { destruct in_ram.
      - apply bind_inv in Hblock as ([] & w4 & Hset & Hret). injection Hret as <- <-.
        apply on_block_set_val_inv in Hset as (l & -> & _ & Hword). eauto.
      - apply bind_inv in Hblock as (c & w4 & _ & Hblock).
        apply bind_inv in Hblock as (b & w5 & _ & Hblock).
        apply bind_inv in Hblock as ([] & w6 & Hset & Hblock).
        apply bind_inv in Hblock as ([] & w7 & Hstore & Hret). injection Hret as <- <-.
        apply on_block_set_val_inv in Hset as (l & -> & _ & Hword).
        apply on_ram_set_block_inv in Hstore as (Hheap7 & _).
        exists l. by rewrite Hheap7. }
    destruct (set_block_direct w3 addr (Some l) index r0) as (w'' & Hrun & Hblocks & _);
      [by rewrite Hself|done|by rewrite Hself|].
    rewrite H in Hrun. injection Hrun as <-.
    pose proof (preserves_store_set_block addr (Some l) w3) as Hframe.
    rewrite H in Hframe. simpl in Hframe. injection Hframe as Hheap _.
    eexists _, l. split; [done|]. split; [done|].
    split; [|split; [|split; [|split]]].
    + rewrite Hblocks. apply list_lookup_insert_eq. rewrite Hself.
      by eapply lookup_lt_Some.
    + done.
    + done.
    + done.
    + by rewrite Hheap.
Qed.

Lemma get_val_hit w addr off ix r l v :
  int2 (Address.get_offset addr) = Ok off ->
  Cache.get_block addr w = (Ok (Some ix, r), w) ->
  Cache.valid r = true ->
  Cache.tag r = Some (Address.get_tag addr) ->
  Cache.block r = Some l ->
  Block.data (Cache.heap w l) !! N.to_nat off = Some v ->
  exists w', Cache.get_val addr w = (Ok (Some v), w') /\
             counters w' = bump true true (counters w).
Proof.
  intros Hoff Hget Hv Ht Hb Hword.
  pose proof (get_block_row _ _ _ _ _ Hget) as Hrow.
  apply lookup_lt_Some in Hrow.
  unfold Cache.get_val.
  rewrite (bind_Ok _ _ w off w) by (unfold lift; by rewrite Hoff).
  rewrite (bind_Ok _ _ _ _ _ Hget). cbn iota beta.
  rewrite Hv. rewrite Ht. rewrite bool_decide_eq_true_2 by done. cbn [andb].
  erewrite bind_Ok by reflexivity.
  erewrite bind_Ok by reflexivity.
  erewrite bind_Ok by (apply blocks_setitem_ok; exact Hrow).
  erewrite bind_Ok.
  2: { rewrite Hb. unfold Cache.data_getitem.
       erewrite bind_Ok by reflexivity. cbn [Cache.heap Cache.with_self].
       simpl. rewrite Hword. reflexivity. }
  eexists. split; [reflexivity|]. done.
Qed.

(** X14: a direct-mapped cache gives back what was just stored.  When a
    [store] to an address returns, the [load] of the same address that
    follows it returns the value stored, and it is a read hit: the store
    has left the row of the address valid, with the tag of the address and
    the block that holds the value. *)
Theorem direct_mapped_load_after_store (cpu cpu1 : CPU.t) (a : N) (v : pyfloat) :
  size (Cache.sets (CPU.cache cpu)) = 1 ->
  CPU.store a v cpu = (Ok tt, cpu1) ->
  exists cpu2,
    CPU.load a cpu1 = (Ok (Some v), cpu2) /\
    lookup_hits a cpu1 = true /\
    Cache.read_hits (CPU.cache cpu2) = Cache.read_hits (CPU.cache cpu1) + 1 /\
    Cache.read_misses (CPU.cache cpu2) = Cache.read_misses (CPU.cache cpu1).
Proof.
  intros Hsize Hstore.
  assert (exists r, CPU.decode a cpu = (r, cpu)) as [[addr|e] Hd] by by eexists.
  2: { unfold CPU.store in Hstore. by rewrite (bind_Raise _ _ _ _ _ Hd) in Hstore. }
  unfold CPU.store in Hstore. rewrite (bind_Ok _ _ _ _ _ Hd) in Hstore.
  erewrite bind_Ok in Hstore by reflexivity. unfold CPU.on_mem in Hstore.
  cbn [CPU.mem CPU.instructions CPU.count_instruction modify snd] in Hstore.
  destruct (Cache.set_val addr v (CPU.mem cpu)) as [[[]|e] w1] eqn:Hset; [|done].
  injection Hstore as <-.
  destruct (set_val_direct_post _ _ _ _ Hsize Hset)
    as (off & index & row & l & Hoff & Hix & Hrow & Hv & Ht & Hb & Hword).
  pose proof (preserves_shape_set_val addr v (CPU.mem cpu)) as Hshape.
  rewrite Hset in Hshape. unfold shape in Hshape. simpl in Hshape.
  injection Hshape as Hbs _ Hsets _ Hlen.
  set (cpu1 := {| CPU.mem := w1; CPU.instructions := CPU.instructions cpu + 1 |}).
  assert (CPU.decode a cpu1 = (Ok addr, cpu1)) as Hd1.
  { revert Hd. unfold CPU.decode, CPU.cache. cbn [CPU.mem cpu1].
    rewrite Hbs, Hsets, Hlen. by intros [= ->]. }
  assert (Cache.get_block addr w1 = (Ok (Some index, row), w1)) as Hget.
  { rewrite (get_block_direct w1 addr index); [by rewrite Hrow|by rewrite Hsets|done]. }
  destruct (get_val_hit w1 addr off index row l v Hoff Hget Hv Ht Hb Hword)
    as (w2 & Hval & Hcount).
  exists {| CPU.mem := w2; CPU.instructions := CPU.instructions cpu1 + 1 |}.
  split; [|split].
  - unfold CPU.load. rewrite (bind_Ok _ _ _ _ _ Hd1). erewrite bind_Ok by reflexivity.
    unfold CPU.on_mem. cbn [CPU.mem CPU.instructions CPU.count_instruction modify snd cpu1].
    by rewrite Hval.
  - unfold lookup_hits. rewrite Hd1. cbn [CPU.mem cpu1]. rewrite Hget, Hv, Ht.
    by rewrite bool_decide_eq_true_2.
  - unfold counters, bump in Hcount. unfold CPU.cache. cbn [CPU.mem cpu1].
    injection Hcount as -> -> _ _. done.
Qed.

Lemma direct_mapped_load_after_store_witness :
  exists cpu0 cpu cpu1 cpu2,
    CPU.__init__ 2 1 4 16 Cache.LRU ticking draw_zero = Ok cpu0 /\
    replay [Store 0 (Float 1); Store 8 (Float 2)] cpu0 = ([Stored; Stored], cpu) /\
    CPU.store 1 (Float 3) cpu = (Ok tt, cpu1) /\
    CPU.load 1 cpu1 = (Ok (Some (Float 3)), cpu2).
Proof.
  assert (exists cpu0 cpu cpu1,
    CPU.__init__ 2 1 4 16 Cache.LRU ticking draw_zero = Ok cpu0 /\
    replay [Store 0 (Float 1); Store 8 (Float 2)] cpu0 = ([Stored; Stored], cpu) /\
    size (Cache.sets (CPU.cache cpu)) = 1 /\
    CPU.store 1 (Float 3) cpu = (Ok tt, cpu1))
    as (cpu0 & cpu & cpu1 & H0 & H1 & Hsize & Hstore).
  { eexists _, _, _. split; [reflexivity|].
    repeat (split; [vm_compute; reflexivity|]). vm_compute; reflexivity. }
  destruct (direct_mapped_load_after_store cpu cpu1 1 (Float 3) Hsize Hstore)
    as (cpu2 & Hload & _).
  by exists cpu0, cpu, cpu1, cpu2.
Defined.
